(** * AYNEC DataGen: a shallow embedding of [DatasetsGenerator]

    The development follows [src/DataGen.py].  Python values are modelled as
    follows.

    - Entities and relations are Python strings: [string].
    - An edge is the tuple [(relation, source, target)].
    - A [set] whose iteration order the code observes is a duplicate-free
      list (the list order is the iteration order of the run); [add] appends
      an element that is not yet present.
    - A [dict] whose [items()] order the code observes is an association list
      in insertion order; the other dictionaries are [gmap]s.
    - A Python [float] is an exact rational [Q]; rounding of the binary
      floating-point format is not modelled.
    - Exceptions are the [Raise] results of the [result] monad.  A [while]
      loop runs on fuel; [OutOfFuel] is not a Python exception, and the
      lemmas on the loops show that the fuel they are given is enough.
    - [random()], [sample] and [np.random.choice] read a tape of raw draws;
      the position on the tape is threaded through the samplers. *)

From Stdlib Require Import ZArith QArith Qround Lia.
From stdpp Require Import base list gmap strings sorting.

Open Scope Z_scope.

(** ** Exceptions and the result monad *)

Inductive exn : Type :=
  | KeyError
  | IndexError
  | AttributeError
  | UnboundLocalError
  | ValueError
  | ZeroDivisionError
  | OutOfFuel.

Inductive result (A : Type) : Type :=
  | Ok (a : A)
  | Raise (e : exn).
Arguments Ok {A} a.
Arguments Raise {A} e.

#[export] Instance result_ret : MRet result := fun A a => Ok a.
#[export] Instance result_bind : MBind result := fun A B f m =>
  match m with
  | Ok a => f a
  | Raise e => Raise e
  end.

Definition lookup_or {A} (e : exn) (o : option A) : result A :=
  match o with
  | Some a => Ok a
  | None => Raise e
  end.

(** ** Python containers *)

Section py_set.
Context {A : Type} `{EqDecision A}.

(** [s.add(x)] *)
Definition set_add (x : A) (s : list A) : list A :=
  if decide (x ∈ s) then s else s ++ [x].

(** [x in s] *)
Definition member (x : A) (s : list A) : bool := bool_decide (x ∈ s).

(** [s.update(xs)] *)
Definition set_update (s xs : list A) : list A :=
  foldl (fun acc x => set_add x acc) s xs.
End py_set.

Section py_dict.
Context {K V : Type} `{EqDecision K}.

(** [d.get(k)] / [d[k]] *)
Fixpoint dict_get (k : K) (d : list (K * V)) : option V :=
  match d with
  | [] => None
  | (k', v) :: d' => if decide (k' = k) then Some v else dict_get k d'
  end.

(** [d[k] = v]: an existing key keeps its position. *)
Fixpoint dict_set (k : K) (v : V) (d : list (K * V)) : list (K * V) :=
  match d with
  | [] => [(k, v)]
  | (k', v') :: d' =>
      if decide (k' = k) then (k', v) :: d' else (k', v') :: dict_set k v d'
  end.

(** [d.pop(k, None)] *)
Definition dict_pop (k : K) (d : list (K * V)) : list (K * V) :=
  filter (fun kv => kv.1 ≠ k) d.
End py_dict.

(** [range(a, b)] *)
Definition py_range (a b : Z) : list Z :=
  (fun k : nat => a + Z.of_nat k) <$> seq 0 (Z.to_nat (b - a)).

(** ** The data model *)

Definition entity : Type := string.
Definition relation : Type := string.
Definition edge : Type := relation * entity * entity.

Definition edge_rel (e : edge) : relation := e.1.1.
Definition edge_source (e : edge) : entity := e.1.2.
Definition edge_target (e : edge) : entity := e.2.

Record degrees : Type := Degrees {
  degree : nat;
  out_degree : nat;
  in_degree : nat
}.

(** [graphs[i]["train"]] and [graphs[i]["test"]]: the ["negative"] key is
    absent until negatives are generated. *)
Record bucket : Type := Bucket {
  positive : list edge;
  negative : option (list edge)
}.

Record split : Type := Split {
  train : bucket;
  test : bucket
}.

Inductive train_test : Type := Train | Test.

Definition matrix : Type := list (list Q).

Record generator : Type := Generator {
  entities : list (entity * degrees);
  relations : list relation;
  edges : list edge;
  inverses : list relation;
  inverse_tuples : list (relation * relation);
  inverses_dict : gmap relation (list relation);
  graphs : gmap nat split;
  number_splits : nat;
  ignored_rels_positives : list relation;
  entity_edges : gmap entity (list edge);
  domains : gmap relation (list entity);
  ranges : gmap relation (list entity);
  grouped_edges : list (relation * list (entity * entity));
  etoint : option (gmap entity nat);
  inttoe : option (gmap nat entity);
  ranks : option matrix
}.

(** [DatasetsGenerator.__init__] *)
Definition init (number_splits : nat) : generator :=
  {| entities := []; relations := []; edges := []; inverses := [];
     inverse_tuples := []; inverses_dict := ∅; graphs := ∅;
     number_splits := number_splits; ignored_rels_positives := [];
     entity_edges := ∅; domains := ∅; ranges := ∅; grouped_edges := [];
     etoint := None; inttoe := None; ranks := None |}.

Definition set_graphs (g : generator) (gr : gmap nat split) : generator :=
  {| entities := entities g; relations := relations g; edges := edges g;
     inverses := inverses g; inverse_tuples := inverse_tuples g;
     inverses_dict := inverses_dict g; graphs := gr;
     number_splits := number_splits g;
     ignored_rels_positives := ignored_rels_positives g;
     entity_edges := entity_edges g; domains := domains g;
     ranges := ranges g; grouped_edges := grouped_edges g;
     etoint := etoint g; inttoe := inttoe g; ranks := ranks g |}.

Definition set_ignored (g : generator) (ign : list relation) : generator :=
  {| entities := entities g; relations := relations g; edges := edges g;
     inverses := inverses g; inverse_tuples := inverse_tuples g;
     inverses_dict := inverses_dict g; graphs := graphs g;
     number_splits := number_splits g;
     ignored_rels_positives := ign;
     entity_edges := entity_edges g; domains := domains g;
     ranges := ranges g; grouped_edges := grouped_edges g;
     etoint := etoint g; inttoe := inttoe g; ranks := ranks g |}.

(** ** Comparisons on floats *)

Definition Qlt_bool (a b : Q) : bool := negb (Qle_bool b a).

(** ** The random source

    [random()] is a 53-bit integer divided by [2^53], as in CPython;
    [sample(population, 1)[0]] is the element at a raw draw reduced modulo the
    length of the population. *)

Record rng : Type := Rng {
  tape : nat -> N;
  cursor : nat
}.

Definition next_raw (r : rng) : N * rng :=
  (tape r (cursor r), {| tape := tape r; cursor := S (cursor r) |}).

Definition random (r : rng) : Q * rng :=
  let (x, r') := next_raw r in
  (Z.of_N (x mod 2 ^ 53) # 2 ^ 53, r').

Definition sample1 {A} (population : list A) (r : rng) : result (A * rng) :=
  match population with
  | [] => Raise ValueError
  | _ =>
      let (x, r') := next_raw r in
      a ← lookup_or IndexError
            (population !! (N.to_nat x `mod` length population)%nat);
      Ok (a, r')
  end.

(** ** Splitting: [DatasetsGenerator.split_graph] (lines 442 to 476) *)

Module Splitter.

(** [edges = [(rel, s, t) for s, t in self.grouped_edges[rel]]] *)
Definition edges_of (rel : relation) (pairs : list (entity * entity))
  : list edge :=
  (fun st : entity * entity => (rel, st.1, st.2)) <$> pairs.

(** [offset = floor(len(edges) / self.number_splits * i)] *)
Definition offset (n : nat) (splits i : nat) : Z :=
  Qfloor (inject_Z (Z.of_nat n) / inject_Z (Z.of_nat splits)
          * inject_Z (Z.of_nat i)).

(** [num_test = floor(len(edges) * fraction_test)] *)
Definition num_test (n : nat) (fraction_test : Q) : Z :=
  Qfloor (inject_Z (Z.of_nat n) * fraction_test).

(** [[(offset + x) % len(edges) for x in range(a, b)]] *)
Definition ids (off : Z) (n : nat) (a b : Z) : list Z :=
  (fun x => (off + x) `mod` Z.of_nat n) <$> py_range a b.

(** [[edges[id] for id in ids]] *)
Fixpoint take_ids (es : list edge) (l : list Z) : result (list edge) :=
  match l with
  | [] => Ok []
  | id :: l' =>
      e ← lookup_or IndexError (es !! Z.to_nat id);
      r ← take_ids es l';
      Ok (e :: r)
  end.

(** The fractions in force: the dictionary passed by the caller, or the
    single [fraction_test] for every relation when it is empty. *)
Definition fractions (g : generator) (fraction_test : Q)
    (fraction_test_relations : gmap relation Q) : gmap relation Q :=
  if decide (size fraction_test_relations = 0%nat)
  then list_to_map ((fun rel => (rel, fraction_test)) <$> relations g)
  else fraction_test_relations.

(** The body of the loop over the relations, for split [i]. *)
Definition split_relation (g : generator) (ftr : gmap relation Q) (i : nat)
    (rel : relation) : result (list edge * list edge) :=
  pairs ← lookup_or KeyError (dict_get rel (grouped_edges g));
  let es := edges_of rel pairs in
  let n := length es in
  let off := offset n (number_splits g) i in
  let fraction_test := default 0%Q (ftr !! rel) in
  let nt := num_test n fraction_test in
  edges_test ← take_ids es (ids off n 0 nt);
  edges_train ← take_ids es (ids off n nt (Z.of_nat n));
  Ok (edges_test, edges_train).

(** The loop over the relations: the two sets of split [i] grow by
    [update]. *)
Fixpoint split_relations (g : generator) (ftr : gmap relation Q) (i : nat)
    (rels : list relation) (tr te : list edge)
  : result (list edge * list edge) :=
  match rels with
  | [] => Ok (tr, te)
  | rel :: rels' =>
      r ← split_relation g ftr i rel;
      split_relations g ftr i rels' (set_update tr r.2) (set_update te r.1)
  end.

(** The loop over the splits. *)
Fixpoint split_loop (g : generator) (ftr : gmap relation Q)
    (ixs : list nat) (gr : gmap nat split) : result (gmap nat split) :=
  match ixs with
  | [] => Ok gr
  | i :: ixs' =>
      r ← split_relations g ftr i (relations g) [] [];
      split_loop g ftr ixs'
        (<[i := {| train := {| positive := r.1; negative := None |};
                   test := {| positive := r.2; negative := None |} |}]> gr)
  end.

Definition split_graph (g : generator) (fraction_test : Q)
    (fraction_test_relations : gmap relation Q) : result generator :=
  let ftr := fractions g fraction_test fraction_test_relations in
  gr ← split_loop g ftr (seq 0 (number_splits g)) (graphs g);
  Ok (set_graphs g gr).

End Splitter.

(** ** Reading: [SimpleTriplesReader.read] (lines 111 to 148)

    A line is given already stripped and split: [(triple[0], triple[1],
    triple[2])], that is (source, relationship, target). *)

Module Reader.

Definition bump_out (d : degrees) : degrees :=
  {| degree := S (degree d); out_degree := S (out_degree d);
     in_degree := in_degree d |}.

Definition bump_in (d : degrees) : degrees :=
  {| degree := S (degree d); out_degree := out_degree d;
     in_degree := S (in_degree d) |}.

Definition ensure_entity (e : entity) (ents : list (entity * degrees))
  : list (entity * degrees) :=
  match dict_get e ents with
  | Some _ => ents
  | None => dict_set e (Degrees 0 0 0) ents
  end.

Definition dict_update (e : entity) (f : degrees -> degrees)
    (ents : list (entity * degrees)) : list (entity * degrees) :=
  match dict_get e ents with
  | Some d => dict_set e (f d) ents
  | None => ents
  end.

Definition output : Type :=
  list (entity * degrees) * list relation * list edge.

Definition add_triple (line : entity * relation * entity) (acc : output)
  : output :=
  let '(source, relationship, target) := line in
  let '(ents, rels, es) := acc in
  let ents := ensure_entity source ents in
  let ents := ensure_entity target ents in
  let ents := dict_update source bump_out ents in
  let ents := dict_update target bump_in ents in
  (ents, set_add relationship rels, set_add (relationship, source, target) es).

Fixpoint read_lines (lines : list (entity * relation * entity)) (prob : Q)
    (acc : output) (r : rng) : output * rng :=
  match lines with
  | [] => (acc, r)
  | line :: lines' =>
      let (u, r') := random r in
      if Qlt_bool u prob
      then read_lines lines' prob (add_triple line acc) r'
      else read_lines lines' prob acc r'
  end.

Definition read (lines : list (entity * relation * entity)) (prob : Q)
    (r : rng) : output * rng :=
  read_lines lines prob ([], [], []) r.

End Reader.

(** ** Preprocessing: [group_edges] (lines 186 to 205), [read] (lines 207
       to 265), [remove_rels] (lines 374 to 386) and [find_inverses] (lines
       388 to 413) *)

Module Preprocess.

Definition ensure_key {V} (k : relation) (m : gmap relation (list V))
  : gmap relation (list V) :=
  match m !! k with
  | Some _ => m
  | None => <[k := []]> m
  end.

Definition ensure_group (k : relation)
    (d : list (relation * list (entity * entity)))
  : list (relation * list (entity * entity)) :=
  match dict_get k d with
  | Some _ => d
  | None => dict_set k [] d
  end.

Definition group_add (k : relation) (st : entity * entity)
    (d : list (relation * list (entity * entity)))
  : list (relation * list (entity * entity)) :=
  match dict_get k d with
  | Some s => dict_set k (set_add st s) d
  | None => d
  end.

Definition group_step
    (acc : list (relation * list (entity * entity))
           * gmap relation (list entity) * gmap relation (list entity))
    (e : edge) :=
  let '(ge, doms, rans) := acc in
  let '(rel, s, t) := e in
  let ge := ensure_group rel ge in
  let doms := ensure_key rel doms in
  let rans := ensure_key rel rans in
  (group_add rel (s, t) ge,
   alter (set_add s) rel doms,
   alter (set_add t) rel rans).

Definition group_edges (g : generator) : generator :=
  let '(ge, doms, rans) := foldl group_step ([], ∅, ∅) (edges g) in
  {| entities := entities g; relations := relations g; edges := edges g;
     inverses := inverses g; inverse_tuples := inverse_tuples g;
     inverses_dict := inverses_dict g; graphs := graphs g;
     number_splits := number_splits g;
     ignored_rels_positives := ignored_rels_positives g;
     entity_edges := entity_edges g; domains := doms;
     ranges := rans; grouped_edges := ge;
     etoint := etoint g; inttoe := inttoe g; ranks := ranks g |}.

(** [self.entities, self.relations, self.edges = reader.read()] followed
    by [self.group_edges()]. *)
Definition load (g : generator) (input : Reader.output) : generator :=
  let '(ents, rels, es) := input in
  group_edges
    {| entities := ents; relations := rels; edges := es;
       inverses := inverses g; inverse_tuples := inverse_tuples g;
       inverses_dict := inverses_dict g; graphs := graphs g;
       number_splits := number_splits g;
       ignored_rels_positives := ignored_rels_positives g;
       entity_edges := entity_edges g; domains := domains g;
       ranges := ranges g; grouped_edges := grouped_edges g;
       etoint := etoint g; inttoe := inttoe g; ranks := ranks g |}.

(** [candidate_rels]: the relations with at least [min_num_rel] edges, in
    the order of [grouped_edges.items()]. *)
Definition candidate_rels (g : generator) (min_num_rel : Z)
  : list (relation * nat) :=
  filter (fun x => min_num_rel ≤ Z.of_nat x.2)
    ((fun kv : relation * list (entity * entity) => (kv.1, length kv.2))
       <$> grouped_edges g).

(** [list.sort(key=lambda x: x[1], reverse=True)]: the sort is stable, so
    an element goes in front of the first one whose count is not larger. *)
Fixpoint insert_desc (x : relation * nat) (l : list (relation * nat))
  : list (relation * nat) :=
  match l with
  | [] => [x]
  | y :: l' =>
      if decide (x.2 < y.2)%nat then y :: insert_desc x l' else x :: y :: l'
  end.

Definition sort_desc (l : list (relation * nat)) : list (relation * nat) :=
  foldr insert_desc [] l.

(** The accepting loop, with its [break]. *)
Fixpoint accept (total : nat) (reach_fraction : Q)
    (cands : list (relation * nat)) (accumulated_fraction : Q)
    (accepted_rels : list relation) : list relation :=
  match cands with
  | [] => accepted_rels
  | (rel, amount) :: cands' =>
      let accepted_rels := accepted_rels ++ [rel] in
      let accumulated_fraction :=
        (accumulated_fraction
         + inject_Z (Z.of_nat amount) / inject_Z (Z.of_nat total))%Q in
      if Qle_bool reach_fraction accumulated_fraction
      then accepted_rels
      else accept total reach_fraction cands' accumulated_fraction
             accepted_rels
  end.

Definition accepted_rels (g : generator) (min_num_rel : Z)
    (reach_fraction : Q) : list relation :=
  accept (length (edges g)) reach_fraction
    (sort_desc (candidate_rels g min_num_rel)) 0%Q [].

(** [self.relations.remove(rel)] *)
Definition set_remove (rel : relation) (rels : list relation)
  : result (list relation) :=
  if decide (rel ∈ rels) then Ok (filter (fun r => r ≠ rel) rels)
  else Raise KeyError.

Fixpoint remove_loop (removed_rels : list relation)
    (ge : list (relation * list (entity * entity))) (rels : list relation)
  : result (list (relation * list (entity * entity)) * list relation) :=
  match removed_rels with
  | [] => Ok (ge, rels)
  | rel :: rest =>
      rels' ← set_remove rel rels;
      remove_loop rest (dict_pop rel ge) rels'
  end.

Definition remove_rels (g : generator) (removed_rels : list relation)
  : result generator :=
  let es := filter (fun e : edge => edge_rel e ∉ removed_rels) (edges g) in
  r ← remove_loop removed_rels (grouped_edges g) (relations g);
  Ok {| entities := entities g; relations := r.2; edges := es;
        inverses := inverses g; inverse_tuples := inverse_tuples g;
        inverses_dict := inverses_dict g; graphs := graphs g;
        number_splits := number_splits g;
        ignored_rels_positives := ignored_rels_positives g;
        entity_edges := entity_edges g; domains := domains g;
        ranges := ranges g; grouped_edges := r.1;
        etoint := etoint g; inttoe := inttoe g; ranks := ranks g |}.

(** The pruning step of [read]. *)
Definition prune (g : generator) (min_num_rel : Z) (reach_fraction : Q)
  : result generator :=
  let accepted := accepted_rels g min_num_rel reach_fraction in
  let removed_rels := filter (fun rel => rel ∉ accepted) (relations g) in
  remove_rels g removed_rels.

(** [itertools.combinations(iterable, 2)] *)
Fixpoint combinations2 {A} (l : list A) : list (A * A) :=
  match l with
  | [] => []
  | x :: l' => (pair x <$> l') ++ combinations2 l'
  end.

(** [all((edge[1], edge[0]) in edges2 for edge in edges1)] *)
Definition mirrored (edges1 edges2 : list (entity * entity)) : bool :=
  forallb (fun edge => bool_decide ((edge.2, edge.1) ∈ edges2)) edges1.

Definition is_inverse (edges1 edges2 : list (entity * entity)) : bool :=
  mirrored edges1 edges2 && mirrored edges2 edges1.

Fixpoint inverse_loop (ge : list (relation * list (entity * entity)))
    (combs : list (relation * relation))
    (tuples : list (relation * relation)) (invs : list relation)
  : result (list (relation * relation) * list relation) :=
  match combs with
  | [] => Ok (tuples, invs)
  | combination :: rest =>
      edges1 ← lookup_or KeyError (dict_get combination.1 ge);
      edges2 ← lookup_or KeyError (dict_get combination.2 ge);
      if is_inverse edges1 edges2
      then inverse_loop ge rest
             (tuples ++ [(combination.1, combination.2)])
             (set_add combination.2 invs)
      else inverse_loop ge rest tuples invs
  end.

(** The truth value of a tuple with two components: it is not empty. *)
Definition truthy {A B} (t : A * B) : bool := true.

(** [(r1, r2) or (r2, r1) in self.inverse_tuples]: [in] binds tighter
    than [or]. *)
Definition partner_test (tuples : list (relation * relation))
    (r1 r2 : relation) : bool :=
  truthy (r1, r2) || bool_decide ((r2, r1) ∈ tuples).

Definition partners (tuples : list (relation * relation))
    (rels : list relation) (r1 : relation) : list relation :=
  foldl (fun acc r2 =>
           if partner_test tuples r1 r2 then set_add r2 acc else acc)
    [] rels.

Definition build_dict (tuples : list (relation * relation))
    (rels : list relation) (d : gmap relation (list relation))
  : gmap relation (list relation) :=
  foldl (fun d r1 => <[r1 := partners tuples rels r1]> d) d rels.

Definition find_inverses (g : generator) : result generator :=
  r ← inverse_loop (grouped_edges g) (combinations2 (relations g))
        (inverse_tuples g) (inverses g);
  Ok {| entities := entities g; relations := relations g; edges := edges g;
        inverses := r.2; inverse_tuples := r.1;
        inverses_dict := build_dict r.1 (relations g) (inverses_dict g);
        graphs := graphs g; number_splits := number_splits g;
        ignored_rels_positives := ignored_rels_positives g;
        entity_edges := entity_edges g; domains := domains g;
        ranges := ranges g; grouped_edges := grouped_edges g;
        etoint := etoint g; inttoe := inttoe g; ranks := ranks g |}.

(** "Storing outgoing edges for each node" *)
Definition entity_edges_step (m : gmap entity (list edge)) (e : edge)
  : gmap entity (list edge) :=
  let m := match m !! edge_source e with
           | Some _ => m
           | None => <[edge_source e := []]> m
           end in
  alter (fun l => l ++ [e]) (edge_source e) m.

Definition store_entity_edges (g : generator) : generator :=
  {| entities := entities g; relations := relations g; edges := edges g;
     inverses := inverses g; inverse_tuples := inverse_tuples g;
     inverses_dict := inverses_dict g; graphs := graphs g;
     number_splits := number_splits g;
     ignored_rels_positives := ignored_rels_positives g;
     entity_edges := foldl entity_edges_step (entity_edges g) (edges g);
     domains := domains g; ranges := ranges g;
     grouped_edges := grouped_edges g;
     etoint := etoint g; inttoe := inttoe g; ranks := ranks g |}.

(** [DatasetsGenerator.read]; the html summary is an output only. *)
Definition read (g : generator) (input : Reader.output) (min_num_rel : Z)
    (reach_fraction : Q) (remove_inverses : bool) : result generator :=
  g1 ← prune (load g input) min_num_rel reach_fraction;
  g2 ← find_inverses g1;
  g3 ← (if remove_inverses then remove_rels g2 (inverses g2) else Ok g2);
  Ok (store_entity_edges g3).

End Preprocess.

(** ** Personalised page rank: [encode] (lines 415 to 440) and
       [compute_PPR] (lines 267 to 299) *)

Module PPR.

(** [enumerate(l)] *)
Definition enumerate {A} (l : list A) : list (nat * A) :=
  zip (seq 0 (length l)) l.

(** [encode(False)]: only the entity tables are read afterwards. *)
Definition encode (g : generator) : generator :=
  let e2i : gmap entity nat :=
    foldl (fun m ie => <[ie.2 := ie.1]> m) ∅ (enumerate (entities g).*1) in
  let i2e : gmap nat entity :=
    foldl (fun m ei => <[ei.2 := ei.1]> m) ∅ (map_to_list e2i) in
  {| entities := entities g; relations := relations g; edges := edges g;
     inverses := inverses g; inverse_tuples := inverse_tuples g;
     inverses_dict := inverses_dict g; graphs := graphs g;
     number_splits := number_splits g;
     ignored_rels_positives := ignored_rels_positives g;
     entity_edges := entity_edges g;
     domains := domains g; ranges := ranges g;
     grouped_edges := grouped_edges g;
     etoint := Some e2i; inttoe := Some i2e; ranks := ranks g |}.

(** [np.empty([n, n])]: the entries are whatever the fresh buffer
    holds. *)
Definition np_empty (n : nat) (fresh : nat -> nat -> Q) : matrix :=
  (fun i => (fun j => fresh i j) <$> seq 0 n) <$> seq 0 n.

Definition np_identity (n : nat) : matrix :=
  (fun i => (fun j => if decide (i = j) then 1%Q else 0%Q) <$> seq 0 n)
    <$> seq 0 n.

Definition mat_get (m : matrix) (i j : nat) : Q :=
  default 0%Q (m !! i ≫= fun row => row !! j).

(** [m[i, j] = v] *)
Definition mat_set (m : matrix) (i j : nat) (v : Q) : matrix :=
  alter (fun row => <[j := v]> row) i m.

Definition Qsum (l : list Q) : Q := foldr Qplus 0%Q l.

(** [np.matmul(a, b)] for square matrices of size [n] *)
Definition matmul (n : nat) (a b : matrix) : matrix :=
  (fun i =>
     (fun j => Qsum ((fun k => (mat_get a i k * mat_get b k j)%Q)
                       <$> seq 0 n)) <$> seq 0 n) <$> seq 0 n.

(** [x * a + y * b], entry by entry *)
Definition mat_lin (n : nat) (x : Q) (a : matrix) (y : Q) (b : matrix)
  : matrix :=
  (fun i =>
     (fun j => (x * mat_get a i j + y * mat_get b i j)%Q) <$> seq 0 n)
    <$> seq 0 n.

(** [entity_count[target] = entity_count.get(target, 0) + 1] *)
Definition count_targets (es : list edge) : list (entity * nat) :=
  foldl (fun d e =>
           dict_set (edge_target e)
             (S (default 0%nat (dict_get (edge_target e) d))) d)
    [] es.

Fixpoint fill_row (e2i : gmap entity nat) (source_ind : nat) (len : nat)
    (counts : list (entity * nat)) (m : matrix) : result matrix :=
  match counts with
  | [] => Ok m
  | (target, frequency) :: rest =>
      target_ind ← lookup_or KeyError (e2i !! target);
      fill_row e2i source_ind len rest
        (mat_set m source_ind target_ind
           (inject_Z (Z.of_nat frequency) / inject_Z (Z.of_nat len))%Q)
  end.

Fixpoint fill_rows (g : generator) (e2i : gmap entity nat)
    (ents : list entity) (m : matrix) : result matrix :=
  match ents with
  | [] => Ok m
  | ent :: rest =>
      source_ind ← lookup_or KeyError (e2i !! ent);
      let es := default [] (entity_edges g !! ent) in
      m' ← fill_row e2i source_ind (length es) (count_targets es) m;
      fill_rows g e2i rest m'
  end.

(** The table of movements built by [compute_PPR]. *)
Definition matrix_movements (g : generator) (fresh : nat -> nat -> Q)
  : result matrix :=
  let g := encode g in
  e2i ← lookup_or AttributeError (etoint g);
  let n := length (entities g) in
  fill_rows g e2i (entities g).*1 (np_empty n fresh).

(** [round(x)]: to the nearest integer, ties to the even one. *)
Definition py_round (x : Q) : Z :=
  let f := Qfloor x in
  let d := (x - inject_Z f)%Q in
  if Qlt_bool d (1 # 2) then f
  else if Qlt_bool (1 # 2) d then f + 1
  else if Z.even f then f else f + 1.

Fixpoint iterate_ranks (steps : nat) (n : nat) (alpha : Q)
    (movements initial ranks : matrix) : matrix :=
  match steps with
  | O => ranks
  | S steps' =>
      iterate_ranks steps' n alpha movements initial
        (mat_lin n (1 - alpha)%Q (matmul n ranks movements) alpha initial)
  end.

Definition compute_PPR (g : generator) (steps : option Z) (alpha : Q)
    (fresh : nat -> nat -> Q) : result generator :=
  movements ← matrix_movements g fresh;
  let g := encode g in
  let n := length (entities g) in
  steps ← match steps with
          | Some s => Ok s
          | None =>
              if Qeq_bool alpha 0 then Raise ZeroDivisionError
              else Ok (py_round (1 / alpha))
          end;
  let rk := iterate_ranks (Z.to_nat steps) n alpha movements
              (np_identity n) (np_identity n) in
  Ok {| entities := entities g; relations := relations g; edges := edges g;
        inverses := inverses g; inverse_tuples := inverse_tuples g;
        inverses_dict := inverses_dict g; graphs := graphs g;
        number_splits := number_splits g;
        ignored_rels_positives := ignored_rels_positives g;
        entity_edges := entity_edges g;
        domains := domains g; ranges := ranges g;
        grouped_edges := grouped_edges g;
        etoint := etoint g; inttoe := inttoe g; ranks := Some rk |}.

End PPR.

(** ** Negative examples: [generate_negatives_PPR] (lines 524 to 549),
       [generate_negatives_random] (lines 551 to 626) and
       [generate_negatives] (lines 628 to 674) *)

Module Negatives.

(** *** [np.random.choice(len(p), size, p=p)]

    The legacy generator draws [size] uniform samples and looks each one up
    in the normalised cumulative sums with [searchsorted(side="right")]. *)

Fixpoint cumsum (acc : Q) (p : list Q) : list Q :=
  match p with
  | [] => []
  | x :: p' => (acc + x)%Q :: cumsum (acc + x)%Q p'
  end.

Fixpoint searchsorted_right (cdf : list Q) (u : Q) : nat :=
  match cdf with
  | [] => O
  | c :: cdf' => if Qle_bool c u then S (searchsorted_right cdf' u) else O
  end.

Fixpoint uniform_samples (size : nat) (r : rng) : list Q * rng :=
  match size with
  | O => ([], r)
  | S size' =>
      let (u, r') := random r in
      let (us, r'') := uniform_samples size' r' in
      (u :: us, r'')
  end.

Definition np_choice (p : list Q) (size : nat) (r : rng)
  : result (list nat * rng) :=
  match p with
  | [] => Raise ValueError
  | _ =>
      let cdf := cumsum 0 p in
      let last := default 1%Q (last cdf) in
      let cdf := (fun c => c / last)%Q <$> cdf in
      let (us, r') := uniform_samples size r in
      Ok (searchsorted_right cdf <$> us, r')
  end.

(** *** [generate_negatives_PPR] *)

(** [[(self.inttoe[i], rank) for i, rank in enumerate(ranks_row)
      if rank > 0 and self.inttoe[i] in scope[rel]]] *)
Fixpoint ppr_candidates (i2e : gmap nat entity)
    (scope : gmap relation (list entity)) (rel : relation)
    (row : list (nat * Q)) : result (list (entity * Q)) :=
  match row with
  | [] => Ok []
  | (i, rank) :: row' =>
      keep ← (if Qlt_bool 0 rank then
                ent ← lookup_or KeyError (i2e !! i);
                pool ← lookup_or KeyError (scope !! rel);
                Ok (member ent pool)
              else Ok false);
      rest ← ppr_candidates i2e scope rel row';
      if keep : bool then
        ent ← lookup_or KeyError (i2e !! i);
        Ok ((ent, rank) :: rest)
      else Ok rest
  end.

(** [probs = np.array([c[1] for c in cands]); probs /= probs.sum()] *)
Definition normalise (cands : list (entity * Q)) : list Q :=
  let probs := cands.*2 in
  let total := PPR.Qsum probs in
  (fun x => x / total)%Q <$> probs.

(** [[cands[ids[i]][0] for i in range(number_negatives)]] *)
Fixpoint pick (cands : list (entity * Q)) (ids : list nat)
  : result (list entity) :=
  match ids with
  | [] => Ok []
  | i :: ids' =>
      c ← lookup_or IndexError (cands !! i);
      rest ← pick cands ids';
      Ok (c.1 :: rest)
  end.

Definition generate_negatives_PPR (g : generator) (positive : edge)
    (number_negatives : nat) (r : rng) : result (list edge * rng) :=
  let rel := edge_rel positive in
  rk ← lookup_or AttributeError (ranks g);
  e2i ← lookup_or AttributeError (etoint g);
  si ← lookup_or KeyError (e2i !! edge_source positive);
  source_ranks ← lookup_or IndexError (rk !! si);
  ti ← lookup_or KeyError (e2i !! edge_target positive);
  target_ranks ← lookup_or IndexError (rk !! ti);
  i2e ← lookup_or AttributeError (inttoe g);
  sources ← ppr_candidates i2e (domains g) rel (PPR.enumerate source_ranks);
  targets ← ppr_candidates i2e (ranges g) rel (PPR.enumerate target_ranks);
  let sources_probs := normalise sources in
  let targets_probs := normalise targets in
  ids_s ← np_choice sources_probs number_negatives r;
  ids_t ← np_choice targets_probs number_negatives ids_s.2;
  new_sources ← pick sources ids_s.1;
  new_targets ← pick targets ids_t.1;
  Ok ((fun st : entity * entity => (rel, st.1, st.2))
        <$> zip new_sources new_targets, ids_t.2).

(** *** [generate_negatives_random] *)

(** The pool that replaces the candidates after more than ten attempts. *)
Definition flat_pool (g : generator) (keep_dom_ran : bool)
    (scope : gmap relation (list entity)) (rel : relation)
  : result (list entity) :=
  if keep_dom_ran then lookup_or KeyError (scope !! rel)
  else Ok (entities g).*1.

(** The [while] loop that looks for a new source (or target).  It returns
    the value found ([None] as in the code), the candidates, which stay
    replaced for the next negatives, and the random source. *)
Fixpoint find_new (fuel : nat) (g : generator) (keep_dom_ran : bool)
    (scope : gmap relation (list entity)) (rel : relation)
    (original : entity) (candidates : list entity) (attempts : nat)
    (r : rng) : result (option entity * list entity * rng) :=
  if bool_decide (1 < length candidates ∧ attempts ≤ 20)%nat then
    match fuel with
    | O => Raise OutOfFuel
    | S fuel' =>
        candidates ← (if bool_decide (10 < attempts)%nat
                      then flat_pool g keep_dom_ran scope rel
                      else Ok candidates);
        let attempts := S attempts in
        x ← sample1 candidates r;
        if bool_decide (x.1 ≠ original)
        then Ok (Some x.1, candidates, x.2)
        else find_new fuel' g keep_dom_ran scope rel original candidates
               attempts x.2
    end
  else Ok (None, candidates, r).

(** The candidates computed before the loop; a variable that the code
    leaves unbound is never read and is the empty list here. *)
Definition initial_candidates (g : generator) (rel : relation)
    (keep_dom_ran change equal_probabilities : bool)
    (component : entity * entity -> entity) (component' : edge -> entity)
    (scope : gmap relation (list entity)) : result (list entity) :=
  c ← (if change then
         if keep_dom_ran then
           pairs ← lookup_or KeyError (dict_get rel (grouped_edges g));
           Ok (component <$> pairs)
         else Ok (component' <$> edges g)
       else Ok []);
  if equal_probabilities && change
  then lookup_or KeyError (scope !! rel)
  else Ok c.

Fixpoint random_loop (g : generator) (positive : edge)
    (number_negatives : nat) (keep_dom_ran change_source change_target : bool)
    (candidates_source candidates_target : list entity)
    (negatives : list edge) (r : rng) : result (list edge * rng) :=
  match number_negatives with
  | O => Ok (negatives, r)
  | S number_negatives' =>
      let rel := edge_rel positive in
      s ← (if change_source
           then find_new 21 g keep_dom_ran (domains g) rel
                  (edge_source positive) candidates_source 0 r
           else Ok (Some (edge_source positive), candidates_source, r));
      let '(source, candidates_source, r) := s in
      t ← (if change_target
           then find_new 21 g keep_dom_ran (ranges g) rel
                  (edge_target positive) candidates_target 0 r
           else Ok (Some (edge_target positive), candidates_target, r));
      let '(target, candidates_target, r) := t in
      let negatives :=
        match source, target with
        | Some s, Some t => negatives ++ [(rel, s, t)]
        | _, _ => negatives
        end in
      random_loop g positive number_negatives' keep_dom_ran change_source
        change_target candidates_source candidates_target negatives r
  end.

Definition generate_negatives_random (g : generator) (positive : edge)
    (number_negatives : nat)
    (keep_dom_ran change_source change_target equal_probabilities : bool)
    (r : rng) : result (list edge * rng) :=
  let rel := edge_rel positive in
  (* with the whole graph as scope, the code reads components 0 and 1 of
     the edge triples *)
  candidates_source ←
    initial_candidates g rel keep_dom_ran change_source equal_probabilities
      fst edge_rel (domains g);
  candidates_target ←
    initial_candidates g rel keep_dom_ran change_target equal_probabilities
      snd edge_source (ranges g);
  random_loop g positive number_negatives keep_dom_ran change_source
    change_target candidates_source candidates_target [] r.

(** *** [generate_negatives] *)

(** [while random() < factor_copy: factor_copy -= 1.0; num_negatives += 1] *)
Fixpoint count_negatives (fuel : nat) (factor_copy : Q) (num_negatives : nat)
    (r : rng) : result (nat * rng) :=
  let (u, r') := random r in
  if Qlt_bool u factor_copy then
    match fuel with
    | O => Raise OutOfFuel
    | S fuel' =>
        count_negatives fuel' (factor_copy - 1)%Q (S num_negatives) r'
    end
  else Ok (num_negatives, r').

Definition draw_num_negatives (negatives_factor : Q) (r : rng)
  : result (nat * rng) :=
  count_negatives (Z.to_nat (Qceiling negatives_factor)) negatives_factor
    0 r.

(** The chain of tests on the strategy name; [None] when no branch is
    taken, which leaves [new_negatives] as it was. *)
Definition dispatch (g : generator) (strategy : string) (positive : edge)
    (num_negatives : nat) (r : rng) : option (result (list edge * rng)) :=
  if decide (strategy = "change_source") then
    Some (generate_negatives_random g positive num_negatives
            true true false false r)
  else if decide (strategy = "change_target") then
    Some (generate_negatives_random g positive num_negatives
            true false true false r)
  else if decide (strategy = "change_both") then
    Some (generate_negatives_random g positive num_negatives
            true true true false r)
  else if decide (strategy = "change_source_random") then
    Some (generate_negatives_random g positive num_negatives
            false true false false r)
  else if decide (strategy = "change_target_random") then
    Some (generate_negatives_random g positive num_negatives
            false false true false r)
  else if decide (strategy = "change_both_random") then
    Some (generate_negatives_random g positive num_negatives
            false true true false r)
  else if decide (strategy = "PPR") then
    Some (generate_negatives_PPR g positive num_negatives r)
  else None.

(** The state of the loop over the positives: the negatives so far, the
    ignored relations, the local variable [new_negatives] ([None] while
    unbound) and the random source. *)
Definition loop_state : Type :=
  list edge * list relation * option (list edge) * rng.

Fixpoint negatives_loop (g : generator) (negatives_factor : Q)
    (strategy : string) (reject_rel_after_failure : bool)
    (positives : list edge) (st : loop_state) : result loop_state :=
  match positives with
  | [] => Ok st
  | positive :: rest =>
      let '(negatives, ignored, new_negatives, r) := st in
      if bool_decide (edge_rel positive ∈ ignored)
      then negatives_loop g negatives_factor strategy
             reject_rel_after_failure rest st
      else
        n ← draw_num_negatives negatives_factor r;
        b ← match dispatch (set_ignored g ignored) strategy positive
                    n.1 n.2 with
            | Some m => x ← m; Ok (Some x.1, x.2)
            | None => Ok (new_negatives, n.2)
            end;
        new ← lookup_or UnboundLocalError b.1;
        let st' :=
          if bool_decide (0 < length new)%nat
          then (negatives ++ new, ignored, b.1, b.2)
          else if reject_rel_after_failure
               then (negatives, set_add (edge_rel positive) ignored,
                     b.1, b.2)
               else (negatives, ignored, b.1, b.2) in
        negatives_loop g negatives_factor strategy
          reject_rel_after_failure rest st'
  end.

Definition get_bucket (sp : split) (tt : train_test) : bucket :=
  match tt with Train => train sp | Test => test sp end.

Definition set_bucket (sp : split) (tt : train_test) (b : bucket) : split :=
  match tt with
  | Train => {| train := b; test := test sp |}
  | Test => {| train := train sp; test := b |}
  end.

(** [self.graphs[split][train_test]["negative"] = v] *)
Definition set_negative (g : generator) (i : nat) (tt : train_test)
    (v : list edge) : result generator :=
  sp ← lookup_or KeyError (graphs g !! i);
  let b := get_bucket sp tt in
  Ok (set_graphs g
        (<[i := set_bucket sp tt
                  {| positive := positive b; negative := Some v |}]>
           (graphs g))).

Definition generate_negatives (g : generator) (i : nat) (tt : train_test)
    (negatives_factor : Q) (strategy : string)
    (clean_before reject_rel_after_failure : bool) (r : rng)
  : result (generator * rng) :=
  sp ← lookup_or KeyError (graphs g !! i);
  let positives := positive (get_bucket sp tt) in
  g ← (if clean_before then set_negative g i tt [] else Ok g);
  st ← negatives_loop g negatives_factor strategy reject_rel_after_failure
         positives ([], ignored_rels_positives g, None, r);
  let '(negatives, ignored, _, r') := st in
  g ← set_negative (set_ignored g ignored) i tt negatives;
  Ok (g, r').

End Negatives.

(** ** The script: the configuration (lines 44 to 68), [export_files]
       (lines 676 to 711) and [main] (lines 713 to 725) *)

Module Main.

Record config : Type := Config {
  GRAPH_FRACTION : Q;
  GENERATE_NEGATIVES_TRAINING : bool;
  REMOVE_INVERSES : bool;
  MIN_NUM_REL : Z;
  REACH_FRACTION : Q;
  TESTING_FRACTION : Q;
  NUMBER_NEGATIVES : Q;
  NEGATIVES_STRATEGY : string;
  COMPUTE_PPR : bool
}.

(** The values written in the script. *)
Definition default_config : config :=
  {| GRAPH_FRACTION := 2 # 10;
     GENERATE_NEGATIVES_TRAINING := true;
     REMOVE_INVERSES := true;
     MIN_NUM_REL := 2;
     REACH_FRACTION := 95 # 100;
     TESTING_FRACTION := 2 # 10;
     NUMBER_NEGATIVES := 1;
     NEGATIVES_STRATEGY := "change_target";
     COMPUTE_PPR := false |}.

(** A line of [train.txt] or [test.txt]: source, relation, target and
    the label. *)
Definition record : Type := entity * relation * entity * Z.

Definition labelled (label : Z) (e : edge) : record :=
  (edge_source e, edge_rel e, edge_target e, label).

(** The lines that [export_files] writes to [train.txt] and [test.txt]. *)
Definition export_files (g : generator) (i : nat)
    (include_train_negatives : bool)
  : result (list record * list record) :=
  sp ← lookup_or KeyError (graphs g !! i);
  train_neg ← (if include_train_negatives
               then lookup_or KeyError (negative (train sp))
               else Ok []);
  test_neg ← lookup_or KeyError (negative (test sp));
  Ok ((labelled 1 <$> positive (train sp)) ++ (labelled (-1) <$> train_neg),
      (labelled 1 <$> positive (test sp)) ++ (labelled (-1) <$> test_neg)).

(** The phases of [main] up to the split. *)
Definition prepare (cfg : config) (lines : list (entity * relation * entity))
    (fresh : nat -> nat -> Q) (r : rng) : result (generator * rng) :=
  let (input, r) := Reader.read lines (GRAPH_FRACTION cfg) r in
  g ← Preprocess.read (init 1) input (MIN_NUM_REL cfg) (REACH_FRACTION cfg)
        (REMOVE_INVERSES cfg);
  g ← (if COMPUTE_PPR cfg
       then PPR.compute_PPR g (Some 5) (2 # 100) fresh
       else Ok g);
  g ← Splitter.split_graph g (TESTING_FRACTION cfg) ∅;
  Ok (g, r).

Definition main (cfg : config) (lines : list (entity * relation * entity))
    (fresh : nat -> nat -> Q) (r : rng)
  : result (generator * (list record * list record)) :=
  p ← prepare cfg lines fresh r;
  t ← Negatives.generate_negatives p.1 0 Test (NUMBER_NEGATIVES cfg)
        (NEGATIVES_STRATEGY cfg) true false p.2;
  t ← (if GENERATE_NEGATIVES_TRAINING cfg
       then Negatives.generate_negatives t.1 0 Train (NUMBER_NEGATIVES cfg)
              (NEGATIVES_STRATEGY cfg) true false t.2
       else Ok t);
  files ← export_files t.1 0 true;
  Ok (t.1, files).

End Main.

Import Splitter Preprocess PPR Negatives.

(** * The vocabulary of the statements *)

(** The edge [e] lies in the circular window of [nt] edges of [es] that
    starts at the index [off], indices taken modulo the length of [es]. *)
Definition window (es : list edge) (off nt : Z) (e : edge) : Prop :=
  ∃ x, 0 ≤ x < nt ∧
       es !! Z.to_nat ((off + x) `mod` Z.of_nat (length es)) = Some e.

(** The grouped edges are in step with the edge set: every relation has
    its set of (source, target) pairs, without duplicates, and the pairs are
    the edges of the relation. *)
Definition grouped_ok (g : generator) : Prop :=
  ∀ rel, rel ∈ relations g →
    ∃ pairs, dict_get rel (grouped_edges g) = Some pairs ∧ NoDup pairs ∧
             ∀ s t, (s, t) ∈ pairs ↔ (rel, s, t) ∈ edges g.

(** Every edge [(s, t)] of the first relation has the edge [(t, s)] in the
    second. *)
Definition mirror (edges1 edges2 : list (entity * entity)) : Prop :=
  ∀ s t, (s, t) ∈ edges1 → (t, s) ∈ edges2.

(** The two relations mirror each other in both directions. *)
Definition full_mirror (edges1 edges2 : list (entity * entity)) : Prop :=
  mirror edges1 edges2 ∧ mirror edges2 edges1.

(** The (source, target) pairs of a relation, [self.grouped_edges[rel]]. *)
Definition edges_of_rel (g : generator) (rel : relation)
  : list (entity * entity) :=
  default [] (dict_get rel (grouped_edges g)).

(** Every relation is a key of [grouped_edges]. *)
Definition all_grouped (g : generator) : Prop :=
  ∀ rel, rel ∈ relations g → is_Some (dict_get rel (grouped_edges g)).

(** The test of [find_inverses] succeeds on the pair [p]. *)
Definition flagged (ge : list (relation * list (entity * entity)))
    (p : relation * relation) : Prop :=
  is_inverse (default [] (dict_get p.1 ge)) (default [] (dict_get p.2 ge))
  = true.

(** The sum of the sizes of the grouped edge sets. *)
Definition grouped_total (ge : list (relation * list (entity * entity))) : nat :=
  sum_list_with (fun kv => length kv.2) ge.

(** The invariant of the loop of [group_edges] after the edges [done]. *)
Record grouped_inv (done : list edge)
    (ge : list (relation * list (entity * entity))) : Prop := {
  gi_keys : NoDup ge.*1;
  gi_sets : ∀ rel insts, dict_get rel ge = Some insts →
      NoDup insts ∧ insts ≠ [] ∧
      ∀ s t, (s, t) ∈ insts ↔ (rel, s, t) ∈ done;
  gi_dom : ∀ e, e ∈ done → is_Some (dict_get (edge_rel e) ge);
  gi_total : grouped_total ge = length done
}.

(** The effect of one round of the loop of [group_edges] on
    [grouped_edges]. *)
Definition ge_step (ge : list (relation * list (entity * entity))) (e : edge)
  : list (relation * list (entity * entity)) :=
  group_add (edge_rel e) (edge_source e, edge_target e)
    (ensure_group (edge_rel e) ge).


(** The running sum after the relations of [l], started at [a]. *)
Definition coverage_from (total : nat) (a : Q) (l : list (relation * nat)) : Q :=
  foldl (fun a x =>
           (a + inject_Z (Z.of_nat x.2) / inject_Z (Z.of_nat total))%Q) a l.


(** What a reader returns: two sets, and every edge carries a relation of
    the relation set. *)
Definition input_ok (input : Reader.output) : Prop :=
  NoDup input.1.2 ∧ NoDup input.2 ∧
  ∀ e, e ∈ input.2 → edge_rel e ∈ input.1.2.

(** The random source after [n] more draws. *)
Definition advance (r : rng) (n : nat) : rng :=
  {| tape := tape r; cursor := (cursor r + n)%nat |}.

(** The value of the [k]-th call of [random()] from [r] on, counted from 0. *)
Definition uniform_at (r : rng) (k : nat) : Q := (random (advance r k)).1.

(** A negative of [positive] whose changed components differ from it. *)
Definition corrupts (change_source change_target : bool) (positive e : edge)
  : Prop :=
  edge_rel e = edge_rel positive ∧
  (if change_source then edge_source e ≠ edge_source positive
   else edge_source e = edge_source positive) ∧
  (if change_target then edge_target e ≠ edge_target positive
   else edge_target e = edge_target positive).

(** The generator with the negatives of a bucket replaced by [old] ([None]:
    no negatives were generated yet). *)
Definition replace_negative (g : generator) (i : nat) (tt : train_test)
    (old : option (list edge)) : generator :=
  match graphs g !! i with
  | Some sp =>
      set_graphs g
        (<[i := set_bucket sp tt
                  {| positive := positive (get_bucket sp tt);
                     negative := old |}]> (graphs g))
  | None => g
  end.

(** A random source whose raw draws are all 0. *)
Definition rng0 : rng := {| tape := fun _ => 0%N; cursor := 0 |}.

(** A fresh buffer that happens to hold zeros. *)
Definition zeros : nat -> nat -> Q := fun _ _ => 0%Q.

(** The preprocessed graph of a list of lines, every line kept. *)
Definition graph_of (lines : list (entity * relation * entity))
  : result generator :=
  Preprocess.read (init 1) (Reader.read lines 1 rng0).1 0 1 false.

(** The livesIn / bornIn scenario of the specification. *)
Definition scenario_lines : list (entity * relation * entity) :=
  [("A", "livesIn", "X"); ("B", "livesIn", "X"); ("X", "bornIn", "A")].

(** A graph with one edge; the entity [b] has no outward edge. *)
Definition one_edge : list (entity * relation * entity) := [("a", "r", "b")].

(** A run with the PPR strategy in which every edge is a test edge. *)
Definition ppr_config : Main.config :=
  {| Main.GRAPH_FRACTION := 1;
     Main.GENERATE_NEGATIVES_TRAINING := true;
     Main.REMOVE_INVERSES := true;
     Main.MIN_NUM_REL := 1;
     Main.REACH_FRACTION := 1;
     Main.TESTING_FRACTION := 1;
     Main.NUMBER_NEGATIVES := 1;
     Main.NEGATIVES_STRATEGY := "PPR";
     Main.COMPUTE_PPR := true |}.

(** A relation whose source [a] occurs twice. *)
Definition skewed : list (entity * relation * entity) :=
  [("a", "r", "b"); ("a", "r", "d"); ("c", "r", "b")].

(** A tape whose draws are all 0, except the draw number [k] (from 0),
    which is 2. *)
Definition tape_with (k : nat) : rng :=
  {| tape := fun i => if decide (i = k) then 2%N else 0%N; cursor := 0 |}.

(** The strategy names that [generate_negatives] tests for. *)
Definition recognized (strategy : string) : Prop :=
  strategy ∈ ["change_source"; "change_target"; "change_both";
              "change_source_random"; "change_target_random";
              "change_both_random"; "PPR"].



(** A configuration that keeps every line and every relation. *)
Definition run_config (factor : Q) (fraction : Q) (strategy : string)
  : Main.config :=
  {| Main.GRAPH_FRACTION := 1;
     Main.GENERATE_NEGATIVES_TRAINING := true;
     Main.REMOVE_INVERSES := true;
     Main.MIN_NUM_REL := 1;
     Main.REACH_FRACTION := 1;
     Main.TESTING_FRACTION := fraction;
     Main.NUMBER_NEGATIVES := factor;
     Main.NEGATIVES_STRATEGY := strategy;
     Main.COMPUTE_PPR := false |}.

(** The friendOf scenario of the specification: ten edges. *)
Definition friend_lines : list (entity * relation * entity) :=
  [("e0", "friendOf", "f0"); ("e1", "friendOf", "f1");
   ("e2", "friendOf", "f2"); ("e3", "friendOf", "f3");
   ("e4", "friendOf", "f4"); ("e5", "friendOf", "f5");
   ("e6", "friendOf", "f6"); ("e7", "friendOf", "f7");
   ("e8", "friendOf", "f8"); ("e9", "friendOf", "f9")].

(** The spouseOf scenario of the specification. *)
Definition spouse_lines : list (entity * relation * entity) :=
  [("A", "spouseOf", "B"); ("B", "spouseOf", "A")].

(** The lines that the reader keeps: the line number [k] is kept when the
    [k]-th draw from [r] on is below [prob]. *)
Fixpoint kept_lines (r : rng) (k : nat) (prob : Q)
    (lines : list (entity * relation * entity))
  : list (entity * relation * entity) :=
  match lines with
  | [] => []
  | line :: lines' =>
      if Qlt_bool (uniform_at r k) prob
      then line :: kept_lines r (S k) prob lines'
      else kept_lines r (S k) prob lines'
  end.

(** The number of lines with the source (the target) [e]. *)
Definition count_out (ks : list (entity * relation * entity)) (e : entity)
  : nat :=
  length (filter (fun l : entity * relation * entity => l.1.1 = e) ks).

Definition count_in (ks : list (entity * relation * entity)) (e : entity)
  : nat :=
  length (filter (fun l : entity * relation * entity => l.2 = e) ks).

(** The reader's tables after the lines [ks], all of them kept. *)
Definition read_all (ks : list (entity * relation * entity)) : Reader.output :=
  foldl (fun acc line => Reader.add_triple line acc) ([], [], []) ks.

(** The entry of the entity [e] after the lines [ks]. *)
Definition entry (ks : list (entity * relation * entity)) (e : entity)
  : option degrees :=
  if decide (count_out ks e + count_in ks e = 0)%nat then None
  else Some {| degree := count_out ks e + count_in ks e;
               out_degree := count_out ks e;
               in_degree := count_in ks e |}.

(** The effect of one round of the loop of [group_edges] on [domains]
    ([proj] is the source) and on [ranges] ([proj] is the target). *)
Definition scope_step (proj : edge → entity) (m : gmap relation (list entity))
    (e : edge) : gmap relation (list entity) :=
  alter (set_add (proj e)) (edge_rel e) (ensure_key (edge_rel e) m).

(** The edges of the relation [rel], in the order of the edge set. *)
Definition edges_with_rel (rel : relation) (es : list edge) : list edge :=
  filter (fun e => edge_rel e = rel) es.

(** What [read] maintains from the pruning on: the relations are relations
    of the input, each with all of its edges and with at least
    [min_num_rel] of them, and the grouped edges are those of the
    relations. *)
Record kept_ok (input : Reader.output) (min_num_rel : Z) (g : generator)
  : Prop := {
  ko_rels_nodup : NoDup (relations g);
  ko_rels : ∀ rel, rel ∈ relations g → rel ∈ input.1.2;
  ko_edges_nodup : NoDup (edges g);
  ko_edges : ∀ e, e ∈ edges g ↔ e ∈ input.2 ∧ edge_rel e ∈ relations g;
  ko_groups : ∀ rel, rel ∈ relations g →
    ∃ pairs, dict_get rel (grouped_edges g) = Some pairs ∧
             NoDup pairs ∧ pairs ≠ [] ∧
             min_num_rel ≤ Z.of_nat (length pairs) ∧
             ∀ s t, (s, t) ∈ pairs ↔ (rel, s, t) ∈ input.2;
  ko_keys : ∀ rel, is_Some (dict_get rel (grouped_edges g)) →
                   rel ∈ relations g;
  ko_entities : entities g = input.1.1
}.

(** The pairs of [combs] on which the test of [find_inverses] succeeds, in
    the order of [combs]. *)
Definition flagged_pairs (ge : list (relation * list (entity * entity)))
    (combs : list (relation * relation)) : list (relation * relation) :=
  filter (fun p : relation * relation =>
            is_inverse (default [] (dict_get p.1 ge))
              (default [] (dict_get p.2 ge)) = true) combs.

(** The number of edges of [es] with the target [t]. *)
Definition count_to (es : list edge) (t : entity) : nat :=
  length (filter (fun e => edge_target e = t) es).

(** Every row of [m] exists and has [n] entries. *)
Definition square (n : nat) (m : matrix) : Prop :=
  length m = n ∧ Forall (fun row : list Q => length row = n) m.

(** The candidates that [generate_negatives_random] starts from when it
    changes a component. *)
Definition initial_pool (g : generator) (rel : relation)
    (keep_dom_ran equal_probabilities : bool)
    (component : entity * entity → entity) (component' : edge → entity)
    (scope : gmap relation (list entity)) : list entity :=
  if equal_probabilities then default [] (scope !! rel)
  else if keep_dom_ran then component <$> edges_of_rel g rel
       else component' <$> edges g.

(** The candidates that replace them after more than ten attempts. *)
Definition later_pool (g : generator) (keep_dom_ran : bool)
    (scope : gmap relation (list entity)) (rel : relation) : list entity :=
  if keep_dom_ran then default [] (scope !! rel) else (entities g).*1.

(** The candidates in use are the initial ones or the replacement pool. *)
Definition pool_inv (g : generator) (positive : edge) (keep_dom_ran : bool)
    (scope : gmap relation (list entity)) (c0 c : list entity)
  : Prop :=
  c = c0 ∨ flat_pool g keep_dom_ran scope (edge_rel positive) = Ok c.

(** A negative whose changed components differ from the positive and come
    from the pools. *)
Definition from_pools (g : generator) (positive : edge)
    (keep_dom_ran change_source change_target : bool)
    (cs0 ct0 : list entity) (e : edge) : Prop :=
  corrupts change_source change_target positive e ∧
  (change_source = true →
   edge_source e ∈ cs0 ∨
   ∃ pool, flat_pool g keep_dom_ran (domains g) (edge_rel positive) = Ok pool ∧
           edge_source e ∈ pool) ∧
  (change_target = true →
   edge_target e ∈ ct0 ∨
   ∃ pool, flat_pool g keep_dom_ran (ranges g) (edge_rel positive) = Ok pool ∧
           edge_target e ∈ pool).

(** Every candidate differs from the original value. *)
Definition all_new (change : bool) (c0 : list entity) (original : entity)
  : Prop :=
  change = true ∧ ∀ x, x ∈ c0 → x ≠ original.



(** What the random strategies need from the generator: every relation has
    its grouped edges, a domain and a range that are not empty, and there
    are entities when there are relations. *)
Record ready (g : generator) : Prop := {
  rd_groups : ∀ rel, rel ∈ relations g →
    is_Some (dict_get rel (grouped_edges g));
  rd_domains : ∀ rel, rel ∈ relations g →
    ∃ ds, domains g !! rel = Some ds ∧ ds ≠ [];
  rd_ranges : ∀ rel, rel ∈ relations g →
    ∃ rs, ranges g !! rel = Some rs ∧ rs ≠ [];
  rd_entities : relations g ≠ [] → (entities g).*1 ≠ []
}.

(** * Proofs *)

(** ** Python containers *)

Section py_set_facts.

Context {A : Type} `{EqDecision A}.

Implicit Types (s xs : list A) (x y : A).

Lemma elem_of_set_add x y s : y ∈ set_add x s ↔ y = x ∨ y ∈ s.
Proof.
  unfold set_add. case_decide.
  - split; [tauto|]. intros [->|?]; done.
  - rewrite elem_of_app, list_elem_of_singleton. tauto.
Qed.

Lemma NoDup_set_add x s : NoDup s → NoDup (set_add x s).
Proof.
  intros Hs. unfold set_add. case_decide; [done|].
  apply NoDup_app. split_and!; [done| |apply NoDup_singleton].
  intros z Hz ->%list_elem_of_singleton. done.
Qed.

Lemma elem_of_set_update y s xs : y ∈ set_update s xs ↔ y ∈ s ∨ y ∈ xs.
Proof.
  unfold set_update. revert s.
  induction xs as [|x xs IH]; intros s; simpl.
  - rewrite elem_of_nil. tauto.
  - rewrite IH, elem_of_set_add, elem_of_cons. tauto.
Qed.

Lemma NoDup_set_update s xs : NoDup s → NoDup (set_update s xs).
Proof.
  unfold set_update. revert s.
  induction xs as [|x xs IH]; intros s Hs; simpl; [done|].
  apply IH, NoDup_set_add, Hs.
Qed.

End py_set_facts.

Section py_dict_facts.

Context {K V : Type} `{EqDecision K}.

Implicit Types (d : list (K * V)) (k : K) (v : V).

Lemma dict_get_None k d : dict_get k d = None ↔ k ∉ d.*1.
Proof.
  induction d as [|[k' v'] d IH]; simpl.
  - split; [intros _ []%elem_of_nil|done].
  - case_decide as Hk.
    + split; [done|]. intros Hn. exfalso. apply Hn. subst. left.
    + rewrite IH, not_elem_of_cons. split; [|by intros [_ ?]].
      intros Hd. split; [congruence|done].
Qed.

Lemma dict_get_Some_elem k v d : dict_get k d = Some v → (k, v) ∈ d.
Proof.
  induction d as [|[k' v'] d IH]; simpl; [done|].
  case_decide as Hk.
  - intros [= ->]. subst. left.
  - intros ?. right. by apply IH.
Qed.

Lemma dict_get_elem_NoDup k v d :
  NoDup d.*1 → (k, v) ∈ d → dict_get k d = Some v.
Proof.
  induction d as [|[k' v'] d IH]; simpl; [by intros _ ?%elem_of_nil|].
  intros [Hk' Hd]%NoDup_cons [[= -> ->]|Hin]%elem_of_cons.
  - by rewrite decide_True.
  - rewrite decide_False; [by apply IH|].
    intros ->. apply Hk', list_elem_of_fmap. by exists (k, v).
Qed.

Lemma dict_get_is_Some k d : is_Some (dict_get k d) ↔ k ∈ d.*1.
Proof.
  rewrite <- not_eq_None_Some, dict_get_None.
  destruct (decide (k ∈ d.*1)); tauto.
Qed.

(** The shape of [d] after [d[k] = v]. *)
Lemma dict_set_shape k v d :
  match dict_get k d with
  | Some old => ∃ d1 d2, d = d1 ++ (k, old) :: d2 ∧ (k ∉ d1.*1) ∧
                         dict_set k v d = d1 ++ (k, v) :: d2
  | None => dict_set k v d = d ++ [(k, v)]
  end.
Proof.
  induction d as [|[k' v'] d IH]; simpl; [done|].
  case_decide as Hk.
  - subst. exists [], d. split_and!; [done| |done]. by intros ?%elem_of_nil.
  - destruct (dict_get k d) as [old|].
    + destruct IH as (d1 & d2 & -> & Hd1 & ->).
      exists ((k', v') :: d1), d2. split_and!; [done| |done].
      simpl. by apply not_elem_of_cons.
    + by rewrite IH.
Qed.

Lemma dict_get_set_eq k v d : dict_get k (dict_set k v d) = Some v.
Proof.
  induction d as [|[k' v'] d IH]; simpl.
  - by rewrite decide_True.
  - case_decide as Hk; simpl.
    + by rewrite decide_True.
    + by rewrite decide_False.
Qed.

Lemma dict_get_set_ne k k' v d :
  k ≠ k' → dict_get k' (dict_set k v d) = dict_get k' d.
Proof.
  intros Hne. induction d as [|[k0 v0] d IH]; simpl.
  - by rewrite decide_False.
  - case_decide as Hk; simpl.
    + subst. by rewrite !decide_False.
    + case_decide; [done|apply IH].
Qed.

Lemma dict_set_keys k v d :
  (dict_set k v d).*1 = if decide (k ∈ d.*1) then d.*1 else d.*1 ++ [k].
Proof.
  pose proof (dict_set_shape k v d) as Hs.
  destruct (dict_get k d) as [old|] eqn:Hget.
  - destruct Hs as (d1 & d2 & -> & _ & ->).
    rewrite decide_True; [by rewrite !fmap_app|].
    rewrite fmap_app, elem_of_app. right. left.
  - rewrite Hs. apply dict_get_None in Hget.
    rewrite decide_False by done. by rewrite fmap_app.
Qed.

Lemma dict_pop_get_ne k k' d :
  k ≠ k' → dict_get k' (dict_pop k d) = dict_get k' d.
Proof.
  intros Hne. unfold dict_pop. induction d as [|[k0 v0] d IH]; [done|].
  rewrite filter_cons. simpl. destruct (decide (k0 ≠ k)) as [Hk|Hk]; simpl.
  - case_decide; [done|apply IH].
  - apply dec_stable in Hk. subst. by rewrite decide_False.
Qed.

End py_dict_facts.

(** ** Splitting *)

Lemma elem_of_py_range a b x : x ∈ py_range a b ↔ a ≤ x < b.
Proof.
  unfold py_range. rewrite list_elem_of_fmap. split.
  - intros (k & -> & Hk%elem_of_seq). lia.
  - intros Hx. exists (Z.to_nat (x - a)). split; [lia|].
    apply elem_of_seq. lia.
Qed.

Lemma take_ids_spec es l :
  (∀ id, id ∈ l → 0 ≤ id < Z.of_nat (length es)) →
  ∃ r, take_ids es l = Ok r ∧
       ∀ e, e ∈ r ↔ ∃ id, id ∈ l ∧ es !! Z.to_nat id = Some e.
Proof.
  induction l as [|id l IH]; intros Hl; simpl.
  - exists []. split; [done|]. intros e. rewrite elem_of_nil.
    split; [done|]. intros (id & Hid & _). by apply elem_of_nil in Hid.
  - destruct IH as (r & Hr & Hmem).
    { intros id' Hid'. apply Hl. by right. }
    destruct (lookup_lt_is_Some_2 es (Z.to_nat id)) as [e He].
    { specialize (Hl id (list_elem_of_here _ _)). lia. }
    rewrite He, Hr. simpl. exists (e :: r). split; [done|].
    intros e'. rewrite elem_of_cons, Hmem. split.
    + intros [->|(id' & Hid' & He')].
      * exists id. split; [left|done].
      * exists id'. split; [by right|done].
    + intros (id' & [->|Hid']%elem_of_cons & He').
      * left. congruence.
      * right. eauto.
Qed.

Lemma num_test_empty q : num_test 0 q = 0.
Proof.
  unfold num_test.
  rewrite (Qfloor_comp _ (inject_Z 0)); [apply Qfloor_Z|].
  apply Qmult_0_l.
Qed.

Lemma ids_bounds off n a b id :
  (0 < n)%nat → id ∈ ids off n a b → 0 ≤ id < Z.of_nat n.
Proof.
  intros Hn (x & -> & _)%list_elem_of_fmap.
  apply Z.mod_pos_bound. lia.
Qed.

Lemma elem_of_edges_of rel pairs e :
  e ∈ edges_of rel pairs ↔ edge_rel e = rel ∧ (edge_source e, edge_target e) ∈ pairs.
Proof.
  unfold edges_of. rewrite list_elem_of_fmap. split.
  - intros ([s t] & -> & Hst). done.
  - destruct e as [[r s] t]. unfold edge_rel, edge_source, edge_target. simpl.
    intros [-> Hst]. by exists (s, t).
Qed.

Lemma NoDup_edges_of rel pairs : NoDup pairs → NoDup (edges_of rel pairs).
Proof.
  intros Hp. apply NoDup_fmap_2; [|done].
  intros [s t] [s' t'] [= -> ->]. done.
Qed.

(** The per-relation step: the test list is the circular window, the train
    list is the rest. *)
Lemma split_relation_spec g ftr i rel pairs :
  dict_get rel (grouped_edges g) = Some pairs →
  NoDup pairs →
  let es := edges_of rel pairs in
  let off := offset (length es) (number_splits g) i in
  let nt := num_test (length es) (default 0%Q (ftr !! rel)) in
  ∃ te tr, split_relation g ftr i rel = Ok (te, tr) ∧
    (∀ e, e ∈ te ↔ window es off nt e) ∧
    (∀ e, e ∈ tr ↔ e ∈ es ∧ ¬ window es off nt e).
Proof.
  intros Hget Hnd es off nt. unfold split_relation. rewrite Hget. simpl.
  fold es. fold off. fold nt.
  assert (Hes : NoDup es) by by apply NoDup_edges_of.
  destruct (decide (length es = 0%nat)) as [Hz|Hnz].
  - assert (nt = 0) as Hnt by (unfold nt; rewrite Hz; apply num_test_empty).
    rewrite Hnt, Hz. simpl. exists [], []. split; [done|].
    apply nil_length_inv in Hz. rewrite Hz.
    split; intros e; rewrite elem_of_nil.
    + split; [done|]. intros (x & Hx & _). lia.
    + split; [done|]. intros [[] _].
  - destruct (take_ids_spec es (ids off (length es) 0 nt)) as (te & Hte & Hmte).
    { intros id Hid. eapply ids_bounds; [lia|done]. }
    destruct (take_ids_spec es (ids off (length es) nt (Z.of_nat (length es))))
      as (tr & Htr & Hmtr).
    { intros id Hid. eapply ids_bounds; [lia|done]. }
    rewrite Hte, Htr. simpl. exists te, tr. split; [done|].
    assert (Hwin : ∀ e, e ∈ te ↔ window es off nt e).
    { intros e. rewrite Hmte. unfold window, ids. split.
      - intros (id & (x & -> & Hx%elem_of_py_range)%list_elem_of_fmap & He). eauto.
      - intros (x & Hx & He). eexists. split; [|exact He].
        apply list_elem_of_fmap. exists x. split; [done|].
        by apply elem_of_py_range. }
    split; [done|].
    intros e. rewrite Hmtr. unfold ids. split.
    + intros (id & (x & -> & Hx%elem_of_py_range)%list_elem_of_fmap & He).
      split; [by eapply list_elem_of_lookup_2|].
      intros (y & Hy & He').
      pose proof (NoDup_lookup _ _ _ _ Hes He He') as Heq.
      apply Z2Nat.inj in Heq; try (apply Z.mod_pos_bound; lia).
      assert (Hm : (x - y) `mod` Z.of_nat (length es) = 0).
      { replace (x - y) with ((off + x) - (off + y)) by lia.
        rewrite Zminus_mod, Heq, Z.sub_diag. apply Z.mod_0_l. lia. }
      rewrite Z.mod_small in Hm by lia. lia.
    + intros [(j & Hj)%list_elem_of_lookup_1 Hnw].
      pose proof (lookup_lt_Some _ _ _ Hj) as Hlt.
      set (n := Z.of_nat (length es)) in *.
      set (x := (Z.of_nat j - off) `mod` n).
      assert (0 ≤ x < n) as Hx by (apply Z.mod_pos_bound; lia).
      assert (Hjx : (off + x) `mod` n = Z.of_nat j).
      { unfold x. rewrite Zplus_mod_idemp_r.
        replace (off + (Z.of_nat j - off)) with (Z.of_nat j) by lia.
        apply Z.mod_small. lia. }
      exists ((off + x) `mod` n). split.
      * apply list_elem_of_fmap. exists x. split; [done|].
        apply elem_of_py_range. split; [|lia].
        destruct (Z_lt_le_dec x nt) as [Hlt'|]; [|done].
        exfalso. apply Hnw. exists x. split; [lia|].
        fold n. rewrite Hjx, Nat2Z.id. done.
      * rewrite Hjx, Nat2Z.id. done.
Qed.

Lemma window_elem_of es off nt e : window es off nt e → e ∈ es.
Proof. intros (x & _ & He). by eapply list_elem_of_lookup_2. Qed.

Lemma grouped_ok_sets g :
  grouped_ok g →
  ∀ rel, rel ∈ relations g →
    ∃ pairs, dict_get rel (grouped_edges g) = Some pairs ∧ NoDup pairs.
Proof. intros Hok rel Hrel. destruct (Hok rel Hrel) as (p & ? & ? & _). eauto. Qed.

Lemma split_relations_spec g ftr i rels tr te :
  (∀ rel, rel ∈ rels →
     ∃ pairs, dict_get rel (grouped_edges g) = Some pairs ∧ NoDup pairs) →
  ∃ tr' te', split_relations g ftr i rels tr te = Ok (tr', te') ∧
    (∀ e, e ∈ te' ↔ e ∈ te ∨
       ∃ rel r, rel ∈ rels ∧ split_relation g ftr i rel = Ok r ∧ e ∈ r.1) ∧
    (∀ e, e ∈ tr' ↔ e ∈ tr ∨
       ∃ rel r, rel ∈ rels ∧ split_relation g ftr i rel = Ok r ∧ e ∈ r.2) ∧
    (NoDup tr → NoDup tr') ∧ (NoDup te → NoDup te').
Proof.
  revert tr te. induction rels as [|rel rels IH]; intros tr te Hok; simpl.
  - exists tr, te. split; [done|].
    split_and!; try done; intros e; (split; [by left|]);
      (intros [?|(r0 & r & Hin & _)]; [done|by apply elem_of_nil in Hin]).
  - destruct (Hok rel) as (pairs & Hget & Hnd); [by left|].
    destruct (split_relation_spec g ftr i rel pairs Hget Hnd)
      as (rte & rtr & Hsr & _).
    rewrite Hsr. simpl.
    destruct (IH (set_update tr rtr) (set_update te rte))
      as (tr' & te' & Hloop & Hte & Htr & Hndtr & Hndte).
    { intros r0 Hr0. apply Hok. by right. }
    exists tr', te'. split; [done|]. split_and!.
    + intros e. rewrite Hte, elem_of_set_update. split.
      * intros [[?|?]|(r0 & r & ? & ? & ?)]; [by left| |].
        -- right. exists rel, (rte, rtr). split_and!; [by left|done|done].
        -- right. exists r0, r. split_and!; [by right|done|done].
      * intros [?|(r0 & r & [->|?]%elem_of_cons & Hr & ?)]; [by left;left| |].
        -- rewrite Hsr in Hr. injection Hr as <-. by left; right.
        -- right. by exists r0, r.
    + intros e. rewrite Htr, elem_of_set_update. split.
      * intros [[?|?]|(r0 & r & ? & ? & ?)]; [by left| |].
        -- right. exists rel, (rte, rtr). split_and!; [by left|done|done].
        -- right. exists r0, r. split_and!; [by right|done|done].
      * intros [?|(r0 & r & [->|?]%elem_of_cons & Hr & ?)]; [by left;left| |].
        -- rewrite Hsr in Hr. injection Hr as <-. by left; right.
        -- right. by exists r0, r.
    + intros ?. by apply Hndtr, NoDup_set_update.
    + intros ?. by apply Hndte, NoDup_set_update.
Qed.

Lemma split_loop_spec g ftr ixs gr :
  (∀ rel, rel ∈ relations g →
     ∃ pairs, dict_get rel (grouped_edges g) = Some pairs ∧ NoDup pairs) →
  ∃ gr', split_loop g ftr ixs gr = Ok gr' ∧
    ∀ i, if decide (i ∈ ixs)
         then ∃ tr te,
           split_relations g ftr i (relations g) [] [] = Ok (tr, te) ∧
           gr' !! i = Some {| train := {| positive := tr; negative := None |};
                              test := {| positive := te; negative := None |} |}
         else gr' !! i = gr !! i.
Proof.
  intros Hok. revert gr. induction ixs as [|j ixs IH]; intros gr; cbn [split_loop].
  - exists gr. split; [done|]. intros i.
    destruct (decide (i ∈ [])) as [Hi|]; [|done].
    by apply elem_of_nil in Hi.
  - destruct (split_relations_spec g ftr j (relations g) [] [] Hok)
      as (tr & te & Hsr & _).
    rewrite Hsr. cbn [mbind result_bind fst snd].
    edestruct IH as (gr' & Hloop & Hgr'). exists gr'. split; [exact Hloop|].
    intros i. specialize (Hgr' i).
    destruct (decide (i ∈ ixs)) as [Hin|Hnin].
    + rewrite decide_True by by right. done.
    + destruct (decide (i = j)) as [->|Hne].
      * rewrite decide_True by by left. exists tr, te. split; [done|].
        rewrite Hgr'. apply lookup_insert_eq.
      * rewrite decide_False by (intros [?|?]%elem_of_cons; done).
        rewrite Hgr'. by apply lookup_insert_ne.
Qed.


Lemma split_graph_total g fraction_test fraction_test_relations :
  grouped_ok g →
  ∃ g', split_graph g fraction_test fraction_test_relations = Ok g'.
Proof.
  intros Hcons. pose proof (grouped_ok_sets g Hcons) as Hok.
  unfold split_graph.
  destruct (split_loop_spec g
              (fractions g fraction_test fraction_test_relations)
              (seq 0 (number_splits g)) (graphs g) Hok) as (gr' & -> & _).
  cbn [mbind result_bind]. eauto.
Qed.

(** ** Inverse detection *)

Lemma mirrored_spec edges1 edges2 :
  mirrored edges1 edges2 = true ↔ mirror edges1 edges2.
Proof.
  unfold mirrored, mirror. induction edges1 as [|[s t] l IH]; simpl.
  - split; [|done]. intros _ s t []%elem_of_nil.
  - rewrite andb_true_iff, bool_decide_eq_true, IH. split.
    + intros [Hst Hl] s' t' [[= -> ->]|Hin]%elem_of_cons; auto.
    + intros H. split; [apply H; left|intros s' t' Hin; apply H; by right].
Qed.

Lemma is_inverse_spec edges1 edges2 :
  is_inverse edges1 edges2 = true ↔ full_mirror edges1 edges2.
Proof.
  unfold is_inverse, full_mirror.
  by rewrite andb_true_iff, !mirrored_spec.
Qed.

Lemma full_mirror_sym edges1 edges2 :
  full_mirror edges1 edges2 → full_mirror edges2 edges1.
Proof. intros [? ?]. by split. Qed.

Section combinations.

Context {A : Type}.

Implicit Types (l : list A) (a b : A).

Lemma elem_of_combinations2_cons a b x l :
  (a, b) ∈ combinations2 (x :: l) ↔
  (a = x ∧ b ∈ l) ∨ (a, b) ∈ combinations2 l.
Proof.
  simpl. rewrite elem_of_app, list_elem_of_fmap. split.
  - intros [(y & [= -> ->] & Hy)|?]; [left|right]; done.
  - intros [[-> Hb]|?]; [left; by exists b|by right].
Qed.

Lemma combinations2_elem_of a b l :
  (a, b) ∈ combinations2 l → a ∈ l ∧ b ∈ l.
Proof.
  induction l as [|x l IH]; [by intros ?%elem_of_nil|].
  rewrite elem_of_combinations2_cons. intros [[-> Hb]|[? ?]%IH].
  - split; [left|by right].
  - split; by right.
Qed.

Lemma combinations2_distinct a b l :
  NoDup l → (a, b) ∈ combinations2 l → a ≠ b.
Proof.
  induction 1 as [|x l Hx Hl IH]; [by intros ?%elem_of_nil|].
  rewrite elem_of_combinations2_cons. intros [[-> Hb]|?]; [|by apply IH].
  intros ->. done.
Qed.

Lemma combinations2_total a b l :
  a ∈ l → b ∈ l → a ≠ b →
  (a, b) ∈ combinations2 l ∨ (b, a) ∈ combinations2 l.
Proof.
  induction l as [|x l IH]; [by intros ?%elem_of_nil|].
  rewrite !elem_of_combinations2_cons.
  intros [->|Ha]%elem_of_cons [->|Hb]%elem_of_cons Hne; try done.
  - left. by left.
  - right. by left.
  - destruct (IH Ha Hb Hne); [left|right]; by right.
Qed.

Lemma combinations2_one_order a b l :
  NoDup l → (a, b) ∈ combinations2 l → (b, a) ∉ combinations2 l.
Proof.
  induction 1 as [|x l Hx Hl IH]; [by intros ?%elem_of_nil|].
  rewrite !elem_of_combinations2_cons.
  intros [[-> Hb]|Hab] [[-> Ha]|Hba].
  - done.
  - by apply combinations2_elem_of in Hba as [_ ?].
  - by apply combinations2_elem_of in Hab as [_ ?].
  - by apply IH.
Qed.

End combinations.

Lemma inverse_loop_spec ge combs tuples invs :
  (∀ p, p ∈ combs → is_Some (dict_get p.1 ge) ∧ is_Some (dict_get p.2 ge)) →
  ∃ tuples' invs', inverse_loop ge combs tuples invs = Ok (tuples', invs') ∧
    (∀ p, p ∈ tuples' ↔ p ∈ tuples ∨ (p ∈ combs ∧ flagged ge p)) ∧
    (∀ r, r ∈ invs' ↔ r ∈ invs ∨ ∃ p, p ∈ combs ∧ flagged ge p ∧ p.2 = r).
Proof.
  revert tuples invs.
  induction combs as [|[c0 c1] combs IH]; intros tuples invs Hok;
    cbn [inverse_loop].
  - exists tuples, invs. split; [done|]. split.
    + intros p. split; [by left|]. intros [?|[Hin _]]; [done|].
      by apply elem_of_nil in Hin.
    + intros r. split; [by left|]. intros [?|(p & Hin & _)]; [done|].
      by apply elem_of_nil in Hin.
  - destruct (Hok (c0, c1)) as [[e1 H1] [e2 H2]]; [by left|]. simpl in H1, H2.
    cbn [fst snd]. rewrite H1, H2. cbn [lookup_or mbind result_bind].
    assert (Hfl : flagged ge (c0, c1) ↔ is_inverse e1 e2 = true).
    { unfold flagged. simpl. by rewrite H1, H2. }
    destruct (is_inverse e1 e2) eqn:Hinv.
    + destruct (IH (tuples ++ [(c0, c1)]) (set_add c1 invs))
        as (tuples' & invs' & Hloop & Htup & Hinvs).
      { intros p Hp. apply Hok. by right. }
      exists tuples', invs'. split; [done|]. split.
      * intros p. rewrite Htup, elem_of_app, list_elem_of_singleton, elem_of_cons.
        split.
        -- intros [[Hp | ->]|[Hp Hf]].
           ++ by left.
           ++ right. split; [by left|]. by apply Hfl.
           ++ right. split; [by right|done].
        -- intros [Hp|[[-> | Hp] Hf]].
           ++ by left; left.
           ++ by left; right.
           ++ by right.
      * intros r. rewrite Hinvs, elem_of_set_add. split.
        -- intros [[-> | Hr]|(p & Hp & Hf & <-)]; [|by left|].
           ++ right. exists (c0, c1). split_and!; [by left|by apply Hfl|done].
           ++ right. exists p. split_and!; [by right|done..].
        -- intros [Hr|(p & [-> | Hp]%elem_of_cons & Hf & <-)].
           ++ by left; right.
           ++ by left; left.
           ++ right. by exists p.
    + destruct (IH tuples invs) as (tuples' & invs' & Hloop & Htup & Hinvs).
      { intros p Hp. apply Hok. by right. }
      exists tuples', invs'. split; [done|]. split.
      * intros p. rewrite Htup, elem_of_cons. split.
        -- intros [Hp|[Hp Hf]]; [by left|]. right. split; [by right|done].
        -- intros [Hp|[[-> | Hp] Hf]]; [by left| |by right].
           apply Hfl in Hf. done.
      * intros r. rewrite Hinvs. split.
        -- intros [?|(p & Hp & Hf & <-)]; [by left|].
           right. exists p. split_and!; [by right|done..].
        -- intros [Hr|(p & [-> | Hp]%elem_of_cons & Hf & <-)]; [by left| |].
           ++ apply Hfl in Hf. done.
           ++ right. by exists p.
Qed.

(** C3.  After [find_inverses] on a generator with no pair recorded yet, the
    pair of [r1] and [r2] is recorded if and only if [r1] and [r2] are
    distinct relations and every edge [(s, t)] of each has the edge [(t, s)]
    in the other.  The pair is recorded in the order in which
    [combinations] yields it: [(r1, r2)] is in [inverse_tuples] exactly when
    [r1] comes before [r2] in the iteration over the relations and the two
    mirror each other.  No relation is recorded with itself, and a pair whose
    edges mirror in one direction only is not recorded. *)
Theorem find_inverses_pairs g :
  NoDup (relations g) →
  all_grouped g →
  inverse_tuples g = [] →
  ∃ g', find_inverses g = Ok g' ∧
    (∀ r1 r2,
       ((r1, r2) ∈ inverse_tuples g' ∨ (r2, r1) ∈ inverse_tuples g') ↔
       (r1 ≠ r2 ∧ r1 ∈ relations g ∧ r2 ∈ relations g ∧
        full_mirror (edges_of_rel g r1) (edges_of_rel g r2))) ∧
    (∀ r1 r2,
       (r1, r2) ∈ inverse_tuples g' ↔
       ((r1, r2) ∈ combinations2 (relations g) ∧
        full_mirror (edges_of_rel g r1) (edges_of_rel g r2))) ∧
    (∀ r, (r, r) ∉ inverse_tuples g') ∧
    (∀ r1 r2, ¬ mirror (edges_of_rel g r2) (edges_of_rel g r1) →
       ((r1, r2) ∉ inverse_tuples g') ∧ ((r2, r1) ∉ inverse_tuples g')).
Proof.
  intros Hnd Hall Hempty. unfold find_inverses.
  destruct (inverse_loop_spec (grouped_edges g) (combinations2 (relations g))
              (inverse_tuples g) (inverses g))
    as (tuples' & invs' & Hloop & Htup & _).
  { intros [a b] [Ha Hb]%combinations2_elem_of. split; by apply Hall. }
  rewrite Hloop. cbn [mbind result_bind]. eexists. split; [done|].
  cbn [inverse_tuples fst snd].
  assert (Hrec : ∀ r1 r2, (r1, r2) ∈ tuples' ↔
            (r1, r2) ∈ combinations2 (relations g) ∧
            full_mirror (edges_of_rel g r1) (edges_of_rel g r2)).
  { intros r1 r2. rewrite Htup, Hempty, elem_of_nil.
    unfold flagged. rewrite is_inverse_spec. simpl. unfold edges_of_rel. tauto. }
  assert (Hiff : ∀ r1 r2, ((r1, r2) ∈ tuples' ∨ (r2, r1) ∈ tuples') ↔
            (r1 ≠ r2 ∧ r1 ∈ relations g ∧ r2 ∈ relations g ∧
             full_mirror (edges_of_rel g r1) (edges_of_rel g r2))).
  { intros r1 r2. rewrite !Hrec. split.
    - intros [[Hc Hm]|[Hc Hm]].
      + pose proof (combinations2_distinct _ _ _ Hnd Hc).
        apply combinations2_elem_of in Hc as [? ?]. done.
      + pose proof (combinations2_distinct _ _ _ Hnd Hc).
        apply combinations2_elem_of in Hc as [? ?].
        split_and!; [done..|]. by apply full_mirror_sym.
    - intros (Hne & H1 & H2 & Hm).
      destruct (combinations2_total r1 r2 _ H1 H2 Hne); [left|right];
        (split; [done|]); [done|by apply full_mirror_sym]. }
  split_and!; [done|done| |].
  - intros r Hr. assert (r ≠ r) by (apply (Hiff r r); by left). done.
  - intros r1 r2 Hnm.
    assert (¬ ((r1, r2) ∈ tuples' ∨ (r2, r1) ∈ tuples')); [|tauto].
    rewrite Hiff. intros (_ & _ & _ & [_ ?]). done.
Qed.

(** ** Grouping the edges *)

Lemma foldl_group_step_grouped es ge doms rans :
  (foldl group_step (ge, doms, rans) es).1.1 = foldl ge_step ge es.
Proof.
  revert ge doms rans. induction es as [|[[rel s] t] es IH]; intros; [done|].
  simpl. apply IH.
Qed.

Lemma grouped_edges_load g input :
  grouped_edges (load g input) = foldl ge_step [] input.2.
Proof.
  destruct input as [[ents rels] es]. unfold load, group_edges. simpl.
  rewrite <- (foldl_group_step_grouped es [] ∅ ∅).
  by destruct (foldl group_step _ es) as [[? ?] ?].
Qed.

Lemma ge_step_eq ge e :
  ge_step ge e =
  dict_set (edge_rel e)
    (set_add (edge_source e, edge_target e)
       (default [] (dict_get (edge_rel e) ge))) ge.
Proof.
  unfold ge_step, ensure_group, group_add.
  destruct (dict_get (edge_rel e) ge) as [old|] eqn:Hget.
  - by rewrite Hget.
  - rewrite dict_get_set_eq. simpl.
    pose proof (dict_set_shape (edge_rel e) ([] : list (entity * entity)) ge) as H1.
    rewrite Hget in H1. rewrite H1. clear H1.
    pose proof (dict_set_shape (edge_rel e) (set_add (edge_source e, edge_target e) []) ge) as H2.
    rewrite Hget in H2. rewrite H2. clear H2.
    apply dict_get_None in Hget.
    induction ge as [|[k v] ge IH]; simpl.
    + by rewrite decide_True.
    + simpl in Hget. apply not_elem_of_cons in Hget as [Hk Hge].
      rewrite decide_False by done. f_equal. by apply IH.
Qed.

Lemma grouped_total_set k v ge :
  (grouped_total (dict_set k v ge) + length (default [] (dict_get k ge))
   = grouped_total ge + length v)%nat.
Proof.
  unfold grouped_total.
  pose proof (dict_set_shape k v ge) as Hs.
  destruct (dict_get k ge) as [old|] eqn:Hget.
  - destruct Hs as (d1 & d2 & -> & _ & ->).
    rewrite !sum_list_with_app. simpl. lia.
  - rewrite Hs, sum_list_with_app. simpl. lia.
Qed.

Lemma grouped_inv_step done ge e :
  grouped_inv done ge → e ∉ done → grouped_inv (done ++ [e]) (ge_step ge e).
Proof.
  intros [Hkeys Hsets Hdom Htot] Hnew. rewrite ge_step_eq.
  destruct e as [[rel s] t]. unfold edge_rel, edge_source, edge_target. simpl.
  set (old := default [] (dict_get rel ge)).
  assert (Hold : NoDup old ∧ ∀ s' t', (s', t') ∈ old ↔ (rel, s', t') ∈ done).
  { unfold old. destruct (dict_get rel ge) as [insts|] eqn:Hget; simpl.
    - destruct (Hsets _ _ Hget) as (? & _ & ?). done.
    - split; [apply NoDup_nil_2|]. intros s' t'. split; [by intros ?%elem_of_nil|].
      intros Hin. apply Hdom in Hin. unfold edge_rel in Hin. simpl in Hin.
      rewrite Hget in Hin. by destruct Hin. }
  destruct Hold as [Hnd Hmem].
  assert (Hfresh : (s, t) ∉ old) by (rewrite Hmem; done).
  assert (Hadd : set_add (s, t) old = old ++ [(s, t)]).
  { unfold set_add. by rewrite decide_False. }
  rewrite Hadd. split.
  - rewrite dict_set_keys. case_decide as Hin; [done|].
    apply NoDup_app. split_and!; [done| |apply NoDup_singleton].
    intros k Hk ->%list_elem_of_singleton. done.
  - intros r insts. destruct (decide (rel = r)) as [<-|Hne].
    + rewrite dict_get_set_eq. intros [= <-]. split_and!.
      * apply NoDup_app. split_and!; [done| |apply NoDup_singleton].
        intros st Hst ->%list_elem_of_singleton. done.
      * by destruct old.
      * intros s' t'. rewrite !elem_of_app, !list_elem_of_singleton, Hmem.
        split; (intros [?|[= -> ->]]; [by left|by right]).
    + rewrite dict_get_set_ne by done. intros Hget.
      destruct (Hsets _ _ Hget) as (? & ? & Hm). split_and!; [done..|].
      intros s' t'. rewrite Hm, elem_of_app, list_elem_of_singleton.
      split; [by left|]. intros [?|[= -> -> ->]]; done.
  - intros e [Hin| ->%list_elem_of_singleton]%elem_of_app.
    + destruct (decide (rel = edge_rel e)) as [<-|Hne].
      * rewrite dict_get_set_eq. done.
      * rewrite dict_get_set_ne by done. by apply Hdom.
    + unfold edge_rel. simpl. rewrite dict_get_set_eq. done.
  - pose proof (grouped_total_set rel (old ++ [(s, t)]) ge) as Hs.
    fold old in Hs. rewrite !length_app in *. simpl in *. lia.
Qed.

Lemma grouped_inv_foldl done ge es :
  grouped_inv done ge → NoDup (done ++ es) →
  grouped_inv (done ++ es) (foldl ge_step ge es).
Proof.
  revert done ge. induction es as [|e es IH]; intros done ge Hinv Hnd; simpl.
  - by rewrite app_nil_r.
  - replace (done ++ e :: es) with ((done ++ [e]) ++ es) in *
      by by rewrite <- app_assoc.
    apply IH; [|done]. apply grouped_inv_step; [done|].
    apply NoDup_app in Hnd as [Hnd _]. apply NoDup_app in Hnd as (_ & Hd & _).
    intros Hin. apply (Hd e Hin). left.
Qed.

Lemma grouped_inv_load g input :
  NoDup input.2 → grouped_inv input.2 (grouped_edges (load g input)).
Proof.
  intros Hnd. rewrite grouped_edges_load.
  apply (grouped_inv_foldl [] [] input.2); [|done].
  split; [apply NoDup_nil_2|done|by intros e ?%elem_of_nil|done].
Qed.




(** ** Sorting, accepting and removing *)

Lemma insert_desc_perm x l : insert_desc x l ≡ₚ x :: l.
Proof.
  induction l as [|y l IH]; simpl; [done|].
  case_decide; [|done]. rewrite IH. apply Permutation_swap.
Qed.

Lemma sort_desc_perm l : sort_desc l ≡ₚ l.
Proof.
  induction l as [|x l IH]; simpl; [done|].
  by rewrite insert_desc_perm, IH.
Qed.





Lemma accept_spec total reach cands a pre :
  ∃ k : nat,
    (k ≤ length cands)%nat ∧
    accept total reach cands a pre = pre ++ take k cands.*1 ∧
    (cands ≠ [] → 1 ≤ k)%nat ∧
    (∀ j : nat, (1 ≤ j < k)%nat →
       Qle_bool reach (coverage_from total a (take j cands)) = false) ∧
    (k = length cands ∨
     Qle_bool reach (coverage_from total a (take k cands)) = true).
Proof.
  revert a pre. induction cands as [|[rel amount] cands IH]; intros a pre.
  - exists 0%nat. simpl. rewrite app_nil_r. split_and!; try done; [lia|by left].
  - cbn [accept].
    set (a' := (a + inject_Z (Z.of_nat amount) / inject_Z (Z.of_nat total))%Q).
    destruct (Qle_bool reach a') eqn:Hreach.
    + exists 1%nat. simpl. split_and!; [lia|done|lia|lia|by right].
    + destruct (IH a' (pre ++ [rel])) as (k & Hk & Hacc & _ & Hbelow & Hstop).
      exists (S k). simpl. split_and!; [lia| |lia| |].
      * rewrite Hacc, <- app_assoc. done.
      * intros [|j] Hj; [lia|]. simpl.
        destruct j as [|j]; [by rewrite take_0|].
        apply Hbelow. lia.
      * destruct Hstop as [->|Hstop]; [by left|by right].
Qed.



(** *** Removing relations *)

Lemma filter_all {A} (P : A → Prop) `{∀ x, Decision (P x)} (l : list A) :
  (∀ x, x ∈ l → P x) → filter P l = l.
Proof.
  induction l as [|x l IH]; intros Hl; [done|].
  rewrite filter_cons, decide_True by (apply Hl; left).
  f_equal. apply IH. intros y Hy. apply Hl. by right.
Qed.

Lemma remove_loop_spec removed ge rels :
  NoDup removed →
  (∀ r, r ∈ removed → r ∈ rels) →
  remove_loop removed ge rels =
  Ok (filter (fun kv => kv.1 ∉ removed) ge, filter (fun r => r ∉ removed) rels).
Proof.
  revert ge rels. induction removed as [|r removed IH]; intros ge rels Hnd Hsub;
    cbn [remove_loop].
  - rewrite !filter_all; [done|intros x _ Hx..]; by apply elem_of_nil in Hx.
  - apply NoDup_cons in Hnd as [Hr Hnd].
    unfold set_remove. rewrite decide_True by (apply Hsub; left).
    cbn [mbind result_bind]. rewrite IH; [|done|].
    + f_equal. unfold dict_pop. rewrite !list_filter_filter. f_equal.
      * apply list_filter_iff. intros [k v]. simpl.
        rewrite not_elem_of_cons. tauto.
      * apply list_filter_iff. intros k. rewrite not_elem_of_cons. tauto.
    + intros r' Hr'. apply list_elem_of_filter. split; [by intros ->|].
      apply Hsub. by right.
Qed.

(** ** Pruning *)


Lemma relations_load g input : relations (load g input) = input.1.2.
Proof.
  destruct input as [[ents rels] es]. unfold load, group_edges. simpl.
  by destruct (foldl group_step _ es) as [[? ?] ?].
Qed.

Lemma edges_load g input : edges (load g input) = input.2.
Proof.
  destruct input as [[ents rels] es]. unfold load, group_edges. simpl.
  by destruct (foldl group_step _ es) as [[? ?] ?].
Qed.




Lemma elem_of_candidate_rels g (min_num_rel : Z) rel n :
  NoDup (grouped_edges g).*1 →
  (rel, n) ∈ candidate_rels g min_num_rel ↔
  ∃ insts, dict_get rel (grouped_edges g) = Some insts ∧
           n = length insts ∧ min_num_rel ≤ Z.of_nat n.
Proof.
  intros Hnd. unfold candidate_rels.
  rewrite list_elem_of_filter, list_elem_of_fmap. simpl. split.
  - intros [Hmin ([k insts] & [= -> ->] & Hin)].
    exists insts. split_and!; [|done..]. by apply dict_get_elem_NoDup.
  - intros (insts & Hget & -> & Hmin). split; [done|].
    exists (rel, insts). split; [done|]. by apply dict_get_Some_elem.
Qed.


(** ** The preprocessing as a whole *)

(** *** The reader's output is well formed *)

Lemma add_triple_ok line acc : input_ok acc → input_ok (Reader.add_triple line acc).
Proof.
  destruct line as [[source relationship] target], acc as [[ents rels] es].
  intros (Hrels & Hes & Hsub). unfold Reader.add_triple, input_ok. simpl in *.
  split_and!; [by apply NoDup_set_add..|].
  intros e [->|He]%elem_of_set_add; apply elem_of_set_add; [by left|].
  right. by apply Hsub.
Qed.

Lemma read_lines_ok lines prob :
  ∀ acc r, input_ok acc → input_ok (Reader.read_lines lines prob acc r).1.
Proof.
  induction lines as [|line lines IH]; intros acc r Hacc; [done|].
  cbn [Reader.read_lines]. destruct (random r) as [u r'].
  destruct (Qlt_bool u prob); apply IH; [by apply add_triple_ok|done].
Qed.

Lemma reader_output_ok lines prob r : input_ok (Reader.read lines prob r).1.
Proof.
  apply read_lines_ok. split_and!; [apply NoDup_nil_2..|].
  by intros e ?%elem_of_nil.
Qed.

(** *** Removing relations keeps the grouped edges in step with the edges *)

Lemma dict_get_filter_keys {V} (P : relation → Prop) `{∀ k, Decision (P k)}
    (k : relation) (d : list (relation * V)) :
  P k → dict_get k (filter (fun kv => P kv.1) d) = dict_get k d.
Proof.
  intros Hk. induction d as [|[k' v] d IH]; [done|].
  rewrite filter_cons. simpl. destruct (decide (P k')) as [Hk'|Hk']; simpl.
  - case_decide; [done|apply IH].
  - rewrite decide_False; [apply IH|]. by intros ->.
Qed.

Lemma remove_rels_spec g removed :
  NoDup removed →
  (∀ r, r ∈ removed → r ∈ relations g) →
  ∃ g', remove_rels g removed = Ok g' ∧
    relations g' = filter (fun r => r ∉ removed) (relations g) ∧
    edges g' = filter (fun e : edge => edge_rel e ∉ removed) (edges g) ∧
    grouped_edges g' = filter (fun kv => kv.1 ∉ removed) (grouped_edges g) ∧
    inverses g' = inverses g ∧ inverse_tuples g' = inverse_tuples g ∧
    number_splits g' = number_splits g.
Proof.
  intros Hnd Hsub. unfold remove_rels.
  rewrite remove_loop_spec by done. cbn [mbind result_bind].
  eexists. split; [done|]. done.
Qed.

Lemma remove_rels_grouped_ok g removed :
  NoDup removed →
  (∀ r, r ∈ removed → r ∈ relations g) →
  (∀ rel, rel ∈ relations g → rel ∉ removed →
     ∃ pairs, dict_get rel (grouped_edges g) = Some pairs ∧ NoDup pairs ∧
              ∀ s t, (s, t) ∈ pairs ↔ (rel, s, t) ∈ edges g) →
  ∃ g', remove_rels g removed = Ok g' ∧ grouped_ok g' ∧
    relations g' = filter (fun r => r ∉ removed) (relations g) ∧
    inverses g' = inverses g ∧ inverse_tuples g' = inverse_tuples g ∧
    number_splits g' = number_splits g.
Proof.
  intros Hnd Hsub Hok.
  destruct (remove_rels_spec g removed Hnd Hsub)
    as (g' & Hrem & Hrels & Hes & Hge & Hinv & Htup & Hns).
  exists g'. split_and!; try done.
  intros rel. rewrite Hrels, Hge, Hes.
  intros [Hnr Hrel]%list_elem_of_filter.
  destruct (Hok rel Hrel Hnr) as (pairs & Hget & Hpairs & Hmem).
  exists pairs. split_and!; [|done|].
  - pose proof (dict_get_filter_keys (fun k => k ∉ removed) rel
                  (grouped_edges g) Hnr) as Hf.
    cbn beta in Hf. by rewrite Hf.
  - intros s t. rewrite Hmem, list_elem_of_filter. unfold edge_rel. simpl.
    tauto.
Qed.

(** *** [read] ends, and its result is ready to be split *)

Lemma inverse_loop_NoDup ge combs :
  ∀ tuples invs tuples' invs',
    inverse_loop ge combs tuples invs = Ok (tuples', invs') →
    NoDup invs → NoDup invs'.
Proof.
  induction combs as [|c combs IH]; intros tuples invs tuples' invs';
    cbn [inverse_loop].
  - by intros [= <- <-].
  - destruct (lookup_or _ (dict_get c.1 ge)) as [e1|]; [|done].
    cbn [mbind result_bind].
    destruct (lookup_or _ (dict_get c.2 ge)) as [e2|]; [|done].
    cbn [mbind result_bind]. destruct (is_inverse e1 e2).
    + intros Hloop Hnd. eapply IH; [exact Hloop|]. by apply NoDup_set_add.
    + apply IH.
Qed.


Lemma prune_grouped_ok g0 input (min_num_rel : Z) (reach_fraction : Q) :
  input_ok input →
  ∃ g', prune (load g0 input) min_num_rel reach_fraction = Ok g' ∧
    grouped_ok g' ∧ NoDup (relations g') ∧
    inverses g' = inverses g0 ∧ inverse_tuples g' = inverse_tuples g0 ∧
    number_splits g' = number_splits g0.
Proof.
  intros (Hrels & Hes & Hsub). set (g := load g0 input).
  pose proof (grouped_inv_load g0 input Hes) as [Hkeys Hsets Hdom Htot].
  fold g in Hkeys, Hsets, Hdom, Htot.
  assert (Hg_rels : relations g = input.1.2) by apply relations_load.
  assert (Hg_es : edges g = input.2) by apply edges_load.
  set (accepted := accepted_rels g min_num_rel reach_fraction).
  destruct (accept_spec (length (edges g)) reach_fraction
              (sort_desc (candidate_rels g min_num_rel)) 0%Q [])
    as (k & _ & Hacc & _).
  destruct (remove_rels_grouped_ok g
              (filter (fun rel => rel ∉ accepted) (relations g)))
    as (g' & Hrem & Hok & Hrels' & Hinv & Htup & Hns).
  - apply NoDup_filter. by rewrite Hg_rels.
  - by intros r [_ ?]%list_elem_of_filter.
  - intros rel Hrel Hnr.
    assert (Hin : rel ∈ accepted).
    { destruct (decide (rel ∈ accepted)); [done|].
      exfalso. apply Hnr, list_elem_of_filter. done. }
    assert (Hkey : is_Some (dict_get rel (grouped_edges g))).
    { unfold accepted, accepted_rels in Hin. rewrite Hacc in Hin. simpl in Hin.
      apply (subseteq_take k) in Hin.
      apply list_elem_of_fmap in Hin as ([r n] & -> & Hrn). simpl.
      rewrite (sort_desc_perm (candidate_rels g min_num_rel)) in Hrn.
      apply elem_of_candidate_rels in Hrn as (insts & -> & _); [done|done]. }
    destruct Hkey as [pairs Hget]. exists pairs.
    destruct (Hsets _ _ Hget) as (? & _ & Hmem).
    split_and!; [done..|]. intros s t. by rewrite Hmem, Hg_es.
  - exists g'. split_and!; try done.
    + rewrite Hrels'. apply NoDup_filter. by rewrite Hg_rels.
    + rewrite Hinv. unfold g, load. destruct input as [[? ?] ?].
      unfold group_edges. simpl. by destruct (foldl group_step _ _) as [[? ?] ?].
    + rewrite Htup. unfold g, load. destruct input as [[? ?] ?].
      unfold group_edges. simpl. by destruct (foldl group_step _ _) as [[? ?] ?].
    + rewrite Hns. unfold g, load. destruct input as [[? ?] ?].
      unfold group_edges. simpl. by destruct (foldl group_step _ _) as [[? ?] ?].
Qed.

Lemma grouped_ok_all_grouped g : grouped_ok g → all_grouped g.
Proof. intros Hok rel Hrel. destruct (Hok rel Hrel) as (? & -> & _). done. Qed.

Lemma grouped_ok_frame g g' :
  relations g' = relations g → edges g' = edges g →
  grouped_edges g' = grouped_edges g → grouped_ok g → grouped_ok g'.
Proof. unfold grouped_ok. intros -> -> ->. done. Qed.


(** ** The number of negatives *)

Lemma advance_0 r : advance r 0 = r.
Proof. destruct r. unfold advance. simpl. f_equal. lia. Qed.

Lemma advance_advance r n m : advance (advance r n) m = advance r (n + m).
Proof. unfold advance. simpl. f_equal. lia. Qed.

Lemma random_snd r : (random r).2 = advance r 1.
Proof. unfold random, next_raw, advance. simpl. f_equal. lia. Qed.

Lemma random_eq r : random r = (uniform_at r 0, advance r 1).
Proof.
  unfold uniform_at. rewrite advance_0. rewrite <- random_snd.
  by destruct (random r).
Qed.

Lemma random_bounds r : (0 <= (random r).1)%Q ∧ ((random r).1 < 1)%Q.
Proof.
  unfold random, next_raw. simpl.
  set (x := (tape r (cursor r) mod 2 ^ 53)%N).
  assert (Hx : (x < 2 ^ 53)%N) by (apply N.mod_upper_bound; done).
  unfold Qle, Qlt. simpl. split; [lia|].
  rewrite Z.mul_1_r. change (Z.pos (2 ^ 53)) with (Z.of_N (2 ^ 53)). lia.
Qed.

Lemma Qlt_bool_iff a b : Qlt_bool a b = true ↔ (a < b)%Q.
Proof.
  unfold Qlt_bool. rewrite negb_true_iff. split.
  - intros H. apply Qnot_le_lt. intros Hle%Qle_bool_iff. congruence.
  - intros H. destruct (Qle_bool b a) eqn:Hle; [|done].
    apply Qle_bool_iff in Hle. by apply Qlt_not_le in H.
Qed.

Lemma Qlt_bool_false_iff a b : Qlt_bool a b = false ↔ (b <= a)%Q.
Proof.
  unfold Qlt_bool. rewrite negb_false_iff. apply Qle_bool_iff.
Qed.

Lemma Qlt_bool_proper a b b' : (b == b')%Q → Qlt_bool a b = Qlt_bool a b'.
Proof.
  intros Heq. destruct (Qlt_bool a b') eqn:H'.
  - apply Qlt_bool_iff. apply Qlt_bool_iff in H'. by rewrite Heq.
  - apply Qlt_bool_false_iff. apply Qlt_bool_false_iff in H'. by rewrite Heq.
Qed.

Lemma count_negatives_unfold fuel factor num r :
  count_negatives fuel factor num r =
  if Qlt_bool (uniform_at r 0) factor then
    match fuel with
    | O => Raise OutOfFuel
    | S fuel' => count_negatives fuel' (factor - 1)%Q (S num) (advance r 1)
    end
  else Ok (num, advance r 1).
Proof. destruct fuel; cbn [count_negatives]; by rewrite random_eq. Qed.

Lemma uniform_at_bounds r k : (0 <= uniform_at r k)%Q ∧ (uniform_at r k < 1)%Q.
Proof. apply random_bounds. Qed.

(** The loop, for a factor whose integer part is [k]: [k] certain rounds and
    one more when the next draw is below the remainder. *)
Lemma count_negatives_spec (k : nat) :
  ∀ fuel factor num r,
    (inject_Z (Z.of_nat k) <= factor)%Q →
    (factor < inject_Z (Z.of_nat k) + 1)%Q →
    (S k ≤ fuel)%nat ∨ ((k ≤ fuel)%nat ∧ (factor == inject_Z (Z.of_nat k))%Q) →
    let extra := if Qlt_bool (uniform_at r k) (factor - inject_Z (Z.of_nat k))
                 then 1%nat else 0%nat in
    count_negatives fuel factor num r
    = Ok ((num + k + extra)%nat, advance r (k + extra + 1)).
Proof.
  induction k as [|k IH]; intros fuel factor num r Hlo Hhi Hfuel extra.
  - (* no certain round is left *)
    change (Z.of_nat 0) with 0 in *. rewrite Qplus_0_l in Hhi.
    assert (Hext : Qlt_bool (uniform_at r 0) (factor - inject_Z 0)
                   = Qlt_bool (uniform_at r 0) factor).
    { apply Qlt_bool_proper. unfold Qminus. ring. }
    unfold extra. rewrite Hext. clear extra Hext.
    rewrite count_negatives_unfold.
    destruct (Qlt_bool (uniform_at r 0) factor) eqn:Hu.
    + apply Qlt_bool_iff in Hu.
      destruct fuel as [|fuel].
      { destruct Hfuel as [?|[_ Hz]]; [lia|]. rewrite Hz in Hu.
        exfalso. eapply Qlt_not_le; [exact Hu|]. apply uniform_at_bounds. }
      rewrite count_negatives_unfold.
      assert (Qlt_bool (uniform_at (advance r 1) 0) (factor - 1) = false) as ->.
      { apply Qlt_bool_false_iff. apply Qle_trans with 0%Q.
        - apply Qlt_le_weak. apply (Qplus_lt_l _ _ 1).
          setoid_replace (factor - 1 + 1)%Q with factor using relation Qeq by ring.
          by rewrite Qplus_0_l.
        - apply uniform_at_bounds. }
      rewrite advance_advance. do 2 f_equal; lia.
    + do 2 f_equal; lia.
  - (* a certain round *)
    assert (H1 : (1 <= factor)%Q).
    { eapply Qle_trans; [|exact Hlo]. change 1%Q with (inject_Z 1).
      rewrite <- Zle_Qle. lia. }
    rewrite count_negatives_unfold.
    assert (Qlt_bool (uniform_at r 0) factor = true) as ->.
    { apply Qlt_bool_iff. eapply Qlt_le_trans; [|exact H1].
      apply uniform_at_bounds. }
    destruct fuel as [|fuel]; [lia|].
    assert (Hk : (inject_Z (Z.of_nat (S k)) == inject_Z (Z.of_nat k) + 1)%Q).
    { rewrite Nat2Z.inj_succ. unfold Z.succ. by rewrite inject_Z_plus. }
    rewrite (IH fuel (factor - 1)%Q (S num) (advance r 1)).
    + assert (uniform_at (advance r 1) k = uniform_at r (S k)) as ->.
      { unfold uniform_at. by rewrite advance_advance. }
      assert (Qlt_bool (uniform_at r (S k))
                (factor - 1 - inject_Z (Z.of_nat k))
              = Qlt_bool (uniform_at r (S k))
                  (factor - inject_Z (Z.of_nat (S k)))) as ->.
      { apply Qlt_bool_proper. rewrite Hk. ring. }
      fold extra. rewrite advance_advance. do 2 f_equal; lia.
    + rewrite Hk in Hlo. apply (Qplus_le_l _ _ 1).
      by setoid_replace (factor - 1 + 1)%Q with factor using relation Qeq by ring.
    + rewrite Hk in Hhi. apply (Qplus_lt_l _ _ 1).
      by setoid_replace (factor - 1 + 1)%Q with factor using relation Qeq by ring.
    + destruct Hfuel as [?|[? Hz]]; [left; lia|right]. split; [lia|].
      rewrite Hz, Hk. ring.
Qed.

(** The fuel that [draw_num_negatives] provides is enough. *)
Lemma draw_num_negatives_positive (negatives_factor : Q) (r : rng) :
  (0 < negatives_factor)%Q →
  let fl := Z.to_nat (Qfloor negatives_factor) in
  let extra :=
    if Qlt_bool (uniform_at r fl)
         (negatives_factor - inject_Z (Z.of_nat fl))
    then 1%nat else 0%nat in
  Z.of_nat fl = Qfloor negatives_factor ∧
  draw_num_negatives negatives_factor r
  = Ok ((fl + extra)%nat, advance r (fl + extra + 1)).
Proof.
  intros Hpos fl extra.
  assert (Hfl0 : 0 ≤ Qfloor negatives_factor).
  { change 0 with (Qfloor 0). apply Qfloor_resp_le. by apply Qlt_le_weak. }
  assert (Hfl : Z.of_nat fl = Qfloor negatives_factor) by (unfold fl; lia).
  split; [done|].
  pose proof (Qfloor_le negatives_factor) as Hlo.
  pose proof (Qlt_floor negatives_factor) as Hhi.
  rewrite inject_Z_plus in Hhi. rewrite <- Hfl in Hlo, Hhi.
  unfold draw_num_negatives.
  rewrite (count_negatives_spec fl _ negatives_factor 0%nat r Hlo Hhi); [done|].
  destruct (Qeq_dec negatives_factor (inject_Z (Z.of_nat fl))) as [Heq|Hne].
  - right. split; [|done]. rewrite Heq. unfold Qceiling.
    rewrite <- inject_Z_opp, Qfloor_Z. lia.
  - left. assert (Hlt : (inject_Z (Z.of_nat fl) < negatives_factor)%Q).
    { apply Qle_lteq in Hlo as [?|Heq]; [done|]. by rewrite Heq in Hne. }
    assert (Z.of_nat fl < Qceiling negatives_factor); [|lia].
    apply Qlt_le_trans with (z := inject_Z (Qceiling negatives_factor)) in Hlt;
      [|apply Qle_ceiling].
    by rewrite <- Zlt_Qlt in Hlt.
Qed.

Lemma draw_num_negatives_nonpositive (negatives_factor : Q) r :
  (negatives_factor <= 0)%Q →
  draw_num_negatives negatives_factor r = Ok (0%nat, advance r 1).
Proof.
  intros Hle. unfold draw_num_negatives. rewrite count_negatives_unfold.
  assert (Qlt_bool (uniform_at r 0) negatives_factor = false) as ->; [|done].
  apply Qlt_bool_false_iff. eapply Qle_trans; [exact Hle|].
  apply uniform_at_bounds.
Qed.

(** Counting the negatives of a positive always ends. *)
Lemma draw_num_negatives_total (negatives_factor : Q) r :
  ∃ n r', draw_num_negatives negatives_factor r = Ok (n, r').
Proof.
  destruct (Qlt_le_dec 0 negatives_factor) as [Hpos|Hle].
  - destruct (draw_num_negatives_positive negatives_factor r Hpos) as [_ ->].
    eauto.
  - rewrite draw_num_negatives_nonpositive by done. eauto.
Qed.


(** ** The random strategies *)

(** *** The bounded search for a new endpoint *)

Lemma sample1_snd {A} (pop : list A) r x r' :
  sample1 pop r = Ok (x, r') → r' = advance r 1 ∧ x ∈ pop.
Proof.
  unfold sample1. destruct pop as [|a pop]; [done|].
  cbn [next_raw].
  destruct ((a :: pop) !! _) as [y|] eqn:Hy; [|done].
  cbn. intros [= <- <-]. split.
  - unfold advance. f_equal. lia.
  - by eapply list_elem_of_lookup_2.
Qed.


(** What the search returns differs from the original value; it makes at
    most [21 - attempts] draws. *)
Lemma find_new_spec fuel g keep_dom_ran scope rel original :
  ∀ candidates attempts r found candidates' r',
    find_new fuel g keep_dom_ran scope rel original candidates attempts r
    = Ok (found, candidates', r') →
    (∀ x, found = Some x → x ≠ original) ∧
    ∃ draws : nat, r' = advance r draws ∧ (draws ≤ 21 - attempts)%nat.
Proof.
  induction fuel as [|fuel IH]; intros candidates attempts r found candidates' r';
    cbn [find_new]; case_bool_decide as Hguard; try done.
  - intros [= <- <- <-]. split; [done|]. exists 0%nat.
    rewrite advance_0. split; [done|lia].
  - destruct (if bool_decide (10 < attempts)%nat
              then flat_pool g keep_dom_ran scope rel else Ok candidates)
      as [pool|] eqn:Hpool; [|done].
    cbn [mbind result_bind].
    destruct (sample1 pool r) as [[x r1]|] eqn:Hs; [|done].
    cbn [mbind result_bind fst snd].
    apply sample1_snd in Hs as [-> _].
    destruct (bool_decide (x ≠ original)) eqn:Hx.
    + apply bool_decide_eq_true in Hx.
      intros [= <- <- <-]. split; [by intros ? [= <-]|].
      exists 1%nat. split; [done|lia].
    + intros Hrec. apply IH in Hrec as [Hne (draws & -> & Hd)].
      split; [done|]. exists (S draws).
      rewrite advance_advance. split; [done|lia].
  - intros [= <- <- <-]. split; [done|]. exists 0%nat.
    rewrite advance_0. split; [done|lia].
Qed.

Lemma find_new_fuel fuel g keep_dom_ran scope rel original :
  ∀ candidates attempts r,
    (21 ≤ fuel + attempts)%nat →
    find_new fuel g keep_dom_ran scope rel original candidates attempts r
    ≠ Raise OutOfFuel.
Proof.
  induction fuel as [|fuel IH]; intros candidates attempts r Hfuel;
    cbn [find_new]; case_bool_decide as Hguard; try done.
  - lia.
  - destruct (if bool_decide (10 < attempts)%nat
              then flat_pool g keep_dom_ran scope rel else Ok candidates)
      as [pool|e] eqn:Hpool.
    + cbn [mbind result_bind].
      destruct (sample1 pool r) as [[x r1]|e] eqn:Hs.
      * cbn [mbind result_bind fst snd].
        destruct (bool_decide (x ≠ original)); [done|].
        apply IH. lia.
      * cbn. unfold sample1 in Hs. destruct pool; [by injection Hs as <-|].
        cbn [next_raw] in Hs.
        destruct (_ !! _) in Hs; cbn in Hs; [done|]. by injection Hs as <-.
    + cbn. destruct (bool_decide (10 < attempts)%nat); [|done].
      unfold flat_pool in Hpool. destruct keep_dom_ran; [|done].
      destruct (scope !! rel); cbn in Hpool; [done|]. by injection Hpool as <-.
Qed.

(** *** The negatives of the random strategies *)

Lemma random_loop_spec g positive keep_dom_ran change_source change_target :
  ∀ number_negatives candidates_source candidates_target negatives r
    negatives' r',
    random_loop g positive number_negatives keep_dom_ran change_source
      change_target candidates_source candidates_target negatives r
    = Ok (negatives', r') →
    Forall (corrupts change_source change_target positive) negatives →
    Forall (corrupts change_source change_target positive) negatives' ∧
    (length negatives' ≤ length negatives + number_negatives)%nat.
Proof.
  induction number_negatives as [|n IH];
    intros cs ct negatives r negatives' r'; cbn [random_loop].
  - intros [= <- <-] Hall. split; [done|lia].
  - destruct (if change_source then _ else _) as [[[source cs'] r1]|] eqn:Hs;
      [|done].
    cbn [mbind result_bind].
    destruct (if change_target then _ else _) as [[[target ct'] r2]|] eqn:Ht;
      [|done].
    cbn [mbind result_bind].
    intros Hloop Hall.
    assert (Hsrc : ∀ x, source = Some x →
              if change_source then x ≠ edge_source positive
              else x = edge_source positive).
    { destruct change_source.
      - by apply find_new_spec in Hs as [? _].
      - injection Hs as <- _ _. by intros ? [= <-]. }
    assert (Htgt : ∀ x, target = Some x →
              if change_target then x ≠ edge_target positive
              else x = edge_target positive).
    { destruct change_target.
      - by apply find_new_spec in Ht as [? _].
      - injection Ht as <- _ _. by intros ? [= <-]. }
    apply IH in Hloop as [Hall' Hlen].
    + split; [done|]. destruct source, target; rewrite ?length_app in Hlen;
        simpl in Hlen; lia.
    + destruct source as [s|], target as [t|]; try done.
      apply Forall_app. split; [done|]. apply Forall_singleton.
      split_and!; [done|by apply Hsrc|by apply Htgt].
Qed.

(** Every negative returned by a random strategy differs from the positive
    in each component that the strategy changes, and at most
    [number_negatives] are returned. *)
Lemma generate_negatives_random_corrupts g positive number_negatives
    keep_dom_ran change_source change_target equal_probabilities r
    negatives r' :
  generate_negatives_random g positive number_negatives keep_dom_ran
    change_source change_target equal_probabilities r = Ok (negatives, r') →
  Forall (corrupts change_source change_target positive) negatives ∧
  (length negatives ≤ number_negatives)%nat.
Proof.
  unfold generate_negatives_random.
  destruct (initial_candidates _ _ _ change_source _ _ _ _) as [cs|]; [|done].
  cbn [mbind result_bind].
  destruct (initial_candidates _ _ _ change_target _ _ _ _) as [ct|]; [|done].
  cbn [mbind result_bind].
  intros Hloop. apply random_loop_spec in Hloop; [|constructor]. done.
Qed.

(** ** The fuel of the loops is enough *)

Lemma lookup_or_fuel {A} (e : exn) (o : option A) :
  e ≠ OutOfFuel → lookup_or e o ≠ Raise OutOfFuel.
Proof. intros He. destruct o; [done|]. cbn. congruence. Qed.

Lemma bind_fuel {A B} (m : result A) (f : A → result B) :
  m ≠ Raise OutOfFuel → (∀ a, m = Ok a → f a ≠ Raise OutOfFuel) →
  m ≫= f ≠ Raise OutOfFuel.
Proof.
  intros Hm Hf. destruct m as [a|e]; [by apply Hf|].
  cbn. intros [= ->]. done.
Qed.

Lemma random_loop_fuel g positive keep_dom_ran change_source change_target :
  ∀ number_negatives candidates_source candidates_target negatives r,
    random_loop g positive number_negatives keep_dom_ran change_source
      change_target candidates_source candidates_target negatives r
    ≠ Raise OutOfFuel.
Proof.
  induction number_negatives as [|n IH]; intros cs ct negatives r; [done|].
  cbn [random_loop]. apply bind_fuel.
  { destruct change_source; [|done]. apply find_new_fuel. lia. }
  intros [[source cs'] r1] _. apply bind_fuel.
  { destruct change_target; [|done]. apply find_new_fuel. lia. }
  intros [[target ct'] r2] _. apply IH.
Qed.

Lemma initial_candidates_fuel g rel keep_dom_ran change equal_probabilities
    component component' scope :
  initial_candidates g rel keep_dom_ran change equal_probabilities component
    component' scope ≠ Raise OutOfFuel.
Proof.
  unfold initial_candidates. apply bind_fuel.
  - destruct change, keep_dom_ran; try done.
    apply bind_fuel; [by apply lookup_or_fuel|done].
  - intros c _. destruct (equal_probabilities && change); [|done].
    by apply lookup_or_fuel.
Qed.

Lemma generate_negatives_random_fuel g positive number_negatives keep_dom_ran
    change_source change_target equal_probabilities r :
  generate_negatives_random g positive number_negatives keep_dom_ran
    change_source change_target equal_probabilities r ≠ Raise OutOfFuel.
Proof.
  unfold generate_negatives_random.
  apply bind_fuel; [apply initial_candidates_fuel|]. intros cs _.
  apply bind_fuel; [apply initial_candidates_fuel|]. intros ct _.
  apply random_loop_fuel.
Qed.

Lemma ppr_candidates_fuel i2e scope rel row :
  ppr_candidates i2e scope rel row ≠ Raise OutOfFuel.
Proof.
  induction row as [|[i rank] row IH]; [done|]. cbn [ppr_candidates].
  apply bind_fuel.
  { destruct (Qlt_bool 0 rank); [|done].
    apply bind_fuel; [by apply lookup_or_fuel|]. intros ent _.
    apply bind_fuel; [by apply lookup_or_fuel|done]. }
  intros keep _. apply bind_fuel; [done|]. intros rest _.
  destruct keep; [|done]. apply bind_fuel; [by apply lookup_or_fuel|done].
Qed.

Lemma np_choice_fuel p size r : np_choice p size r ≠ Raise OutOfFuel.
Proof.
  unfold np_choice. destruct p; [done|].
  by destruct (uniform_samples size r).
Qed.

Lemma pick_fuel cands ids : pick cands ids ≠ Raise OutOfFuel.
Proof.
  induction ids as [|i ids IH]; [done|]. cbn [pick].
  apply bind_fuel; [by apply lookup_or_fuel|]. intros c _.
  apply bind_fuel; [done|]. done.
Qed.

Lemma generate_negatives_PPR_fuel g positive number_negatives r :
  generate_negatives_PPR g positive number_negatives r ≠ Raise OutOfFuel.
Proof.
  unfold generate_negatives_PPR.
  repeat (apply bind_fuel;
          [first [by apply lookup_or_fuel | apply ppr_candidates_fuel
                 | apply np_choice_fuel | apply pick_fuel]
          |intros ? _]).
  done.
Qed.

Lemma dispatch_fuel g strategy positive n r m :
  dispatch g strategy positive n r = Some m → m ≠ Raise OutOfFuel.
Proof.
  unfold dispatch.
  repeat (case_decide;
          [intros [= <-]; apply generate_negatives_random_fuel|]).
  case_decide; [|done]. intros [= <-]. apply generate_negatives_PPR_fuel.
Qed.

Lemma negatives_loop_fuel g negatives_factor strategy reject :
  ∀ positives st,
    negatives_loop g negatives_factor strategy reject positives st
    ≠ Raise OutOfFuel.
Proof.
  induction positives as [|positive rest IH]; intros [[[negs ign] nn] r];
    [done|].
  cbn [negatives_loop]. case_bool_decide; [apply IH|].
  apply bind_fuel.
  { by destruct (draw_num_negatives_total negatives_factor r) as (n & r' & ->). }
  intros [n r1] _. cbn [fst snd]. apply bind_fuel.
  { destruct (dispatch _ strategy positive n r1) as [m|] eqn:Hd; [|done].
    apply bind_fuel; [by eapply dispatch_fuel|done]. }
  intros [b1 b2] _. apply bind_fuel; [by apply lookup_or_fuel|].
  intros new _. apply IH.
Qed.

(** [generate_negatives] never runs out of fuel: an error that it returns is
    an exception of the code. *)
Lemma generate_negatives_fuel g i tt negatives_factor strategy clean_before
    reject r :
  generate_negatives g i tt negatives_factor strategy clean_before reject r
  ≠ Raise OutOfFuel.
Proof.
  unfold generate_negatives.
  apply bind_fuel; [by apply lookup_or_fuel|]. intros sp _.
  apply bind_fuel.
  { destruct clean_before; [|done]. unfold set_negative.
    apply bind_fuel; [by apply lookup_or_fuel|done]. }
  intros g1 _. apply bind_fuel; [apply negatives_loop_fuel|].
  intros [[[negs ign] nn] r'] _. apply bind_fuel; [|done].
  unfold set_negative. apply bind_fuel; [by apply lookup_or_fuel|done].
Qed.

(** ** The negatives of a bucket *)

(** *** The samplers do not read [graphs] *)

Lemma find_new_set_graphs fuel g gr keep_dom_ran scope rel original :
  ∀ candidates attempts r,
    find_new fuel (set_graphs g gr) keep_dom_ran scope rel original candidates
      attempts r
    = find_new fuel g keep_dom_ran scope rel original candidates attempts r.
Proof.
  induction fuel as [|fuel IH]; intros candidates attempts r; [done|].
  cbn [find_new]. case_bool_decide; [|done].
  change (flat_pool (set_graphs g gr) keep_dom_ran scope rel)
    with (flat_pool g keep_dom_ran scope rel).
  destruct (if bool_decide (10 < attempts)%nat then _ else _) as [pool|]; [|done].
  cbn [mbind result_bind]. destruct (sample1 pool r) as [[x r1]|]; [|done].
  cbn [mbind result_bind fst snd]. by rewrite IH.
Qed.

Lemma random_loop_set_graphs g gr positive keep_dom_ran change_source
    change_target :
  ∀ number_negatives candidates_source candidates_target negatives r,
    random_loop (set_graphs g gr) positive number_negatives keep_dom_ran
      change_source change_target candidates_source candidates_target
      negatives r
    = random_loop g positive number_negatives keep_dom_ran change_source
        change_target candidates_source candidates_target negatives r.
Proof.
  induction number_negatives as [|n IH]; intros cs ct negatives r; [done|].
  cbn [random_loop].
  change (domains (set_graphs g gr)) with (domains g).
  change (ranges (set_graphs g gr)) with (ranges g).
  rewrite !find_new_set_graphs.
  destruct (if change_source then _ else _) as [[[source cs'] r1]|]; [|done].
  cbn [mbind result_bind].
  destruct (if change_target then _ else _) as [[[target ct'] r2]|]; [|done].
  cbn [mbind result_bind]. apply IH.
Qed.

Lemma generate_negatives_random_set_graphs g gr positive number_negatives
    keep_dom_ran change_source change_target equal_probabilities r :
  generate_negatives_random (set_graphs g gr) positive number_negatives
    keep_dom_ran change_source change_target equal_probabilities r
  = generate_negatives_random g positive number_negatives keep_dom_ran
      change_source change_target equal_probabilities r.
Proof.
  unfold generate_negatives_random.
  change (initial_candidates (set_graphs g gr)) with (initial_candidates g).
  change (domains (set_graphs g gr)) with (domains g).
  change (ranges (set_graphs g gr)) with (ranges g).
  destruct (initial_candidates g _ _ change_source _ _ _ _) as [cs|]; [|done].
  cbn [mbind result_bind].
  destruct (initial_candidates g _ _ change_target _ _ _ _) as [ct|]; [|done].
  cbn [mbind result_bind]. apply random_loop_set_graphs.
Qed.

Lemma dispatch_set_graphs g gr strategy positive num_negatives r :
  dispatch (set_graphs g gr) strategy positive num_negatives r
  = dispatch g strategy positive num_negatives r.
Proof.
  unfold dispatch.
  repeat (case_decide; [by rewrite generate_negatives_random_set_graphs|]).
  done.
Qed.

Lemma negatives_loop_set_graphs g gr negatives_factor strategy reject :
  ∀ positives st,
    negatives_loop (set_graphs g gr) negatives_factor strategy reject
      positives st
    = negatives_loop g negatives_factor strategy reject positives st.
Proof.
  induction positives as [|positive rest IH]; intros [[[negs ign] nn] r];
    [done|].
  cbn [negatives_loop]. case_bool_decide; [apply IH|].
  destruct (draw_num_negatives negatives_factor r) as [[n r1]|]; [|done].
  cbn [mbind result_bind fst snd].
  change (set_ignored (set_graphs g gr) ign)
    with (set_graphs (set_ignored g ign) gr).
  rewrite dispatch_set_graphs.
  destruct (match dispatch _ _ _ _ _ with Some _ => _ | None => _ end)
    as [[b1 b2]|]; [|done].
  cbn [mbind result_bind fst snd]. destruct (lookup_or _ b1); [|done].
  cbn [mbind result_bind]. apply IH.
Qed.

(** *** [generate_negatives] in one step *)

Lemma set_bucket_set_bucket sp tt b b' :
  set_bucket (set_bucket sp tt b) tt b' = set_bucket sp tt b'.
Proof. by destruct tt. Qed.

Lemma get_bucket_set_bucket sp tt b : get_bucket (set_bucket sp tt b) tt = b.
Proof. by destruct tt. Qed.

(** Neither [clean_before] nor the negatives stored before the call reach
    the result. *)
Lemma generate_negatives_eq g i tt negatives_factor strategy clean_before
    reject r :
  generate_negatives g i tt negatives_factor strategy clean_before reject r =
  sp ← lookup_or KeyError (graphs g !! i);
  st ← negatives_loop g negatives_factor strategy reject
         (positive (get_bucket sp tt))
         ([], ignored_rels_positives g, None, r);
  Ok (set_graphs (set_ignored g st.1.1.2)
        (<[i := set_bucket sp tt
                  {| positive := positive (get_bucket sp tt);
                     negative := Some st.1.1.1 |}]> (graphs g)),
      st.2).
Proof.
  unfold generate_negatives.
  destruct (graphs g !! i) as [sp|] eqn:Hsp; [|done].
  cbn [lookup_or mbind result_bind]. destruct clean_before.
  - assert (Hclean : set_negative g i tt [] =
              Ok (set_graphs g
                    (<[i := set_bucket sp tt
                              {| positive := positive (get_bucket sp tt);
                                 negative := Some [] |}]> (graphs g)))).
    { unfold set_negative. by rewrite Hsp. }
    rewrite Hclean. cbn [mbind result_bind].
    rewrite negatives_loop_set_graphs.
    cbn [ignored_rels_positives set_graphs].
    destruct (negatives_loop _ _ _ _ _ _) as [[[[negs ign] nn] r']|]; [|done].
    cbn [mbind result_bind fst snd]. unfold set_negative.
    cbn [graphs set_graphs set_ignored]. rewrite lookup_insert_eq.
    cbn [lookup_or mbind result_bind].
    rewrite get_bucket_set_bucket, set_bucket_set_bucket, insert_insert_eq.
    done.
  - cbn [mbind result_bind].
    destruct (negatives_loop _ _ _ _ _ _) as [[[[negs ign] nn] r']|]; [|done].
    cbn [mbind result_bind fst snd]. unfold set_negative.
    cbn [graphs set_ignored]. rewrite Hsp. done.
Qed.

(** C10.  When [generate_negatives] returns, the negatives of the bucket are
    exactly the list built by the loop of this call, and the positives are
    untouched.  The result is the same for both values of [clean_before],
    and the same whatever negatives the bucket held before the call. *)
Theorem generate_negatives_overwrites g i tt negatives_factor strategy
    clean_before reject r g' r' :
  generate_negatives g i tt negatives_factor strategy clean_before reject r
  = Ok (g', r') →
  ∃ sp negatives ignored new_negatives,
    graphs g !! i = Some sp ∧
    negatives_loop g negatives_factor strategy reject
      (positive (get_bucket sp tt)) ([], ignored_rels_positives g, None, r)
    = Ok (negatives, ignored, new_negatives, r') ∧
    (∃ sp', graphs g' !! i = Some sp' ∧
            negative (get_bucket sp' tt) = Some negatives ∧
            positive (get_bucket sp' tt) = positive (get_bucket sp tt)) ∧
    (∀ clean_before',
       generate_negatives g i tt negatives_factor strategy clean_before'
         reject r = Ok (g', r')) ∧
    (∀ old clean_before',
       generate_negatives (replace_negative g i tt old) i tt negatives_factor
         strategy clean_before' reject r = Ok (g', r')).
Proof.
  rewrite generate_negatives_eq.
  destruct (graphs g !! i) as [sp|] eqn:Hsp; [|done].
  cbn [lookup_or mbind result_bind].
  destruct (negatives_loop _ _ _ _ _ _) as [[[[negs ign] nn] r1]|] eqn:Hloop;
    [|done].
  cbn [mbind result_bind fst snd]. intros [= <- <-].
  exists sp, negs, ign, nn. split_and!; [done..| | |].
  - eexists. cbn [graphs set_graphs]. rewrite lookup_insert_eq.
    split; [done|]. by rewrite get_bucket_set_bucket.
  - intros clean'. rewrite generate_negatives_eq, Hsp.
    cbn [lookup_or mbind result_bind]. by rewrite Hloop.
  - intros old clean'. rewrite generate_negatives_eq.
    unfold replace_negative. rewrite Hsp.
    cbn [graphs set_graphs]. rewrite lookup_insert_eq.
    cbn [lookup_or mbind result_bind].
    rewrite negatives_loop_set_graphs, get_bucket_set_bucket.
    cbn [positive ignored_rels_positives set_graphs]. rewrite Hloop.
    cbn [mbind result_bind fst snd].
    rewrite set_bucket_set_bucket, insert_insert_eq. done.
Qed.

(** ** The table of movements *)

Lemma enumerate_from_lookup (s : nat) (l : list entity) (m : gmap entity nat)
    (ent : entity) :
  NoDup l →
  foldl (fun m ie => <[ie.2 := ie.1]> m) m (zip (seq s (length l)) l) !! ent
  = match list_find (fun x => x = ent) l with
    | Some (i, _) => Some (s + i)%nat
    | None => m !! ent
    end.
Proof.
  revert s m. induction l as [|x l IH]; intros s m Hnd; [done|].
  apply NoDup_cons in Hnd as [Hx Hnd].
  cbn [length seq zip zip_with foldl list_find]. rewrite IH by done.
  case_decide as Hxe.
  - subst x. simpl.
    destruct (list_find (fun x => x = ent) l) as [[i y]|] eqn:Hf.
    + apply list_find_Some in Hf as (Hi & -> & _).
      exfalso. apply Hx. by eapply list_elem_of_lookup_2.
    + simpl. rewrite lookup_insert_eq. f_equal. lia.
  - destruct (list_find (fun x => x = ent) l) as [[i y]|]; simpl.
    + f_equal. lia.
    + by rewrite lookup_insert_ne.
Qed.

Lemma etoint_encode g ent i :
  NoDup (entities g).*1 →
  (entities g).*1 !! i = Some ent →
  ∃ e2i, etoint (encode g) = Some e2i ∧ e2i !! ent = Some i ∧
         ∀ ent', e2i !! ent' = Some i → ent' = ent.
Proof.
  intros Hnd Hi. eexists. split; [done|]. unfold enumerate.
  assert (Hfind : ∀ ent' j, (entities g).*1 !! j = Some ent' →
            list_find (fun x => x = ent') (entities g).*1 = Some (j, ent')).
  { intros ent' j Hj. apply list_find_Some. split_and!; [done..|].
    intros k y Hk Hlt ->.
    pose proof (NoDup_lookup _ _ _ _ Hnd Hj Hk). lia. }
  split.
  - rewrite enumerate_from_lookup by done. by rewrite (Hfind ent i).
  - intros ent'. rewrite enumerate_from_lookup by done.
    destruct (list_find _ _) as [[j y]|] eqn:Hf; [|done].
    apply list_find_Some in Hf as (Hj & -> & _). simpl.
    intros [= ->]. congruence.
Qed.

Lemma fill_row_other e2i source_ind len counts :
  ∀ m m' i, fill_row e2i source_ind len counts m = Ok m' →
    i ≠ source_ind → m' !! i = m !! i.
Proof.
  induction counts as [|[target frequency] counts IH]; intros m m' i;
    cbn [fill_row].
  - by intros [= <-].
  - destruct (lookup_or _ (e2i !! target)) as [target_ind|]; [|done].
    cbn [mbind result_bind]. intros Hrow Hne.
    rewrite (IH _ _ _ Hrow Hne). unfold mat_set.
    by apply list_lookup_alter_ne.
Qed.

Lemma fill_rows_sink g e2i (i : nat) (ent : entity) :
  e2i !! ent = Some i →
  (∀ ent', e2i !! ent' = Some i → ent' = ent) →
  default [] (entity_edges g !! ent) = [] →
  ∀ ents m m', fill_rows g e2i ents m = Ok m' → m' !! i = m !! i.
Proof.
  intros Hent Hinj Hsink. induction ents as [|ent' ents IH]; intros m m';
    cbn [fill_rows].
  - by intros [= <-].
  - destruct (e2i !! ent') as [source_ind|] eqn:Hsrc; [|done].
    cbn [lookup_or mbind result_bind].
    destruct (fill_row _ _ _ _ m) as [m1|] eqn:Hrow; [|done].
    cbn [mbind result_bind]. intros Hrows.
    rewrite (IH _ _ Hrows).
    destruct (decide (i = source_ind)) as [->|Hne].
    + apply Hinj in Hsrc as ->. rewrite Hsink in Hrow.
      by injection Hrow as <-.
    + by eapply fill_row_other.
Qed.

(** The row of an entity without outward edges is the row of the fresh
    buffer, whatever that holds. *)
Lemma matrix_movements_sink_row g fresh (i : nat) (ent : entity) m :
  NoDup (entities g).*1 →
  (entities g).*1 !! i = Some ent →
  default [] (entity_edges g !! ent) = [] →
  matrix_movements g fresh = Ok m →
  m !! i = Some ((fun j => fresh i j) <$> seq 0 (length (entities g))).
Proof.
  intros Hnd Hi Hsink. unfold matrix_movements.
  destruct (etoint_encode g ent i Hnd Hi) as (e2i & -> & Hent & Hinj).
  cbn [lookup_or mbind result_bind]. intros Hrows.
  rewrite (fill_rows_sink (encode g) e2i i ent Hent Hinj Hsink _ _ _ Hrows).
  unfold np_empty, matrix. rewrite list_lookup_fmap.
  assert (Hlt : (i < length (entities g))%nat).
  { apply lookup_lt_Some in Hi. by rewrite length_fmap in Hi. }
  cbn [entities encode]. by rewrite lookup_seq_lt.
Qed.

(** ** Runs on concrete graphs *)

(** C2, on the graph livesIn(A,X), livesIn(B,X), bornIn(X,A).  No pair is
    detected, [inverse_tuples] is empty, and still [inverses_dict] lists
    every relation, the relation itself included, as a partner of every
    relation: the test [(r1, r2) or (r2, r1) in inverse_tuples] is the truth
    value of the tuple [(r1, r2)]. *)
Theorem inverses_dict_holds_every_relation :
  ∃ g, graph_of scenario_lines = Ok g ∧
       inverse_tuples g = [] ∧
       inverses_dict g !! "livesIn" = Some ["livesIn"; "bornIn"] ∧
       inverses_dict g !! "bornIn" = Some ["livesIn"; "bornIn"].
Proof. eexists. split; [vm_compute; reflexivity|]. by vm_compute. Qed.

(** C8, on the graph r(a,b) with a fresh buffer that holds 7 in every cell.
    The entity [b] has no outward edge; its row is [7; 7], not zeros, and the
    row of [a] is [7; 1], whose sum is not 1. *)
Theorem movements_keep_the_fresh_buffer :
  ∃ g, graph_of one_edge = Ok g ∧
       (entities g).*1 = ["a"; "b"] ∧
       entity_edges g !! "b" = None ∧
       PPR.matrix_movements g (fun _ _ => 7%Q) = Ok [[7%Q; 1%Q]; [7%Q; 7%Q]].
Proof. eexists. split; [vm_compute; reflexivity|]. by vm_compute. Qed.

(** C5, on the graph r(a,b) with the PPR strategy.  The only candidate source
    is [a] and the only candidate target is [b], both with a positive rank,
    so the negative written to [test.txt] is the positive itself. *)
Theorem ppr_negative_is_the_positive :
  ∃ g, Main.main ppr_config one_edge zeros rng0
       = Ok (g, ([], [("a", "r", "b", 1); ("a", "r", "b", -1)])).
Proof. eexists. vm_compute. reflexivity. Qed.

(** C6, on the graph r(a,b), r(a,d), r(c,b) and the positive r(a,b), whose
    source is changed.  When every draw returns [a], 21 draws are made.  The
    eleventh draw is still taken from the weighted list [a; a; c] (the raw
    draw 2 selects [c]); the twelfth is the first one taken from the
    domain [a; c] (the raw draw 2 selects [a]). *)
Theorem source_search_makes_21_draws :
  ∃ g, graph_of skewed = Ok g ∧
    dict_get "r" (grouped_edges g) = Some [("a", "b"); ("a", "d"); ("c", "b")] ∧
    domains g !! "r" = Some ["a"; "c"] ∧
    Negatives.generate_negatives_random g ("r", "a", "b") 1 true true false
      false rng0 = Ok ([], advance rng0 21) ∧
    Negatives.generate_negatives_random g ("r", "a", "b") 1 true true false
      false (tape_with 10) = Ok ([("r", "c", "b")], advance (tape_with 10) 11) ∧
    Negatives.generate_negatives_random g ("r", "a", "b") 1 true true false
      false (tape_with 11) = Ok ([], advance (tape_with 11) 21).
Proof. eexists. split; [vm_compute; reflexivity|]. by vm_compute. Qed.

(** ** The configuration *)






(** ** Scenarios and instances *)

(** The scenarios of the specification, run on the code. *)
Example friendOf_fold_0 :
  ∃ g g' sp,
    graph_of friend_lines = Ok g ∧
    split_graph g (2 # 10) ∅ = Ok g' ∧
    graphs g' !! 0%nat = Some sp ∧
    positive (test sp) = [("friendOf", "e0", "f0"); ("friendOf", "e1", "f1")] ∧
    length (positive (train sp)) = 8%nat.
Proof.
  eexists _, _, _. split; [vm_compute; reflexivity|].
  split; [vm_compute; reflexivity|]. split; by vm_compute.
Qed.

Example livesIn_bornIn_not_inverse :
  ∃ g, read (init 1) (Reader.read scenario_lines 1 rng0).1 1 1 true = Ok g ∧
       relations g = ["livesIn"; "bornIn"] ∧ inverse_tuples g = [].
Proof. eexists. split; [vm_compute; reflexivity|]. by vm_compute. Qed.

Example spouseOf_not_its_own_inverse :
  ∃ g, graph_of spouse_lines = Ok g ∧
       relations g = ["spouseOf"] ∧ inverse_tuples g = [] ∧ inverses g = [].
Proof. eexists. split; [vm_compute; reflexivity|]. by vm_compute. Qed.

Example one_directional_match_not_flagged :
  ∃ g, graph_of [("A", "p", "B"); ("C", "p", "D"); ("B", "q", "A")] = Ok g ∧
       inverse_tuples g = [].
Proof. eexists. split; [vm_compute; reflexivity|]. by vm_compute. Qed.

Example mirrored_pair_recorded_once :
  ∃ g, graph_of [("A", "p", "B"); ("B", "q", "A")] = Ok g ∧
       inverse_tuples g = [("p", "q")] ∧ inverses g = ["q"].
Proof. eexists. split; [vm_compute; reflexivity|]. by vm_compute. Qed.


(** C3 on the pruned graph of the livesIn / bornIn scenario. *)
Lemma find_inverses_pairs_witness :
  ∃ g g',
    prune (load (init 1) (Reader.read scenario_lines 1 rng0).1) 1 1 = Ok g ∧
    NoDup (relations g) ∧ all_grouped g ∧ inverse_tuples g = [] ∧
    find_inverses g = Ok g' ∧
    ∀ r, (r, r) ∉ inverse_tuples g'.
Proof.
  destruct (prune_grouped_ok (init 1) (Reader.read scenario_lines 1 rng0).1
              1 1 (reader_output_ok _ _ _))
    as (g & Hg & Hok & Hnd & _ & Htup & _).
  destruct (find_inverses_pairs g Hnd (grouped_ok_all_grouped g Hok) Htup)
    as (g' & Hg' & _ & _ & Hirr & _).
  exists g, g'. split_and!; try done. by apply grouped_ok_all_grouped.
Defined.




(** C10 on the livesIn / bornIn scenario. *)
Lemma generate_negatives_overwrites_witness :
  ∃ g r g' r',
    Main.prepare (run_config 1 (1 # 2) "change_source") scenario_lines zeros
      rng0 = Ok (g, r) ∧
    generate_negatives g 0 Test 1 "change_source" true false r = Ok (g', r') ∧
    generate_negatives g 0 Test 1 "change_source" false false r = Ok (g', r').
Proof.
  destruct (Main.prepare (run_config 1 (1 # 2) "change_source") scenario_lines
              zeros rng0) as [[g r]|] eqn:Hprep; [|by vm_compute in Hprep].
  destruct (generate_negatives g 0%nat Test 1 "change_source" true false r)
    as [[g' r']|] eqn:Hrun.
  - exists g, r, g', r'. split; [reflexivity|]. split; [exact Hrun|].
    destruct (generate_negatives_overwrites _ _ _ _ _ _ _ _ _ _ Hrun)
      as (sp & negs & ign & nn & _ & _ & _ & Hclean & _).
    apply Hclean.
  - vm_compute in Hprep. injection Hprep as <- <-. by vm_compute in Hrun.
Defined.

(** ** Reading the triples *)

(** *** The lines that are kept *)

Lemma uniform_at_advance r k : uniform_at (advance r k) 0 = uniform_at r k.
Proof.
  unfold uniform_at. rewrite advance_advance. by rewrite Nat.add_0_r.
Qed.

Lemma read_lines_kept lines prob :
  ∀ acc r k,
    Reader.read_lines lines prob acc (advance r k)
    = (foldl (fun acc line => Reader.add_triple line acc) acc
         (kept_lines r k prob lines),
       advance r (k + length lines)).
Proof.
  induction lines as [|line lines IH]; intros acc r k.
  - cbn [Reader.read_lines kept_lines foldl length]. by rewrite Nat.add_0_r.
  - cbn [Reader.read_lines kept_lines length].
    rewrite random_eq, uniform_at_advance, advance_advance.
    replace (k + 1)%nat with (S k) by lia.
    replace (k + S (length lines))%nat with (S k + length lines)%nat by lia.
    destruct (Qlt_bool (uniform_at r k) prob); rewrite IH; done.
Qed.

Lemma read_kept lines prob r :
  Reader.read lines prob r
  = (read_all (kept_lines r 0 prob lines), advance r (length lines)).
Proof.
  unfold Reader.read. rewrite <- (advance_0 r) at 1.
  by rewrite read_lines_kept.
Qed.

Lemma kept_lines_sublist r prob lines :
  ∀ k, sublist (kept_lines r k prob lines) lines.
Proof.
  induction lines as [|line lines IH]; intros k; cbn [kept_lines]; [done|].
  destruct (Qlt_bool _ _); [apply sublist_skip|apply sublist_cons]; apply IH.
Qed.

Lemma kept_lines_all r prob lines :
  (1 <= prob)%Q → ∀ k, kept_lines r k prob lines = lines.
Proof.
  intros Hp. induction lines as [|line lines IH]; intros k; [done|].
  cbn [kept_lines].
  assert (Qlt_bool (uniform_at r k) prob = true) as ->.
  { apply Qlt_bool_iff. eapply Qlt_le_trans; [apply uniform_at_bounds|done]. }
  by rewrite IH.
Qed.

Lemma kept_lines_none r prob lines :
  (prob <= 0)%Q → ∀ k, kept_lines r k prob lines = [].
Proof.
  intros Hp. induction lines as [|line lines IH]; intros k; [done|].
  cbn [kept_lines].
  assert (Qlt_bool (uniform_at r k) prob = false) as ->.
  { apply Qlt_bool_false_iff. eapply Qle_trans; [done|apply uniform_at_bounds]. }
  apply IH.
Qed.

(** *** The tables of the reader *)

Lemma read_all_snoc ks line :
  read_all (ks ++ [line]) = Reader.add_triple line (read_all ks).
Proof. unfold read_all. by rewrite foldl_app. Qed.

Lemma dict_get_ensure_entity e k ents :
  dict_get k (Reader.ensure_entity e ents)
  = if decide (e = k)
    then Some (default (Degrees 0 0 0) (dict_get e ents))
    else dict_get k ents.
Proof.
  unfold Reader.ensure_entity. destruct (dict_get e ents) as [d|] eqn:He.
  - case_decide; [by subst|done].
  - case_decide.
    + subst. by rewrite dict_get_set_eq.
    + by rewrite dict_get_set_ne.
Qed.

Lemma dict_get_dict_update e f k ents :
  dict_get k (Reader.dict_update e f ents)
  = if decide (e = k) then f <$> dict_get e ents else dict_get k ents.
Proof.
  unfold Reader.dict_update. destruct (dict_get e ents) as [d|] eqn:He.
  - case_decide.
    + subst. by rewrite dict_get_set_eq.
    + by rewrite dict_get_set_ne.
  - case_decide; [by subst; rewrite He|done].
Qed.

Lemma keys_ensure_entity e ents :
  (Reader.ensure_entity e ents).*1 = set_add e ents.*1.
Proof.
  unfold Reader.ensure_entity, set_add.
  destruct (dict_get e ents) as [d|] eqn:He.
  - rewrite decide_True; [done|]. apply dict_get_is_Some. by rewrite He.
  - rewrite dict_set_keys. done.
Qed.

Lemma keys_dict_update e f ents :
  (Reader.dict_update e f ents).*1 = ents.*1.
Proof.
  unfold Reader.dict_update. destruct (dict_get e ents) as [d|] eqn:He; [|done].
  rewrite dict_set_keys, decide_True; [done|].
  apply dict_get_is_Some. by rewrite He.
Qed.

Lemma count_out_snoc ks line e :
  count_out (ks ++ [line]) e
  = (count_out ks e + if decide (line.1.1 = e) then 1 else 0)%nat.
Proof.
  unfold count_out. rewrite filter_app, length_app. f_equal.
  rewrite filter_cons, filter_nil. by case_decide.
Qed.

Lemma count_in_snoc ks line e :
  count_in (ks ++ [line]) e
  = (count_in ks e + if decide (line.2 = e) then 1 else 0)%nat.
Proof.
  unfold count_in. rewrite filter_app, length_app. f_equal.
  rewrite filter_cons, filter_nil. by case_decide.
Qed.

Lemma read_all_entities ks e : dict_get e (read_all ks).1.1 = entry ks e.
Proof.
  revert e. induction ks as [|[[s rel] t] ks IH] using rev_ind; intros e.
  - done.
  - rewrite read_all_snoc. destruct (read_all ks) as [[ents rels] es] eqn:Hr.
    cbn [Reader.add_triple fst snd] in *.
    repeat first [rewrite dict_get_dict_update
                 |rewrite dict_get_ensure_entity].
    rewrite !IH.
    unfold entry. rewrite !count_out_snoc, !count_in_snoc. cbn [fst snd].
    unfold Reader.bump_in, Reader.bump_out.
    repeat case_decide; subst; simpl; try lia; try done; try congruence;
      f_equal; f_equal; lia.
Qed.

Lemma read_all_edges ks :
  NoDup (read_all ks).2 ∧
  ∀ rel s t, (rel, s, t) ∈ (read_all ks).2 ↔ (s, rel, t) ∈ ks.
Proof.
  induction ks as [|[[s0 rel0] t0] ks [IHn IH]] using rev_ind.
  - split; [apply NoDup_nil_2|]. intros rel s t. cbn.
    split; intros []%elem_of_nil.
  - rewrite read_all_snoc. destruct (read_all ks) as [[ents rels] es].
    cbn [Reader.add_triple fst snd] in *. split; [by apply NoDup_set_add|].
    intros rel s t.
    rewrite elem_of_set_add, elem_of_app, list_elem_of_singleton, IH.
    split; intros [H|H]; try (by left); try (by right); right + left;
      congruence.
Qed.

Lemma read_all_relations ks :
  NoDup (read_all ks).1.2 ∧
  ∀ rel, rel ∈ (read_all ks).1.2 ↔ ∃ s t, (s, rel, t) ∈ ks.
Proof.
  induction ks as [|[[s0 rel0] t0] ks [IHn IH]] using rev_ind.
  - split; [apply NoDup_nil_2|]. intros rel. cbn. split.
    + intros []%elem_of_nil.
    + intros (s & t & []%elem_of_nil).
  - rewrite read_all_snoc. destruct (read_all ks) as [[ents rels] es].
    cbn [Reader.add_triple fst snd] in *. split; [by apply NoDup_set_add|].
    intros rel. rewrite elem_of_set_add, IH. split.
    + intros [->|(s & t & H)].
      * exists s0, t0. apply elem_of_app. right. left.
      * exists s, t. apply elem_of_app. by left.
    + intros (s & t & [H|H%list_elem_of_singleton]%elem_of_app).
      * right. by exists s, t.
      * left. congruence.
Qed.

Lemma read_all_keys ks :
  NoDup (read_all ks).1.1.*1 ∧
  ∀ e, e ∈ (read_all ks).1.1.*1 ↔
       ∃ rel x, (e, rel, x) ∈ ks ∨ (x, rel, e) ∈ ks.
Proof.
  induction ks as [|[[s0 rel0] t0] ks [IHn IH]] using rev_ind.
  - split; [apply NoDup_nil_2|]. intros e. cbn. split.
    + intros []%elem_of_nil.
    + intros (rel & x & [[]%elem_of_nil|[]%elem_of_nil]).
  - rewrite read_all_snoc. destruct (read_all ks) as [[ents rels] es].
    cbn [Reader.add_triple fst snd] in *.
    rewrite !keys_dict_update, !keys_ensure_entity.
    split; [by do 2 apply NoDup_set_add|].
    intros e. rewrite !elem_of_set_add, IH. split.
    + intros [->|[->|(rel & x & H)]].
      * exists rel0, s0. right. apply elem_of_app. right. left.
      * exists rel0, t0. left. apply elem_of_app. right. left.
      * exists rel, x. rewrite !elem_of_app. tauto.
    + intros (rel & x & H). rewrite !elem_of_app, !list_elem_of_singleton in H.
      destruct H as [[H|H]|[H|H]].
      * right. right. exists rel, x. by left.
      * right. left. congruence.
      * right. right. exists rel, x. by right.
      * left. congruence.
Qed.

(** X1.  The three tables that [SimpleTriplesReader.read] returns agree with
    each other.  The entity keys, the relations and the edges have no
    duplicates; the edges are the triples of the lines that were kept (line
    [k] is kept when the [k]-th draw is below [prob]); the relations are
    exactly the relations that label an edge; the entities are exactly the
    sources and the targets of the edges; one draw is made for every line,
    kept or not. *)
Theorem reader_tables_agree lines prob r :
  let out := (Reader.read lines prob r).1 in
  (NoDup out.1.1.*1 ∧ NoDup out.1.2 ∧ NoDup out.2) ∧
  (∀ rel s t, (rel, s, t) ∈ out.2 ↔
              (s, rel, t) ∈ kept_lines r 0 prob lines) ∧
  (∀ rel, rel ∈ out.1.2 ↔ ∃ s t, (rel, s, t) ∈ out.2) ∧
  (∀ e, e ∈ out.1.1.*1 ↔
        ∃ rel x, (rel, e, x) ∈ out.2 ∨ (rel, x, e) ∈ out.2) ∧
  (Reader.read lines prob r).2 = advance r (length lines).
Proof.
  rewrite read_kept. cbn [fst snd]. set (ks := kept_lines r 0 prob lines).
  destruct (read_all_edges ks) as [He1 He2].
  destruct (read_all_relations ks) as [Hr1 Hr2].
  destruct (read_all_keys ks) as [Hk1 Hk2].
  split_and!; try done.
  - intros rel. rewrite Hr2. split; intros (s & t & H); exists s, t;
      by apply He2.
  - intros e. rewrite Hk2. split; intros (rel & x & H); exists rel, x;
      rewrite ?He2 in *; done.
Qed.

(** X2.  The degrees that the reader stores count lines, not distinct
    edges: for an entity of the returned table, [out_degree] is the number of
    kept lines with the entity as source, [in_degree] the number of kept
    lines with it as target (a repeated line counts every time, a line from
    an entity to itself counts on both sides), and [degree] is their sum,
    which is positive. *)
Theorem reader_degrees_count_lines lines prob r e d :
  dict_get e (Reader.read lines prob r).1.1.1 = Some d →
  out_degree d = count_out (kept_lines r 0 prob lines) e ∧
  in_degree d = count_in (kept_lines r 0 prob lines) e ∧
  degree d = (out_degree d + in_degree d)%nat ∧
  (0 < degree d)%nat.
Proof.
  rewrite read_kept. cbn [fst snd]. rewrite read_all_entities. unfold entry.
  case_decide as Hz; [done|]. intros [= <-]. simpl. split_and!; try done. lia.
Qed.

Lemma reader_degrees_count_lines_witness :
  dict_get "a" (Reader.read [("a", "r", "b"); ("a", "r", "b"); ("a", "q", "a")]
                  1 rng0).1.1.1
  = Some {| degree := 4; out_degree := 3; in_degree := 1 |} ∧
  (Reader.read [("a", "r", "b"); ("a", "r", "b"); ("a", "q", "a")]
     1 rng0).1.2 = [("r", "a", "b"); ("q", "a", "a")] ∧
  out_degree {| degree := 4; out_degree := 3; in_degree := 1 |}
  = count_out
      (kept_lines rng0 0 1 [("a", "r", "b"); ("a", "r", "b"); ("a", "q", "a")])
      "a".
Proof.
  split; [reflexivity|]. split; [reflexivity|].
  apply (reader_degrees_count_lines
           [("a", "r", "b"); ("a", "r", "b"); ("a", "q", "a")] 1 rng0 "a"
           {| degree := 4; out_degree := 3; in_degree := 1 |}).
  reflexivity.
Defined.

(** X3.  With [prob >= 1] the reader keeps every line, whatever the random
    source draws: the edges are exactly the triples of the lines, and the
    tables are those of a run with probability 1 on any other random
    source. *)
Theorem reader_keeps_everything lines prob r :
  (1 <= prob)%Q →
  (∀ rel s t, (rel, s, t) ∈ (Reader.read lines prob r).1.2 ↔
              (s, rel, t) ∈ lines) ∧
  (∀ e d, dict_get e (Reader.read lines prob r).1.1.1 = Some d →
          out_degree d = count_out lines e ∧ in_degree d = count_in lines e) ∧
  (∀ r2, (Reader.read lines prob r).1 = (Reader.read lines 1 r2).1).
Proof.
  intros Hp. split_and!.
  - intros rel s t. rewrite read_kept, kept_lines_all by done.
    apply read_all_edges.
  - intros e d Hd.
    rewrite read_kept, kept_lines_all in Hd by done. cbn [fst snd] in Hd.
    rewrite read_all_entities in Hd. unfold entry in Hd.
    case_decide; [done|]. injection Hd as <-. done.
  - intros r2. rewrite !read_kept, !kept_lines_all; done.
Qed.

Lemma reader_keeps_everything_witness :
  (1 <= 1)%Q ∧
  ∀ rel s t, (rel, s, t) ∈ (Reader.read scenario_lines 1 (tape_with 1)).1.2 ↔
             (s, rel, t) ∈ scenario_lines.
Proof.
  split; [discriminate|].
  apply (reader_keeps_everything scenario_lines 1 (tape_with 1)).
  discriminate.
Defined.

(** X4.  With [prob <= 0] the reader keeps no line: the three tables are
    empty, and one draw per line has still been made. *)
Theorem reader_keeps_nothing lines prob r :
  (prob <= 0)%Q →
  Reader.read lines prob r = (([], [], []), advance r (length lines)).
Proof.
  intros Hp. by rewrite read_kept, kept_lines_none.
Qed.

Lemma reader_keeps_nothing_witness :
  (0 <= 0)%Q ∧
  Reader.read scenario_lines 0 rng0 = (([], [], []), advance rng0 3).
Proof.
  split; [discriminate|].
  apply (reader_keeps_nothing scenario_lines 0 rng0). discriminate.
Defined.

(** ** The tables of the preprocessing *)

(** *** [domains] and [ranges] *)

Lemma foldl_group_step_domains es ge doms rans :
  (foldl group_step (ge, doms, rans) es).1.2
  = foldl (scope_step edge_source) doms es.
Proof.
  revert ge doms rans. induction es as [|[[rel s] t] es IH]; intros; [done|].
  simpl. apply IH.
Qed.

Lemma foldl_group_step_ranges es ge doms rans :
  (foldl group_step (ge, doms, rans) es).2
  = foldl (scope_step edge_target) rans es.
Proof.
  revert ge doms rans. induction es as [|[[rel s] t] es IH]; intros; [done|].
  simpl. apply IH.
Qed.

Lemma lookup_scope_step proj m e rel :
  scope_step proj m e !! rel
  = if decide (edge_rel e = rel)
    then Some (set_add (proj e) (default [] (m !! rel)))
    else m !! rel.
Proof.
  unfold scope_step, ensure_key. case_decide as Hrel.
  - subst rel. destruct (m !! edge_rel e) as [l|] eqn:Hm.
    + by rewrite lookup_alter_eq, Hm.
    + by rewrite lookup_alter_eq, lookup_insert_eq.
  - destruct (m !! edge_rel e) as [l|] eqn:Hm.
    + by rewrite lookup_alter_ne.
    + by rewrite lookup_alter_ne, lookup_insert_ne.
Qed.

Lemma lookup_foldl_scope_step proj es :
  ∀ m rel,
    foldl (scope_step proj) m es !! rel
    = match m !! rel, edges_with_rel rel es with
      | None, [] => None
      | o, es' => Some (set_update (default [] o) (proj <$> es'))
      end.
Proof.
  unfold edges_with_rel.
  induction es as [|e es IH]; intros m rel.
  - cbn. by destruct (m !! rel).
  - cbn [foldl]. rewrite IH, lookup_scope_step, filter_cons.
    case_decide as Hrel.
    + rewrite fmap_cons. cbn [set_update foldl default].
      by destruct (m !! rel).
    + done.
Qed.

Lemma scope_spec proj es rel l :
  foldl (scope_step proj) ∅ es !! rel = Some l →
  NoDup l ∧ ∀ x, x ∈ l ↔ ∃ e, e ∈ es ∧ edge_rel e = rel ∧ proj e = x.
Proof.
  rewrite lookup_foldl_scope_step, lookup_empty.
  assert (Hl : ∀ es', es' = edges_with_rel rel es →
            Some (set_update (default [] None) (proj <$> es')) = Some l →
            NoDup l ∧ ∀ x, x ∈ l ↔ ∃ e, e ∈ es ∧ edge_rel e = rel ∧ proj e = x).
  { intros es' -> [= <-]. split.
    - apply NoDup_set_update, NoDup_nil_2.
    - intros x. rewrite elem_of_set_update, list_elem_of_fmap. cbn.
      unfold edges_with_rel. split.
      + intros [[]%elem_of_nil|(e & -> & [? ?]%list_elem_of_filter)].
        by exists e.
      + intros (e & He & Hr & <-). right. exists e. split; [done|].
        by apply list_elem_of_filter. }
  destruct (edges_with_rel rel es) as [|e0 es0] eqn:Hes; [done|].
  by apply Hl.
Qed.

Lemma scope_is_Some proj es rel :
  is_Some (foldl (scope_step proj) ∅ es !! rel) ↔
  ∃ e, e ∈ es ∧ edge_rel e = rel.
Proof.
  rewrite lookup_foldl_scope_step, lookup_empty. unfold edges_with_rel.
  destruct (filter _ es) as [|e0 es0] eqn:Hes.
  - split; [by intros [? ?]|]. intros (e & He & Hr).
    assert (e ∈ filter (fun e => edge_rel e = rel) es) as Hin
      by by apply list_elem_of_filter.
    rewrite Hes in Hin. by apply elem_of_nil in Hin.
  - split; [|done]. intros _. exists e0.
    assert (e0 ∈ filter (fun e => edge_rel e = rel) es) as Hin
      by (rewrite Hes; left).
    apply list_elem_of_filter in Hin as [? ?]. done.
Qed.

Lemma group_edges_fields g :
  grouped_edges (group_edges g) = foldl ge_step [] (edges g) ∧
  domains (group_edges g) = foldl (scope_step edge_source) ∅ (edges g) ∧
  ranges (group_edges g) = foldl (scope_step edge_target) ∅ (edges g) ∧
  edges (group_edges g) = edges g ∧ relations (group_edges g) = relations g ∧
  entities (group_edges g) = entities g ∧
  entity_edges (group_edges g) = entity_edges g ∧
  inverses (group_edges g) = inverses g ∧
  inverse_tuples (group_edges g) = inverse_tuples g.
Proof.
  unfold group_edges.
  rewrite <- (foldl_group_step_grouped (edges g) [] ∅ ∅).
  rewrite <- (foldl_group_step_domains (edges g) [] ∅ ∅).
  rewrite <- (foldl_group_step_ranges (edges g) [] ∅ ∅).
  by destruct (foldl group_step _ (edges g)) as [[? ?] ?].
Qed.

(** X5.  [group_edges] rebuilds the three per-relation tables from the edge
    set alone.  A relation is a key of [grouped_edges] (and of [domains] and
    [ranges]) exactly when some edge carries it; its grouped edges are its
    (source, target) pairs, without duplicates; its domain is the set of the
    sources of its edges and its range the set of their targets; and the
    sizes of the grouped sets add up to the number of edges.  The edge set
    and the relation set are not changed. *)
Theorem group_edges_tables g :
  NoDup (edges g) →
  let g' := group_edges g in
  (∀ rel, is_Some (dict_get rel (grouped_edges g')) ↔
          ∃ s t, (rel, s, t) ∈ edges g) ∧
  (∀ rel pairs, dict_get rel (grouped_edges g') = Some pairs →
     NoDup pairs ∧ ∀ s t, (s, t) ∈ pairs ↔ (rel, s, t) ∈ edges g) ∧
  (∀ rel, (is_Some (domains g' !! rel) ↔ ∃ s t, (rel, s, t) ∈ edges g) ∧
          (is_Some (ranges g' !! rel) ↔ ∃ s t, (rel, s, t) ∈ edges g)) ∧
  (∀ rel ds, domains g' !! rel = Some ds →
     NoDup ds ∧ ∀ s, s ∈ ds ↔ ∃ t, (rel, s, t) ∈ edges g) ∧
  (∀ rel rs, ranges g' !! rel = Some rs →
     NoDup rs ∧ ∀ t, t ∈ rs ↔ ∃ s, (rel, s, t) ∈ edges g) ∧
  grouped_total (grouped_edges g') = length (edges g) ∧
  edges g' = edges g ∧ relations g' = relations g.
Proof.
  intros Hnd g'.
  destruct (group_edges_fields g) as (Hge & Hdom & Hran & Hes & Hrels & _).
  fold g' in Hge, Hdom, Hran, Hes, Hrels. rewrite Hge, Hdom, Hran.
  assert (Hinv : grouped_inv (edges g) (foldl ge_step [] (edges g))).
  { apply (grouped_inv_foldl [] [] (edges g)); [|done].
    split; [apply NoDup_nil_2|done|by intros e ?%elem_of_nil|done]. }
  destruct Hinv as [Hkeys Hsets Hdoms Htot].
  assert (Hex : ∀ rel, (∃ e, e ∈ edges g ∧ edge_rel e = rel) ↔
                       ∃ s t, (rel, s, t) ∈ edges g).
  { intros rel. split.
    - intros ([[r s] t] & He & Hr). unfold edge_rel in Hr. simpl in Hr.
      subst r. by exists s, t.
    - intros (s & t & He). by exists (rel, s, t). }
  split_and!; try done.
  - intros rel. split.
    + intros [pairs Hget]. destruct (Hsets _ _ Hget) as (_ & Hne & Hmem).
      destruct pairs as [|[s t] pairs]; [done|]. exists s, t.
      apply Hmem. left.
    + intros (s & t & He). apply (Hdoms _ He).
  - intros rel pairs Hget. destruct (Hsets _ _ Hget) as (? & _ & ?). done.
  - intros rel. rewrite !scope_is_Some, Hex. done.
  - intros rel ds Hds. apply scope_spec in Hds as [? Hmem]. split; [done|].
    intros s. rewrite Hmem. split.
    + intros ([[r s'] t] & He & Hr & Hs).
      unfold edge_rel, edge_source in *. simpl in *. subst. by exists t.
    + intros (t & He). by exists (rel, s, t).
  - intros rel rs Hrs. apply scope_spec in Hrs as [? Hmem]. split; [done|].
    intros t. rewrite Hmem. split.
    + intros ([[r s] t'] & He & Hr & Ht).
      unfold edge_rel, edge_target in *. simpl in *. subst. by exists s.
    + intros (s & He). by exists (rel, s, t).
Qed.

Lemma group_edges_tables_witness :
  NoDup (edges (load (init 1) (Reader.read scenario_lines 1 rng0).1)) ∧
  grouped_total
    (grouped_edges
       (group_edges (load (init 1) (Reader.read scenario_lines 1 rng0).1)))
  = 3%nat.
Proof.
  assert (Hnd : NoDup (edges (load (init 1)
                                (Reader.read scenario_lines 1 rng0).1))).
  { apply (bool_decide_unpack _). vm_compute. exact I. }
  split; [exact Hnd|].
  pose proof (group_edges_tables _ Hnd) as Ht. cbv zeta in Ht.
  destruct Ht as (_ & _ & _ & _ & _ & Ht & _). exact Ht.
Defined.

(** *** [remove_rels] *)

Lemma remove_loop_Ok_iff removed :
  ∀ ge rels,
    (∃ out, remove_loop removed ge rels = Ok out) ↔
    NoDup removed ∧ ∀ r, r ∈ removed → r ∈ rels.
Proof.
  induction removed as [|rel rest IH]; intros ge rels; cbn [remove_loop].
  - split; [|by eexists]. intros _. split; [apply NoDup_nil_2|].
    by intros r ?%elem_of_nil.
  - unfold set_remove. destruct (decide (rel ∈ rels)) as [Hin|Hout];
      cbn [mbind result_bind].
    + rewrite IH, NoDup_cons. split.
      * intros [Hnd Hsub]. split_and!; [|done|].
        -- intros Hr. apply Hsub, list_elem_of_filter in Hr as [Hr _]. done.
        -- intros r [->|Hr]%elem_of_cons; [done|].
           by apply Hsub, list_elem_of_filter in Hr as [_ ?].
      * intros [[Hnr Hnd] Hsub]. split; [done|]. intros r Hr.
        apply list_elem_of_filter. split; [by intros ->|].
        apply Hsub. by right.
    + split; [by intros [? ?]|]. intros [_ Hsub]. exfalso. apply Hout, Hsub.
      left.
Qed.

Lemma remove_loop_Raise removed :
  ∀ ge rels e, remove_loop removed ge rels = Raise e → e = KeyError.
Proof.
  induction removed as [|rel rest IH]; intros ge rels e; cbn [remove_loop];
    [done|].
  unfold set_remove. destruct (decide (rel ∈ rels)); cbn [mbind result_bind].
  - apply IH.
  - by intros [= <-].
Qed.

(** X6.  [remove_rels] succeeds exactly when the relations to remove are
    distinct members of the relation set; otherwise [set.remove] raises
    [KeyError].  When it succeeds, an edge remains exactly when its relation
    is not removed, the relations and the grouped edges that remain are those
    of the other relations, in their order, and the entities with their
    degrees, the domains, the ranges and the stored outgoing edges are left
    as they were, the entries of the removed relations included. *)
Theorem remove_rels_outcome g removed :
  ((∃ g', remove_rels g removed = Ok g') ↔
   NoDup removed ∧ ∀ r, r ∈ removed → r ∈ relations g) ∧
  (∀ e, remove_rels g removed = Raise e → e = KeyError) ∧
  (∀ g', remove_rels g removed = Ok g' →
     (∀ e, e ∈ edges g' ↔ e ∈ edges g ∧ edge_rel e ∉ removed) ∧
     relations g' = filter (fun r => r ∉ removed) (relations g) ∧
     grouped_edges g'
     = filter (fun kv => kv.1 ∉ removed) (grouped_edges g) ∧
     entities g' = entities g ∧ domains g' = domains g ∧
     ranges g' = ranges g ∧ entity_edges g' = entity_edges g).
Proof.
  assert (Hiff : (∃ g', remove_rels g removed = Ok g') ↔
                 NoDup removed ∧ ∀ r, r ∈ removed → r ∈ relations g).
  { rewrite <- (remove_loop_Ok_iff removed (grouped_edges g) (relations g)).
    unfold remove_rels.
    destruct (remove_loop removed (grouped_edges g) (relations g)) as [out|e];
      cbn [mbind result_bind].
    - split; intros _; by eexists.
    - split; by intros [? ?]. }
  split_and!; [done| |].
  - intros e. unfold remove_rels.
    destruct (remove_loop removed (grouped_edges g) (relations g)) as [out|e']
      eqn:Hloop; cbn [mbind result_bind]; [done|].
    intros [= <-]. by eapply remove_loop_Raise.
  - intros g' Hg'.
    assert (Hcond : NoDup removed ∧ ∀ r, r ∈ removed → r ∈ relations g)
      by (apply Hiff; by exists g').
    destruct Hcond as [Hnd Hsub]. revert Hg'. unfold remove_rels.
    rewrite remove_loop_spec by done. cbn [mbind result_bind].
    intros [= <-]. split_and!; try done. intros e. cbn [edges].
    rewrite list_elem_of_filter. tauto.
Qed.

(** *** The stages of [read] *)

Lemma dict_get_filter_keys_not {V} (P : relation → Prop)
    `{∀ k, Decision (P k)} (k : relation) (d : list (relation * V)) :
  ¬ P k → dict_get k (filter (fun kv => P kv.1) d) = None.
Proof.
  intros Hk. apply dict_get_None. intros Hin.
  apply list_elem_of_fmap in Hin as ([k' v] & -> & Hin).
  by apply list_elem_of_filter in Hin as [? _].
Qed.

Lemma kept_ok_frame input m g g' :
  relations g' = relations g → edges g' = edges g →
  grouped_edges g' = grouped_edges g → entities g' = entities g →
  kept_ok input m g → kept_ok input m g'.
Proof.
  intros Hr He Hg Hen [H1 H2 H3 H4 H5 H6 H7].
  split; rewrite ?Hr, ?He, ?Hg, ?Hen; done.
Qed.

Lemma kept_ok_grouped_ok input m g : kept_ok input m g → grouped_ok g.
Proof.
  intros Hk rel Hrel.
  destruct (ko_groups _ _ _ Hk rel Hrel) as (pairs & Hget & Hnd & _ & _ & Hm).
  exists pairs. split_and!; [done..|]. intros s t.
  rewrite Hm, (ko_edges _ _ _ Hk). unfold edge_rel. simpl. tauto.
Qed.

Lemma kept_ok_remove input m g removed :
  kept_ok input m g → NoDup removed →
  (∀ r, r ∈ removed → r ∈ relations g) →
  ∃ g', remove_rels g removed = Ok g' ∧ kept_ok input m g' ∧
    relations g' = filter (fun r => r ∉ removed) (relations g) ∧
    inverses g' = inverses g ∧ inverse_tuples g' = inverse_tuples g ∧
    entity_edges g' = entity_edges g ∧ number_splits g' = number_splits g.
Proof.
  intros [H1 H2 H3 H4 H5 H6 H7] Hnd Hsub. unfold remove_rels.
  rewrite remove_loop_spec by done. cbn [mbind result_bind].
  eexists. split; [done|]. split; [|done].
  split; cbn [relations edges grouped_edges entities fst snd].
  - by apply NoDup_filter.
  - intros rel [_ ?]%list_elem_of_filter. by apply H2.
  - by apply NoDup_filter.
  - intros e. rewrite !list_elem_of_filter, H4. tauto.
  - intros rel [Hnr Hrel]%list_elem_of_filter.
    destruct (H5 rel Hrel) as (pairs & Hget & Hrest). exists pairs.
    split; [|done].
    pose proof (dict_get_filter_keys (fun k => k ∉ removed) rel
                  (grouped_edges g) Hnr) as Hf.
    cbn beta in Hf. by rewrite Hf.
  - intros rel Hsome. apply list_elem_of_filter.
    destruct (decide (rel ∈ removed)) as [Hin|Hout].
    + pose proof (dict_get_filter_keys_not (fun k => k ∉ removed) rel
                    (grouped_edges g)) as Hf.
      cbn beta in Hf. rewrite Hf in Hsome by tauto. by destruct Hsome.
    + split; [done|]. apply H6.
      pose proof (dict_get_filter_keys (fun k => k ∉ removed) rel
                    (grouped_edges g) Hout) as Hf.
      cbn beta in Hf. by rewrite Hf in Hsome.
  - done.
Qed.

Lemma load_fields g0 input :
  entities (load g0 input) = input.1.1 ∧
  inverses (load g0 input) = inverses g0 ∧
  inverse_tuples (load g0 input) = inverse_tuples g0 ∧
  entity_edges (load g0 input) = entity_edges g0 ∧
  number_splits (load g0 input) = number_splits g0.
Proof.
  unfold load. destruct input as [[ents rels] es]. unfold group_edges.
  cbn [edges]. by destruct (foldl group_step _ es) as [[? ?] ?].
Qed.

Lemma prune_kept_ok g0 input (min_num_rel : Z) (reach_fraction : Q) :
  input_ok input →
  ∃ g1, prune (load g0 input) min_num_rel reach_fraction = Ok g1 ∧
    kept_ok input min_num_rel g1 ∧
    inverses g1 = inverses g0 ∧ inverse_tuples g1 = inverse_tuples g0 ∧
    entity_edges g1 = entity_edges g0 ∧ number_splits g1 = number_splits g0.
Proof.
  intros (Hrels & Hes & Hsub). set (g := load g0 input).
  pose proof (grouped_inv_load g0 input Hes) as [Hkeys Hsets Hdom Htot].
  fold g in Hkeys, Hsets, Hdom, Htot.
  assert (Hg_rels : relations g = input.1.2) by apply relations_load.
  assert (Hg_es : edges g = input.2) by apply edges_load.
  destruct (load_fields g0 input) as (Hents & Hinv & Htup & Hee & Hns).
  fold g in Hents, Hinv, Htup, Hee, Hns.
  set (accepted := accepted_rels g min_num_rel reach_fraction).
  set (removed := filter (fun rel => rel ∉ accepted) (relations g)).
  assert (Hacc : ∀ rel, rel ∈ accepted →
            ∃ insts, dict_get rel (grouped_edges g) = Some insts ∧
                     min_num_rel ≤ Z.of_nat (length insts)).
  { intros rel Hin. unfold accepted, accepted_rels in Hin.
    destruct (accept_spec (length (edges g)) reach_fraction
                (sort_desc (candidate_rels g min_num_rel)) 0%Q [])
      as (k & _ & Hk & _).
    rewrite Hk in Hin. simpl in Hin. apply (subseteq_take k) in Hin.
    apply list_elem_of_fmap in Hin as ([r n] & -> & Hrn). simpl.
    rewrite (sort_desc_perm (candidate_rels g min_num_rel)) in Hrn.
    apply elem_of_candidate_rels in Hrn as (insts & Hget & -> & Hmin);
      [|done].
    by exists insts. }
  assert (Hkey_rel : ∀ rel, is_Some (dict_get rel (grouped_edges g)) →
                            rel ∈ relations g).
  { intros rel [insts Hget]. destruct (Hsets _ _ Hget) as (_ & Hne & Hmem).
    destruct insts as [|[s t] insts]; [done|].
    rewrite Hg_rels. apply (Hsub (rel, s, t)), Hmem. left. }
  assert (Hremoved : ∀ r, r ∈ relations g → (r ∉ removed ↔ r ∈ accepted)).
  { intros r Hr. unfold removed. rewrite list_elem_of_filter.
    destruct (decide (r ∈ accepted)); tauto. }
  assert (Hkept : ∀ r, r ∈ filter (fun r => r ∉ removed) (relations g) ↔
                       r ∈ accepted).
  { intros r. rewrite list_elem_of_filter. split.
    - intros [Hnr Hr]. by apply Hremoved.
    - intros Hin. destruct (Hacc r Hin) as (insts & Hget & _).
      assert (r ∈ relations g) by (apply Hkey_rel; by rewrite Hget).
      split; [by apply Hremoved|done]. }
  unfold prune. fold accepted. fold removed. unfold remove_rels.
  rewrite remove_loop_spec;
    [|by apply NoDup_filter; rewrite Hg_rels
     |by intros r [_ ?]%list_elem_of_filter].
  cbn [mbind result_bind]. eexists. split; [done|]. split; [|done].
  split; cbn [relations edges grouped_edges entities fst snd].
  - apply NoDup_filter. by rewrite Hg_rels.
  - intros rel [_ ?]%list_elem_of_filter. by rewrite <- Hg_rels.
  - apply NoDup_filter. by rewrite Hg_es.
  - intros e. rewrite Hkept, list_elem_of_filter, Hg_es. split.
    + intros [Hnr He]. split; [done|]. apply Hremoved; [|done].
      rewrite Hg_rels. by apply Hsub.
    + intros [He Hin]. split; [|done]. apply Hremoved; [|done].
      rewrite Hg_rels. by apply Hsub.
  - intros rel Hrel%Hkept. destruct (Hacc rel Hrel) as (insts & Hget & Hmin).
    exists insts. destruct (Hsets _ _ Hget) as (Hnd & Hne & Hmem).
    split_and!; try done.
    assert (Hnr : rel ∉ removed).
    { apply Hremoved; [|done]. apply Hkey_rel. by rewrite Hget. }
    pose proof (dict_get_filter_keys (fun k => k ∉ removed) rel
                  (grouped_edges g) Hnr) as Hf.
    cbn beta in Hf. by rewrite Hf.
  - intros rel Hsome. apply Hkept.
    destruct (decide (rel ∈ removed)) as [Hin|Hout].
    + pose proof (dict_get_filter_keys_not (fun k => k ∉ removed) rel
                    (grouped_edges g)) as Hf.
      cbn beta in Hf. rewrite Hf in Hsome by tauto. by destruct Hsome.
    + pose proof (dict_get_filter_keys (fun k => k ∉ removed) rel
                    (grouped_edges g) Hout) as Hf.
      cbn beta in Hf. rewrite Hf in Hsome.
      apply Hremoved; [by apply Hkey_rel|done].
  - done.
Qed.

Lemma remove_rels_Ok_fields g removed g' :
  remove_rels g removed = Ok g' →
  entities g' = entities g ∧ entity_edges g' = entity_edges g ∧
  domains g' = domains g ∧ ranges g' = ranges g ∧
  inverses g' = inverses g ∧ inverse_tuples g' = inverse_tuples g ∧
  edges g' = filter (fun e : edge => edge_rel e ∉ removed) (edges g) ∧
  number_splits g' = number_splits g.
Proof.
  unfold remove_rels.
  destruct (remove_loop removed (grouped_edges g) (relations g)) as [out|e];
    cbn [mbind result_bind]; [|done].
  by intros [= <-].
Qed.

Lemma find_inverses_Ok_fields g g' :
  find_inverses g = Ok g' →
  entities g' = entities g ∧ entity_edges g' = entity_edges g ∧
  domains g' = domains g ∧ ranges g' = ranges g ∧
  relations g' = relations g ∧ edges g' = edges g ∧
  grouped_edges g' = grouped_edges g ∧ number_splits g' = number_splits g.
Proof.
  unfold find_inverses.
  destruct (inverse_loop _ _ _ _) as [out|e]; cbn [mbind result_bind]; [|done].
  by intros [= <-].
Qed.

Lemma find_inverses_fields g :
  all_grouped g →
  ∃ g', find_inverses g = Ok g' ∧
    (∀ p, p ∈ inverse_tuples g' ↔
          p ∈ inverse_tuples g ∨
          (p ∈ combinations2 (relations g) ∧ flagged (grouped_edges g) p)) ∧
    (∀ r, r ∈ inverses g' ↔
          r ∈ inverses g ∨
          ∃ p, p ∈ combinations2 (relations g) ∧
               flagged (grouped_edges g) p ∧ p.2 = r) ∧
    (NoDup (inverses g) → NoDup (inverses g')).
Proof.
  intros Hall. unfold find_inverses.
  destruct (inverse_loop_spec (grouped_edges g) (combinations2 (relations g))
              (inverse_tuples g) (inverses g))
    as (tuples' & invs' & Hloop & Htup & Hinvs).
  { intros [a b] [Ha Hb]%combinations2_elem_of. split; by apply Hall. }
  rewrite Hloop. cbn [mbind result_bind]. eexists. split; [done|].
  cbn [inverse_tuples inverses fst snd]. split_and!; [done..|].
  intros Hnd. by eapply inverse_loop_NoDup.
Qed.

(** The stages of [read] on a well-formed input. *)
Lemma read_stages g0 input (min_num_rel : Z) (reach_fraction : Q)
    (remove_inverses : bool) :
  input_ok input → inverses g0 = [] →
  ∃ g1 g2 g3,
    prune (load g0 input) min_num_rel reach_fraction = Ok g1 ∧
    find_inverses g1 = Ok g2 ∧
    (if remove_inverses then remove_rels g2 (inverses g2) = Ok g3
     else g3 = g2) ∧
    read g0 input min_num_rel reach_fraction remove_inverses
    = Ok (store_entity_edges g3) ∧
    kept_ok input min_num_rel g1 ∧ kept_ok input min_num_rel g3 ∧
    inverses g1 = [] ∧ inverses g3 = inverses g2 ∧
    inverse_tuples g3 = inverse_tuples g2 ∧
    (∀ r, r ∈ inverses g2 → r ∈ relations g1) ∧
    relations g3
    = (if remove_inverses
       then filter (fun r => r ∉ inverses g2) (relations g1)
       else relations g1) ∧
    entity_edges g3 = entity_edges g0.
Proof.
  intros Hin Hinv0. unfold read.
  destruct (prune_kept_ok g0 input min_num_rel reach_fraction Hin)
    as (g1 & Hg1 & Hk1 & Hinv1 & _ & Hee1 & _).
  rewrite Hinv0 in Hinv1.
  pose proof (kept_ok_grouped_ok _ _ _ Hk1) as Hok1.
  destruct (find_inverses_fields g1 (grouped_ok_all_grouped g1 Hok1))
    as (g2 & Hg2 & _ & Hinvs & Hnd2).
  destruct (find_inverses_Ok_fields _ _ Hg2)
    as (Hen2 & Hee2 & _ & _ & Hr2 & He2 & Hge2 & _).
  assert (Hk2 : kept_ok input min_num_rel g2) by by eapply kept_ok_frame.
  assert (Hsub : ∀ r, r ∈ inverses g2 → r ∈ relations g1).
  { intros r [Hr|([a b] & Hp & _ & <-)]%Hinvs.
    - rewrite Hinv1 in Hr. by apply elem_of_nil in Hr.
    - by apply combinations2_elem_of in Hp as [_ ?]. }
  rewrite Hg1. cbn [mbind result_bind]. rewrite Hg2. cbn [mbind result_bind].
  destruct remove_inverses.
  - destruct (kept_ok_remove input min_num_rel g2 (inverses g2) Hk2)
      as (g3 & Hg3 & Hk3 & Hr3 & Hi3 & Ht3 & Hee3 & _).
    { apply Hnd2. rewrite Hinv1. apply NoDup_nil_2. }
    { intros r Hr. rewrite Hr2. by apply Hsub. }
    exists g1, g2, g3. rewrite Hg3. cbn [mbind result_bind].
    split_and!; try done; try congruence.
  - exists g1, g2, g2. cbn [mbind result_bind].
    split_and!; try done; try congruence.
Qed.

(** *** The outgoing edges of the entities *)

Lemma lookup_entity_edges_step m e s :
  entity_edges_step m e !! s
  = if decide (edge_source e = s)
    then Some (default [] (m !! s) ++ [e])
    else m !! s.
Proof.
  unfold entity_edges_step. case_decide as Hs.
  - subst s. destruct (m !! edge_source e) as [l|] eqn:Hm.
    + by rewrite lookup_alter_eq, Hm.
    + by rewrite lookup_alter_eq, lookup_insert_eq.
  - destruct (m !! edge_source e) as [l|] eqn:Hm.
    + by rewrite lookup_alter_ne.
    + by rewrite lookup_alter_ne, lookup_insert_ne.
Qed.

Lemma lookup_foldl_entity_edges_step es :
  ∀ m s,
    foldl entity_edges_step m es !! s
    = match m !! s, filter (fun e => edge_source e = s) es with
      | None, [] => None
      | o, es' => Some (default [] o ++ es')
      end.
Proof.
  induction es as [|e es IH]; intros m s.
  - cbn. destruct (m !! s); [by rewrite app_nil_r|done].
  - cbn [foldl]. rewrite IH, lookup_entity_edges_step, filter_cons.
    case_decide as Hs; [|done].
    destruct (m !! s), (filter (fun e => edge_source e = s) es);
      cbv [default from_option id]; rewrite ?app_nil_r, <- ?app_assoc; done.
Qed.

(** X7.  [DatasetsGenerator.read] on a reader's output and a fresh generator
    never raises, and pruning drops relations as a whole.  The relations
    that remain are relations of the input, without duplicates; the edges
    that remain are exactly the input edges of the remaining relations; the
    keys of [grouped_edges] are the remaining relations; each remaining
    relation keeps all of its input edges in [grouped_edges], at least
    [min_num_rel] of them and at least one; and the entities, with the
    degrees counted by the reader, are those of the input, entities whose
    edges were all pruned included. *)
Theorem read_keeps_whole_relations g0 input (min_num_rel : Z)
    (reach_fraction : Q) (remove_inverses : bool) :
  input_ok input → inverses g0 = [] →
  ∃ g, read g0 input min_num_rel reach_fraction remove_inverses = Ok g ∧
    NoDup (relations g) ∧ NoDup (edges g) ∧
    (∀ rel, rel ∈ relations g → rel ∈ input.1.2) ∧
    (∀ e, e ∈ edges g ↔ e ∈ input.2 ∧ edge_rel e ∈ relations g) ∧
    (∀ rel, rel ∈ relations g ↔ is_Some (dict_get rel (grouped_edges g))) ∧
    (∀ rel, rel ∈ relations g →
       ∃ pairs, dict_get rel (grouped_edges g) = Some pairs ∧
                NoDup pairs ∧ (0 < length pairs)%nat ∧
                min_num_rel ≤ Z.of_nat (length pairs) ∧
                ∀ s t, (s, t) ∈ pairs ↔ (rel, s, t) ∈ input.2) ∧
    entities g = input.1.1.
Proof.
  intros Hin Hinv0.
  destruct (read_stages g0 input min_num_rel reach_fraction remove_inverses
              Hin Hinv0)
    as (g1 & g2 & g3 & _ & _ & _ & Hread & _ & Hk & _).
  exists (store_entity_edges g3). split; [done|].
  destruct Hk as [H1 H2 H3 H4 H5 H6 H7].
  cbn [store_entity_edges relations edges grouped_edges entities].
  split_and!; try done.
  - intros rel. split; [|apply H6]. intros Hrel.
    destruct (H5 rel Hrel) as (pairs & -> & _). done.
  - intros rel Hrel.
    destruct (H5 rel Hrel) as (pairs & Hget & Hnd & Hne & Hmin & Hmem).
    exists pairs. split_and!; try done. destruct pairs; [done|simpl; lia].
Qed.

Lemma read_keeps_whole_relations_witness :
  input_ok (Reader.read scenario_lines 1 rng0).1 ∧
  ∃ g, read (init 1) (Reader.read scenario_lines 1 rng0).1 2 1 true = Ok g ∧
       ∀ rel, rel ∈ relations g → rel ∈ (Reader.read scenario_lines 1 rng0).1.1.2.
Proof.
  split; [apply reader_output_ok|].
  destruct (read_keeps_whole_relations (init 1)
              (Reader.read scenario_lines 1 rng0).1 2 1 true
              (reader_output_ok _ _ _) eq_refl)
    as (g & Hg & _ & _ & Hrels & _).
  exists g. split; [exact Hg|exact Hrels].
Defined.

(** X8.  With [remove_inverses], [read] leaves no two distinct relations
    that mirror each other: for all remaining [r1 ≠ r2] it is not the case
    that [(r1, s, t)] is an edge exactly when [(r2, t, s)] is one.  No
    relation recorded in [inverses] remains, and every relation recorded
    there is a relation of the input that had, in the input, a different
    relation with exactly the reversed edges. *)
Theorem read_removes_mirrored_relations g0 input (min_num_rel : Z)
    (reach_fraction : Q) :
  input_ok input → inverses g0 = [] →
  ∃ g, read g0 input min_num_rel reach_fraction true = Ok g ∧
    (∀ r1 r2, r1 ∈ relations g → r2 ∈ relations g → r1 ≠ r2 →
       ¬ ∀ s t, (r1, s, t) ∈ edges g ↔ (r2, t, s) ∈ edges g) ∧
    (∀ r, r ∈ inverses g → r ∉ relations g) ∧
    (∀ r2, r2 ∈ inverses g →
       r2 ∈ input.1.2 ∧
       ∃ r1, r1 ≠ r2 ∧ r1 ∈ input.1.2 ∧
             ∀ s t, (r1, s, t) ∈ input.2 ↔ (r2, t, s) ∈ input.2).
Proof.
  intros Hin Hinv0.
  destruct (read_stages g0 input min_num_rel reach_fraction true Hin Hinv0)
    as (g1 & g2 & g3 & Hg1 & Hg2 & Hg3 & Hread & Hk1 & Hk3 & Hinv1 & Hinv3
        & _ & Hsub & Hrels3 & _).
  exists (store_entity_edges g3). split; [done|].
  cbn [store_entity_edges relations edges inverses].
  pose proof (kept_ok_grouped_ok _ _ _ Hk1) as Hok1.
  destruct (find_inverses_fields g1 (grouped_ok_all_grouped g1 Hok1))
    as (g2' & Hg2' & _ & Hinvs & _).
  rewrite Hg2 in Hg2'. injection Hg2' as <-.
  assert (Hpairs : ∀ rel, rel ∈ relations g1 →
            ∀ s t, (s, t) ∈ default [] (dict_get rel (grouped_edges g1)) ↔
                   (rel, s, t) ∈ input.2).
  { intros rel Hrel s t.
    destruct (ko_groups _ _ _ Hk1 rel Hrel) as (pairs & -> & _ & _ & _ & Hm).
    apply Hm. }
  assert (Hflag : ∀ a b, a ∈ relations g1 → b ∈ relations g1 →
            (flagged (grouped_edges g1) (a, b) ↔
             ∀ s t, (a, s, t) ∈ input.2 ↔ (b, t, s) ∈ input.2)).
  { intros a b Ha Hb. unfold flagged. rewrite is_inverse_spec. cbn [fst snd].
    unfold full_mirror, mirror. split.
    - intros [H1 H2] s t. rewrite <- (Hpairs a Ha), <- (Hpairs b Hb).
      split; [apply H1|apply H2].
    - intros H. split; intros s t; rewrite (Hpairs a Ha), (Hpairs b Hb);
        apply H. }
  split_and!.
  - intros r1 r2. rewrite Hrels3.
    intros [Hn1 Hr1]%list_elem_of_filter [Hn2 Hr2]%list_elem_of_filter Hne Hm.
    assert (Hkept : ∀ r, r ∈ relations g1 → r ∉ inverses g2 →
              ∀ s t, (r, s, t) ∈ edges g3 ↔ (r, s, t) ∈ input.2).
    { intros r Hr Hnr s t. rewrite (ko_edges _ _ _ Hk3), Hrels3.
      unfold edge_rel. cbn [fst snd]. rewrite list_elem_of_filter. tauto. }
    assert (Hmirror : ∀ s t, (r1, s, t) ∈ input.2 ↔ (r2, t, s) ∈ input.2).
    { intros s t. rewrite <- (Hkept r1 Hr1 Hn1), <- (Hkept r2 Hr2 Hn2).
      apply Hm. }
    destruct (combinations2_total r1 r2 (relations g1) Hr1 Hr2 Hne)
      as [Hc|Hc].
    + apply Hn2, Hinvs. right. exists (r1, r2). split_and!; [done| |done].
      by apply Hflag.
    + apply Hn1, Hinvs. right. exists (r2, r1). split_and!; [done| |done].
      apply Hflag; [done..|]. intros s t. by rewrite Hmirror.
  - intros r. rewrite Hinv3, Hrels3. intros Hr [Hnr _]%list_elem_of_filter.
    done.
  - intros r2. rewrite Hinv3.
    intros [Hr|([a b] & Hp & Hfl & <-)]%Hinvs.
    { rewrite Hinv1 in Hr. by apply elem_of_nil in Hr. }
    pose proof (combinations2_elem_of _ _ _ Hp) as [Ha Hb]. cbn [snd].
    split; [by apply (ko_rels _ _ _ Hk1)|]. exists a. split_and!.
    + by apply (combinations2_distinct _ _ _ (ko_rels_nodup _ _ _ Hk1)) in Hp.
    + by apply (ko_rels _ _ _ Hk1).
    + by apply Hflag.
Qed.

Lemma read_removes_mirrored_relations_witness :
  input_ok (Reader.read [("A", "p", "B"); ("B", "q", "A")] 1 rng0).1 ∧
  ∃ g, read (init 1) (Reader.read [("A", "p", "B"); ("B", "q", "A")] 1 rng0).1
         0 1 true = Ok g ∧
       relations g = ["p"] ∧ inverses g = ["q"] ∧
       ∀ r, r ∈ inverses g → r ∉ relations g.
Proof.
  split; [apply reader_output_ok|].
  destruct (read_removes_mirrored_relations (init 1)
              (Reader.read [("A", "p", "B"); ("B", "q", "A")] 1 rng0).1 0 1
              (reader_output_ok _ _ _) eq_refl)
    as (g & Hg & _ & Hinv & _).
  exists g. split; [exact Hg|].
  vm_compute in Hg. injection Hg as <-.
  split; [reflexivity|]. split; [reflexivity|]. exact Hinv.
Defined.

Lemma store_entity_edges_lookup g3 s :
  entity_edges g3 = ∅ →
  entity_edges (store_entity_edges g3) !! s
  = match filter (fun e => edge_source e = s)
            (edges (store_entity_edges g3)) with
    | [] => None
    | es => Some es
    end.
Proof.
  intros H3. cbn [store_entity_edges entity_edges edges].
  rewrite lookup_foldl_entity_edges_step, H3, lookup_empty.
  by destruct (filter _ (edges g3)).
Qed.

(** The last stage of [read] is the storing of the outgoing edges; the
    stages before it do not touch [entity_edges]. *)
Lemma read_Ok_last g0 input (min_num_rel : Z) (reach_fraction : Q)
    (remove_inverses : bool) g :
  read g0 input min_num_rel reach_fraction remove_inverses = Ok g →
  ∃ g3, g = store_entity_edges g3 ∧ entity_edges g3 = entity_edges g0.
Proof.
  unfold read, prune.
  destruct (remove_rels _ _) as [g1|] eqn:Hg1; cbn [mbind result_bind];
    [|done].
  destruct (find_inverses g1) as [g2|] eqn:Hg2; cbn [mbind result_bind];
    [|done].
  apply remove_rels_Ok_fields in Hg1 as (_ & Hee1 & _).
  apply find_inverses_Ok_fields in Hg2 as (_ & Hee2 & _).
  destruct (load_fields g0 input) as (_ & _ & _ & Hee & _).
  destruct remove_inverses.
  - destruct (remove_rels g2 (inverses g2)) as [g3|] eqn:Hg3;
      cbn [mbind result_bind]; [|done].
    apply remove_rels_Ok_fields in Hg3 as (_ & Hee3 & _).
    intros [= <-]. exists g3. split; [done|congruence].
  - cbn [mbind result_bind]. intros [= <-]. exists g2.
    split; [done|congruence].
Qed.

(** X9.  After [read] on a generator that stores no outgoing edges yet,
    [entity_edges] maps every entity that is the source of a remaining edge
    to the list of the remaining edges that leave it, in the order of the
    edge set, and has no entry for any other entity: removed relations
    contribute nothing, and an entity without outgoing edges has no key. *)
Theorem read_stores_outgoing_edges g0 input (min_num_rel : Z)
    (reach_fraction : Q) (remove_inverses : bool) g :
  entity_edges g0 = ∅ →
  read g0 input min_num_rel reach_fraction remove_inverses = Ok g →
  ∀ s, entity_edges g !! s
       = match filter (fun e => edge_source e = s) (edges g) with
         | [] => None
         | es => Some es
         end.
Proof.
  intros Hee0 (g3 & -> & Hee3)%read_Ok_last s.
  apply store_entity_edges_lookup. congruence.
Qed.

Lemma read_stores_outgoing_edges_witness :
  ∃ g, graph_of scenario_lines = Ok g ∧
       entity_edges g !! "A" = Some [("livesIn", "A", "X")] ∧
       ∀ s, entity_edges g !! s
            = match filter (fun e => edge_source e = s) (edges g) with
              | [] => None
              | es => Some es
              end.
Proof.
  destruct (graph_of scenario_lines) as [g|] eqn:Hg;
    [|by vm_compute in Hg].
  exists g. split; [reflexivity|]. split.
  - vm_compute in Hg. injection Hg as <-. reflexivity.
  - exact (read_stores_outgoing_edges (init 1)
             (Reader.read scenario_lines 1 rng0).1 0 1 false g eq_refl Hg).
Defined.

(** ** The search for inverses *)

(** *** The loop of [find_inverses] *)

Lemma inverse_loop_exact ge combs :
  ∀ tuples invs,
    (∀ p, p ∈ combs → is_Some (dict_get p.1 ge) ∧ is_Some (dict_get p.2 ge)) →
    inverse_loop ge combs tuples invs
    = Ok (tuples ++ flagged_pairs ge combs,
          set_update invs (flagged_pairs ge combs).*2).
Proof.
  unfold flagged_pairs.
  induction combs as [|c combs IH]; intros tuples invs Hkeys;
    cbn [inverse_loop].
  - cbn. by rewrite app_nil_r.
  - destruct (Hkeys c) as [[e1 H1] [e2 H2]]; [left|].
    rewrite H1, H2. cbn [lookup_or mbind result_bind].
    rewrite filter_cons, H1, H2. cbn [default from_option id].
    assert (Hrest : ∀ p, p ∈ combs →
              is_Some (dict_get p.1 ge) ∧ is_Some (dict_get p.2 ge)).
    { intros p Hp. apply Hkeys. by right. }
    destruct (is_inverse e1 e2) eqn:Hinv.
    + rewrite decide_True by done. rewrite IH by done.
      rewrite <- app_assoc. cbn [app fmap list_fmap set_update foldl].
      by destruct c.
    + rewrite decide_False by done. by rewrite IH.
Qed.

Lemma inverse_loop_Ok_iff ge combs :
  ∀ tuples invs,
    (∃ out, inverse_loop ge combs tuples invs = Ok out) ↔
    ∀ p, p ∈ combs → is_Some (dict_get p.1 ge) ∧ is_Some (dict_get p.2 ge).
Proof.
  intros tuples invs. split.
  - revert tuples invs.
    induction combs as [|c combs IH]; intros tuples invs [out Hout] p Hp.
    + by apply elem_of_nil in Hp.
    + cbn [inverse_loop] in Hout.
      destruct (dict_get c.1 ge) as [e1|] eqn:H1; [|done].
      destruct (dict_get c.2 ge) as [e2|] eqn:H2; [|done].
      cbn [lookup_or mbind result_bind] in Hout.
      apply elem_of_cons in Hp as [->|Hp]; [by rewrite H1, H2|].
      destruct (is_inverse e1 e2); (eapply IH; [by eexists|done]).
  - intros Hkeys. rewrite inverse_loop_exact by done. by eexists.
Qed.

Lemma inverse_loop_Raise ge combs :
  ∀ tuples invs e,
    inverse_loop ge combs tuples invs = Raise e → e = KeyError.
Proof.
  induction combs as [|c combs IH]; intros tuples invs e; cbn [inverse_loop];
    [done|].
  destruct (dict_get c.1 ge) as [e1|]; [|by intros [= <-]].
  destruct (dict_get c.2 ge) as [e2|]; [|by intros [= <-]].
  cbn [lookup_or mbind result_bind]. destruct (is_inverse e1 e2); apply IH.
Qed.

Lemma combinations2_cover {A} (l : list A) (x : A) :
  (2 ≤ length l)%nat → x ∈ l →
  ∃ y, (x, y) ∈ combinations2 l ∨ (y, x) ∈ combinations2 l.
Proof.
  destruct l as [|a [|b l]]; cbn [length]; [lia..|]. intros _ Hx.
  apply elem_of_cons in Hx as [->|Hx].
  - exists b. left. apply elem_of_combinations2_cons. left. split; [done|left].
  - exists a. right. apply elem_of_combinations2_cons. by left.
Qed.

Lemma combinations2_short {A} (l : list A) :
  (length l < 2)%nat → combinations2 l = [].
Proof. destruct l as [|a [|b l]]; simpl; [done..|lia]. Qed.

(** X10.  [find_inverses] raises [KeyError] exactly when there are at least
    two relations and one of them is not a key of [grouped_edges]; with
    fewer than two relations nothing is looked up.  When it succeeds, the
    pairs that pass the test are appended to [inverse_tuples] in the order
    of [combinations], after what the list held before (the list is never
    cleared), their second components are added to [inverses], and the
    relations, the edges and the grouped edges are left as they were. *)
Theorem find_inverses_outcome g :
  ((∃ g', find_inverses g = Ok g') ↔
   ((2 ≤ length (relations g))%nat → all_grouped g)) ∧
  (∀ e, find_inverses g = Raise e → e = KeyError) ∧
  (∀ g', find_inverses g = Ok g' →
     inverse_tuples g'
     = inverse_tuples g
       ++ flagged_pairs (grouped_edges g) (combinations2 (relations g)) ∧
     inverses g'
     = set_update (inverses g)
         (flagged_pairs (grouped_edges g) (combinations2 (relations g))).*2 ∧
     relations g' = relations g ∧ edges g' = edges g ∧
     grouped_edges g' = grouped_edges g).
Proof.
  assert (Hkeys : ((2 ≤ length (relations g))%nat → all_grouped g) ↔
            ∀ p, p ∈ combinations2 (relations g) →
                 is_Some (dict_get p.1 (grouped_edges g)) ∧
                 is_Some (dict_get p.2 (grouped_edges g))).
  { split.
    - intros Hall [a b] Hp.
      destruct (decide (2 ≤ length (relations g))%nat) as [Hlen|Hlen].
      + apply combinations2_elem_of in Hp as [Ha Hb].
        split; by apply Hall.
      + rewrite combinations2_short in Hp by lia. by apply elem_of_nil in Hp.
    - intros Hc Hlen rel Hrel.
      destruct (combinations2_cover _ rel Hlen Hrel) as (y & [Hp|Hp]);
        by apply Hc in Hp as [? ?]. }
  split_and!.
  - rewrite Hkeys.
    rewrite <- (inverse_loop_Ok_iff (grouped_edges g)
                  (combinations2 (relations g)) (inverse_tuples g)
                  (inverses g)).
    unfold find_inverses. destruct (inverse_loop _ _ _ _) as [out|e];
      cbn [mbind result_bind].
    + split; intros _; by eexists.
    + split; by intros [? ?].
  - intros e. unfold find_inverses.
    destruct (inverse_loop _ _ _ _) as [out|e'] eqn:Hloop;
      cbn [mbind result_bind]; [done|].
    intros [= <-]. by eapply inverse_loop_Raise.
  - intros g' Hg'.
    assert (Hc : ∀ p, p ∈ combinations2 (relations g) →
                 is_Some (dict_get p.1 (grouped_edges g)) ∧
                 is_Some (dict_get p.2 (grouped_edges g))).
    { apply (inverse_loop_Ok_iff (grouped_edges g) _ (inverse_tuples g)
               (inverses g)).
      unfold find_inverses in Hg'.
      destruct (inverse_loop _ _ _ _) as [out|e]; [by eexists|done]. }
    revert Hg'. unfold find_inverses. rewrite inverse_loop_exact by done.
    cbn [mbind result_bind]. by intros [= <-].
Qed.

(** *** [inverses_dict] *)

Lemma partners_all tuples rels r1 : partners tuples rels r1 = set_update [] rels.
Proof. done. Qed.

Lemma set_update_fresh {A} `{EqDecision A} (l s : list A) :
  NoDup (s ++ l) → set_update s l = s ++ l.
Proof.
  unfold set_update. revert s. induction l as [|x l IH]; intros s Hnd.
  - by rewrite app_nil_r.
  - cbn [foldl]. unfold set_add at 2. rewrite decide_False.
    + rewrite IH; rewrite <- app_assoc; done.
    + apply NoDup_app in Hnd as (_ & Hd & _). intros Hx. apply (Hd x Hx). left.
Qed.

Lemma lookup_build_dict tuples rels l :
  ∀ (d : gmap relation (list relation)) r,
    foldl (fun d r1 => <[r1 := partners tuples rels r1]> d) d l !! r
    = if decide (r ∈ l) then Some (partners tuples rels r) else d !! r.
Proof.
  induction l as [|x l IH]; intros d r.
  - cbn. rewrite decide_False; [done|]. by intros ?%elem_of_nil.
  - cbn [foldl]. rewrite IH.
    destruct (decide (r ∈ l)) as [Hin|Hout].
    + rewrite decide_True; [done|by right].
    + destruct (decide (r = x)) as [->|Hne].
      * rewrite lookup_insert_eq, decide_True; [done|left].
      * rewrite lookup_insert_ne by done. rewrite decide_False; [done|].
        by intros [?|?]%elem_of_cons.
Qed.

(** X11.  After [find_inverses], [inverses_dict] maps every relation to the
    whole relation set, whatever pairs were detected: the test
    [(r1, r2) or (r2, r1) in self.inverse_tuples] is the truth value of the
    tuple [(r1, r2)], so every relation, the relation itself included, is
    added for every relation.  The entries of other keys are left as they
    were. *)
Theorem inverses_dict_lists_all_relations g g' :
  NoDup (relations g) → find_inverses g = Ok g' →
  ∀ r, inverses_dict g' !! r
       = if decide (r ∈ relations g) then Some (relations g)
         else inverses_dict g !! r.
Proof.
  intros Hnd. unfold find_inverses.
  destruct (inverse_loop _ _ _ _) as [out|e]; cbn [mbind result_bind]; [|done].
  intros [= <-] r. cbn [inverses_dict]. unfold build_dict.
  rewrite lookup_build_dict, partners_all.
  by rewrite (set_update_fresh (relations g) []).
Qed.

Lemma inverses_dict_lists_all_relations_witness :
  ∃ g g', prune (load (init 1) (Reader.read scenario_lines 1 rng0).1) 1 1
          = Ok g ∧
          find_inverses g = Ok g' ∧ inverse_tuples g' = [] ∧
          inverses_dict g' !! "bornIn" = Some ["livesIn"; "bornIn"].
Proof.
  destruct (prune (load (init 1) (Reader.read scenario_lines 1 rng0).1) 1 1)
    as [g|] eqn:Hg; [|by vm_compute in Hg].
  destruct (find_inverses g) as [g'|] eqn:Hg'.
  - exists g, g'. split; [reflexivity|]. split; [exact Hg'|].
    assert (Hnd : NoDup (relations g)).
    { vm_compute in Hg. injection Hg as <-.
      apply (bool_decide_unpack _). vm_compute. exact I. }
    pose proof (inverses_dict_lists_all_relations g g' Hnd Hg' "bornIn") as Hd.
    vm_compute in Hg. injection Hg as <-.
    split; [|exact Hd].
    vm_compute in Hg'. injection Hg' as <-. reflexivity.
  - vm_compute in Hg. injection Hg as <-. by vm_compute in Hg'.
Defined.

(** ** Entity numbers and the matrix of movements *)

(** *** [encode] *)

Lemma lookup_etoint (l : list entity) (ent : entity) (i : nat) :
  NoDup l →
  foldl (fun m ie => <[ie.2 := ie.1]> m) (∅ : gmap entity nat) (enumerate l)
    !! ent = Some i ↔ l !! i = Some ent.
Proof.
  intros Hnd. unfold enumerate. rewrite enumerate_from_lookup by done.
  rewrite lookup_empty.
  destruct (list_find (fun x => x = ent) l) as [[j y]|] eqn:Hf.
  - apply list_find_Some in Hf as (Hj & -> & _). simpl. split.
    + by intros [= <-].
    + intros Hi. f_equal. by eapply NoDup_lookup.
  - split; [done|]. intros Hi.
    apply list_find_None in Hf. rewrite list.Forall_forall in Hf.
    exfalso. apply (Hf ent); [|done]. by eapply list_elem_of_lookup_2.
Qed.

Lemma lookup_swap_fold (l : list (entity * nat)) :
  NoDup l.*2 →
  ∀ (m : gmap nat entity) i e,
    foldl (fun m ei => <[ei.2 := ei.1]> m) m l !! i = Some e ↔
    (e, i) ∈ l ∨ ((i ∉ l.*2) ∧ m !! i = Some e).
Proof.
  induction l as [|[e0 i0] l IH]; intros Hnd m i e.
  - cbn. split; [intros ?; right; split; [by intros ?%elem_of_nil|done]|].
    intros [[]%elem_of_nil|[_ ?]]. done.
  - cbn [fmap list_fmap] in Hnd. apply NoDup_cons in Hnd as [Hi0 Hnd].
    cbn [foldl fst snd]. rewrite IH by done. rewrite fmap_cons. cbn [snd].
    rewrite elem_of_cons, not_elem_of_cons. split.
    + intros [Hin|[Hout Hm]]; [by left; right|].
      destruct (decide (i = i0)) as [->|Hne].
      * rewrite lookup_insert_eq in Hm. injection Hm as ->. left. by left.
      * rewrite lookup_insert_ne in Hm by done. right. done.
    + intros [[[= -> ->]|Hin]|[[Hne Hout] Hm]].
      * right. split; [done|]. by rewrite lookup_insert_eq.
      * by left.
      * right. split; [done|]. by rewrite lookup_insert_ne.
Qed.

Lemma encode_tables g :
  NoDup (entities g).*1 →
  ∃ e2i i2e,
    etoint (encode g) = Some e2i ∧ inttoe (encode g) = Some i2e ∧
    (∀ e i, e2i !! e = Some i ↔ (entities g).*1 !! i = Some e) ∧
    (∀ e i, i2e !! i = Some e ↔ (entities g).*1 !! i = Some e).
Proof.
  intros Hnd. eexists _, _. split; [done|]. split; [done|].
  assert (He2i : ∀ e i,
            foldl (fun m ie => <[ie.2 := ie.1]> m) (∅ : gmap entity nat)
              (enumerate (entities g).*1) !! e = Some i ↔
            (entities g).*1 !! i = Some e).
  { intros e i. by apply lookup_etoint. }
  split; [done|]. intros e i.
  set (e2i := foldl (fun m ie => <[ie.2 := ie.1]> m) (∅ : gmap entity nat)
                (enumerate (entities g).*1)) in *.
  rewrite lookup_swap_fold.
  - rewrite lookup_empty, elem_of_map_to_list, He2i. split; [|by left].
    intros [?|[_ ?]]; done.
  - apply NoDup_fmap_2_strong; [|apply NoDup_map_to_list].
    intros [e1 i1] [e2 i2] H1%elem_of_map_to_list H2%elem_of_map_to_list Heq.
    cbn in Heq. subst i2. apply He2i in H1, H2. congruence.
Qed.

(** X12.  [encode] numbers the entities with the contiguous integers from 0
    in the order of the entity keys, and its two tables are inverse to each
    other: [etoint] maps the [i]-th key to [i] and nothing else, [inttoe]
    maps [i] back to the [i]-th key, so [inttoe[etoint[e]] = e] and
    [etoint[inttoe[i]] = i], and both tables have exactly one entry per
    entity. *)
Theorem encode_round_trip g :
  NoDup (entities g).*1 →
  ∃ e2i i2e,
    etoint (encode g) = Some e2i ∧ inttoe (encode g) = Some i2e ∧
    (∀ e i, e2i !! e = Some i ↔ (entities g).*1 !! i = Some e) ∧
    (∀ e i, e2i !! e = Some i ↔ i2e !! i = Some e) ∧
    (∀ e, e ∈ (entities g).*1 ↔ is_Some (e2i !! e)) ∧
    (∀ i, (i < length (entities g))%nat ↔ is_Some (i2e !! i)).
Proof.
  intros Hnd. destruct (encode_tables g Hnd) as (e2i & i2e & H1 & H2 & H3 & H4).
  exists e2i, i2e. split_and!; try done.
  - intros e i. by rewrite H3, H4.
  - intros e. rewrite list_elem_of_lookup. split.
    + intros [i Hi]. exists i. by apply H3.
    + intros [i Hi]. exists i. by apply H3.
  - intros i. rewrite <- (length_fmap fst), <- lookup_lt_is_Some. split.
    + intros [e He]. exists e. by apply H4.
    + intros [e He]. exists e. by apply H4.
Qed.

Lemma encode_round_trip_witness :
  ∃ g e2i i2e,
    graph_of scenario_lines = Ok g ∧
    etoint (encode g) = Some e2i ∧ inttoe (encode g) = Some i2e ∧
    (e2i !! "X" = Some 1%nat ↔ i2e !! 1%nat = Some "X").
Proof.
  destruct (graph_of scenario_lines) as [g|] eqn:Hg; [|by vm_compute in Hg].
  assert (Hnd : NoDup (entities g).*1).
  { vm_compute in Hg. injection Hg as <-.
    apply (bool_decide_unpack _). vm_compute. exact I. }
  destruct (encode_round_trip g Hnd) as (e2i & i2e & H1 & H2 & _ & H3 & _).
  exists g, e2i, i2e. split_and!; [reflexivity|exact H1|exact H2|apply H3].
Defined.

(** *** The table of movements *)

Lemma square_mat_set n m i j v : square n m → square n (mat_set m i j v).
Proof.
  intros [Hlen Hrows]. unfold mat_set, matrix in *. split.
  - by rewrite length_alter.
  - apply Forall_alter; [done|]. intros row _ Hrow.
    by rewrite length_insert.
Qed.

Lemma mat_get_set n m i j v i' j' :
  square n m → (i < n)%nat → (j < n)%nat →
  mat_get (mat_set m i j v) i' j'
  = if decide (i = i' ∧ j = j') then v else mat_get m i' j'.
Proof.
  intros [Hlen Hrows] Hi Hj. unfold mat_get, mat_set, matrix in *.
  destruct (decide (i = i')) as [<-|Hne].
  - rewrite list_lookup_alter_eq.
    destruct (m !! i) as [row|] eqn:Hrow.
    + assert (length row = n) as Hn.
      { rewrite list.Forall_forall in Hrows. apply Hrows.
        by eapply list_elem_of_lookup_2. }
      cbn [fmap option_fmap option_map mbind option_bind].
      destruct (decide (j = j')) as [<-|Hnej].
      * rewrite decide_True by done.
        rewrite list_lookup_insert_eq by lia. done.
      * rewrite decide_False by tauto.
        by rewrite list_lookup_insert_ne.
    + apply lookup_ge_None in Hrow. lia.
  - rewrite list_lookup_alter_ne by done. rewrite decide_False by tauto. done.
Qed.

Lemma count_targets_snoc es e :
  count_targets (es ++ [e])
  = dict_set (edge_target e)
      (S (default 0%nat (dict_get (edge_target e) (count_targets es))))
      (count_targets es).
Proof. unfold count_targets. by rewrite foldl_app. Qed.

Lemma count_to_snoc es e t :
  count_to (es ++ [e]) t
  = (count_to es t + if decide (edge_target e = t) then 1 else 0)%nat.
Proof.
  unfold count_to. rewrite filter_app, length_app. f_equal.
  rewrite filter_cons, filter_nil. by case_decide.
Qed.

Lemma count_targets_get es t :
  dict_get t (count_targets es)
  = if decide (count_to es t = 0)%nat then None else Some (count_to es t).
Proof.
  induction es as [|e es IH] using rev_ind; [done|].
  rewrite count_targets_snoc, count_to_snoc.
  destruct (decide (edge_target e = t)) as [<-|Hne].
  - rewrite dict_get_set_eq, IH.
    repeat case_decide; cbn [default from_option id]; try lia; f_equal; lia.
  - rewrite dict_get_set_ne by done. rewrite IH, Nat.add_0_r. done.
Qed.

Lemma count_targets_keys es : NoDup (count_targets es).*1.
Proof.
  induction es as [|e es IH] using rev_ind; [apply NoDup_nil_2|].
  rewrite count_targets_snoc, dict_set_keys. case_decide as Hin; [done|].
  apply NoDup_app. split_and!; [done| |apply NoDup_singleton].
  intros k Hk ->%list_elem_of_singleton. done.
Qed.

Lemma count_targets_key es t :
  t ∈ (count_targets es).*1 → ∃ e, e ∈ es ∧ edge_target e = t.
Proof.
  intros Hin%dict_get_is_Some. rewrite count_targets_get in Hin.
  case_decide as Hz; [by destruct Hin|]. clear Hin. unfold count_to in Hz.
  destruct (filter _ es) as [|e l] eqn:Hf; [done|].
  assert (e ∈ filter (fun e => edge_target e = t) es) as He
    by (rewrite Hf; left).
  apply list_elem_of_filter in He as [? ?]. by exists e.
Qed.

Section movements.
Variables (n : nat) (e2i : gmap entity nat).
Hypothesis e2i_bound : ∀ t j, e2i !! t = Some j → (j < n)%nat.
Hypothesis e2i_inj : ∀ t t' j, e2i !! t = Some j → e2i !! t' = Some j → t = t'.

Lemma fill_row_spec (s len : nat) counts :
  (s < n)%nat →
  NoDup counts.*1 → (∀ t, t ∈ counts.*1 → is_Some (e2i !! t)) →
  ∀ m, square n m →
  ∃ m', fill_row e2i s len counts m = Ok m' ∧ square n m' ∧
    (∀ i, i ≠ s → m' !! i = m !! i) ∧
    ∀ t j, e2i !! t = Some j →
      mat_get m' s j
      = match dict_get t counts with
        | Some c => (inject_Z (Z.of_nat c) / inject_Z (Z.of_nat len))%Q
        | None => mat_get m s j
        end.
Proof.
  intros Hs. induction counts as [|[t0 c0] counts IH]; intros Hnd Hkeys m Hsq.
  - exists m. split_and!; done.
  - cbn [fmap list_fmap fst] in Hnd. apply NoDup_cons in Hnd as [Ht0 Hnd].
    destruct (Hkeys t0) as [j0 Hj0]; [left|].
    cbn [fill_row]. rewrite Hj0. cbn [lookup_or mbind result_bind].
    destruct (IH Hnd) with (m := mat_set m s j0
                (inject_Z (Z.of_nat c0) / inject_Z (Z.of_nat len))%Q)
      as (m' & Hm' & Hsq' & Hother & Hrow).
    { intros t Ht. apply Hkeys. by right. }
    { by apply square_mat_set. }
    exists m'. split_and!; [done..| |].
    + intros i Hi. rewrite Hother by done. unfold mat_set, matrix.
      by rewrite list_lookup_alter_ne.
    + intros t j Hj. rewrite (Hrow t j Hj). cbn [dict_get].
      destruct (decide (t0 = t)) as [->|Hne].
      * assert (dict_get t counts = None) as -> by by apply dict_get_None.
        assert (j0 = j) as -> by congruence.
        rewrite (mat_get_set n) by eauto. by rewrite decide_True.
      * destruct (dict_get t counts); [done|].
        rewrite (mat_get_set n) by eauto. rewrite decide_False; [done|].
        intros [_ ->]. apply Hne. by eapply e2i_inj.
Qed.

Lemma fill_rows_spec g ents :
  NoDup ents → (∀ ent, ent ∈ ents → is_Some (e2i !! ent)) →
  (∀ ent e, ent ∈ ents → e ∈ default [] (entity_edges g !! ent) →
            is_Some (e2i !! edge_target e)) →
  ∀ m, square n m →
  ∃ m', fill_rows g e2i ents m = Ok m' ∧ square n m' ∧
    ∀ src i tgt j, e2i !! src = Some i → e2i !! tgt = Some j →
      mat_get m' i j
      = match (if decide (src ∈ ents)
               then dict_get tgt
                      (count_targets (default [] (entity_edges g !! src)))
               else None) with
        | Some c =>
            (inject_Z (Z.of_nat c)
             / inject_Z (Z.of_nat
                           (length (default [] (entity_edges g !! src)))))%Q
        | None => mat_get m i j
        end.
Proof.
  induction ents as [|ent ents IH]; intros Hnd Hkeys Htargets m Hsq.
  - exists m. split_and!; [done..|]. intros src i tgt j _ _.
    rewrite decide_False; [done|]. by intros ?%elem_of_nil.
  - apply NoDup_cons in Hnd as [Hent Hnd].
    destruct (Hkeys ent) as [s Hs]; [left|].
    cbn [fill_rows]. rewrite Hs. cbn [lookup_or mbind result_bind].
    set (es := default [] (entity_edges g !! ent)).
    destruct (fill_row_spec s (length es) (count_targets es)) with (m := m)
      as (m1 & Hm1 & Hsq1 & Hother & Hrow); [by eauto|apply count_targets_keys
                                             | |done|].
    { intros t (e & He & <-)%count_targets_key.
      apply (Htargets ent e); [left|done]. }
    rewrite Hm1. cbn [mbind result_bind].
    destruct (IH Hnd) with (m := m1) as (m' & Hm' & Hsq' & Hcells); [..|done|].
    { intros ent' Hin. apply Hkeys. by right. }
    { intros ent' e Hin. apply Htargets. by right. }
    exists m'. split_and!; [done..|].
    intros src i tgt j Hi Hj. rewrite (Hcells src i tgt j Hi Hj).
    destruct (decide (src = ent)) as [->|Hne].
    + assert (i = s) as -> by congruence.
      rewrite (decide_False (P := ent ∈ ents)) by done.
      rewrite decide_True by left. fold es. by rewrite (Hrow tgt j Hj).
    + assert (i ≠ s) as Hsi.
      { intros ->. apply Hne. by eapply e2i_inj. }
      assert (mat_get m1 i j = mat_get m i j) as Hsame.
      { unfold mat_get. by rewrite Hother. }
      destruct (decide (src ∈ ents)) as [Hin|Hout].
      * rewrite decide_True by by right.
        destruct (dict_get tgt _); done.
      * rewrite decide_False; [done|]. by intros [?|?]%elem_of_cons.
Qed.

End movements.

Lemma square_np_empty n fresh : square n (np_empty n fresh).
Proof.
  unfold np_empty, square. rewrite length_fmap, length_seq. split; [done|].
  apply Forall_fmap, Forall_true. intros i. cbn.
  by rewrite length_fmap, length_seq.
Qed.

Lemma mat_get_np_empty n fresh i j :
  (i < n)%nat → (j < n)%nat → mat_get (np_empty n fresh) i j = fresh i j.
Proof.
  intros Hi Hj. unfold mat_get, np_empty, matrix.
  rewrite list_lookup_fmap, lookup_seq_lt by done.
  cbn [fmap option_fmap option_map mbind option_bind].
  by rewrite list_lookup_fmap, lookup_seq_lt.
Qed.

Lemma matrix_movements_spec g fresh :
  NoDup (entities g).*1 →
  (∀ ent e, ent ∈ (entities g).*1 →
            e ∈ default [] (entity_edges g !! ent) →
            edge_target e ∈ (entities g).*1) →
  ∃ m, matrix_movements g fresh = Ok m ∧
    square (length (entities g)) m ∧
    ∀ i j src tgt,
      (entities g).*1 !! i = Some src → (entities g).*1 !! j = Some tgt →
      mat_get m i j
      = match dict_get tgt
                (count_targets (default [] (entity_edges g !! src))) with
        | Some c =>
            (inject_Z (Z.of_nat c)
             / inject_Z
                 (Z.of_nat (length (default [] (entity_edges g !! src)))))%Q
        | None => fresh i j
        end.
Proof.
  intros Hnd Htargets. unfold matrix_movements.
  destruct (encode_tables g Hnd) as (e2i & i2e & He2i & _ & Hidx & _).
  rewrite He2i. cbn [lookup_or mbind result_bind].
  set (n := length (entities g)).
  assert (Hbound : ∀ t j, e2i !! t = Some j → (j < n)%nat).
  { intros t j Hj%Hidx. apply lookup_lt_Some in Hj.
    by rewrite length_fmap in Hj. }
  assert (Hinj : ∀ t t' j, e2i !! t = Some j → e2i !! t' = Some j → t = t').
  { intros t t' j H1%Hidx H2%Hidx. congruence. }
  assert (Hkey : ∀ ent, ent ∈ (entities g).*1 → is_Some (e2i !! ent)).
  { intros ent [i Hi]%list_elem_of_lookup. exists i. by apply Hidx. }
  destruct (fill_rows_spec n e2i Hbound Hinj (encode g) (entities g).*1)
    with (m := np_empty n fresh) as (m & Hm & Hsq & Hcells).
  - done.
  - done.
  - intros ent e Hent He. apply Hkey. by apply (Htargets ent e).
  - apply square_np_empty.
  - exists m. cbn [encode entities]. split_and!; [done..|].
    intros i j src tgt Hi Hj.
    rewrite (Hcells src i tgt j) by by apply Hidx.
    rewrite decide_True by by eapply list_elem_of_lookup_2.
    cbn [encode entity_edges].
    destruct (dict_get tgt _); [done|].
    apply mat_get_np_empty; eapply Hbound; by apply Hidx.
Qed.

(** X13.  The table of movements that [compute_PPR] builds, cell by cell.
    When the entity keys are distinct and the targets of the stored outgoing
    edges are entities, the table is built without error, it is square, and
    the cell of the [i]-th entity [src] and the [j]-th entity [tgt] holds
    the number of stored edges from [src] to [tgt] divided by the number of
    stored edges that leave [src] when there is such an edge, and otherwise
    whatever the buffer returned by [np.empty] held there. *)
Theorem matrix_movements_cells g fresh :
  NoDup (entities g).*1 →
  (∀ ent e, ent ∈ (entities g).*1 →
            e ∈ default [] (entity_edges g !! ent) →
            edge_target e ∈ (entities g).*1) →
  ∃ m, matrix_movements g fresh = Ok m ∧
    square (length (entities g)) m ∧
    ∀ i j src tgt,
      (entities g).*1 !! i = Some src → (entities g).*1 !! j = Some tgt →
      mat_get m i j
      = if decide (count_to (default [] (entity_edges g !! src)) tgt = 0)%nat
        then fresh i j
        else (inject_Z
                (Z.of_nat (count_to (default [] (entity_edges g !! src)) tgt))
              / inject_Z
                  (Z.of_nat (length (default [] (entity_edges g !! src)))))%Q.
Proof.
  intros Hnd Htargets.
  destruct (matrix_movements_spec g fresh Hnd Htargets)
    as (m & Hm & Hsq & Hcells).
  exists m. split_and!; [done..|]. intros i j src tgt Hi Hj.
  rewrite (Hcells i j src tgt Hi Hj), count_targets_get.
  by case_decide.
Qed.

(** *** The table of movements after [read] *)

Lemma reader_endpoints lines prob r :
  NoDup (Reader.read lines prob r).1.1.1.*1 ∧
  ∀ e, e ∈ (Reader.read lines prob r).1.2 →
       edge_source e ∈ (Reader.read lines prob r).1.1.1.*1 ∧
       edge_target e ∈ (Reader.read lines prob r).1.1.1.*1.
Proof.
  rewrite read_kept. cbn [fst snd]. set (ks := kept_lines r 0 prob lines).
  destruct (read_all_keys ks) as [Hnd Hkeys].
  destruct (read_all_edges ks) as [_ Hes].
  split; [done|]. intros [[rel s] t] He%Hes.
  unfold edge_source, edge_target. cbn [fst snd].
  split; apply Hkeys; exists rel; [exists t; by left|exists s; by right].
Qed.

Lemma read_Ok_fields g0 input (min_num_rel : Z) (reach_fraction : Q)
    (remove_inverses : bool) g :
  Preprocess.read g0 input min_num_rel reach_fraction remove_inverses = Ok g →
  entities g = input.1.1 ∧ (∀ e, e ∈ edges g → e ∈ input.2).
Proof.
  unfold Preprocess.read, Preprocess.prune.
  destruct (Preprocess.remove_rels _ _) as [g1|] eqn:Hg1;
    cbn [mbind result_bind]; [|done].
  destruct (Preprocess.find_inverses g1) as [g2|] eqn:Hg2;
    cbn [mbind result_bind]; [|done].
  apply remove_rels_Ok_fields in Hg1 as (Hen1 & _ & _ & _ & _ & _ & Hes1 & _).
  apply find_inverses_Ok_fields in Hg2 as (Hen2 & _ & _ & _ & _ & Hes2 & _).
  destruct (load_fields g0 input) as (Hen & _).
  rewrite edges_load in Hes1.
  destruct remove_inverses.
  - destruct (Preprocess.remove_rels g2 _) as [g3|] eqn:Hg3;
      cbn [mbind result_bind]; [|done].
    apply remove_rels_Ok_fields in Hg3 as (Hen3 & _ & _ & _ & _ & _ & Hes3 & _).
    intros [= <-]. cbn [Preprocess.store_entity_edges entities edges].
    split; [congruence|]. intros e. rewrite Hes3, Hes2, Hes1.
    by intros [_ [_ ?]%list_elem_of_filter]%list_elem_of_filter.
  - cbn [mbind result_bind]. intros [= <-].
    cbn [Preprocess.store_entity_edges entities edges].
    split; [congruence|]. intros e. rewrite Hes2, Hes1.
    by intros [_ ?]%list_elem_of_filter.
Qed.

(** What [read] on a reader's output guarantees to [compute_PPR]. *)
Lemma read_ppr_ready lines prob r g0 (min_num_rel : Z) (reach_fraction : Q)
    (remove_inverses : bool) g :
  entity_edges g0 = ∅ →
  Preprocess.read g0 (Reader.read lines prob r).1 min_num_rel reach_fraction
    remove_inverses = Ok g →
  NoDup (entities g).*1 ∧
  ∀ ent e, ent ∈ (entities g).*1 →
           e ∈ default [] (entity_edges g !! ent) →
           edge_target e ∈ (entities g).*1.
Proof.
  intros Hee Hread.
  destruct (read_Ok_fields _ _ _ _ _ _ Hread) as [Hents Hes].
  destruct (reader_endpoints lines prob r) as [Hnd Hend].
  rewrite Hents. split; [done|]. intros ent e _ He.
  apply Hend, Hes.
  destruct (read_Ok_last _ _ _ _ _ _ Hread) as (g3 & -> & Hee3).
  rewrite store_entity_edges_lookup in He by congruence.
  destruct (filter _ (edges _)) as [|e0 l] eqn:Hf;
    [by apply elem_of_nil in He|].
  cbn [default from_option id] in He. rewrite <- Hf in He.
  by apply list_elem_of_filter in He as [_ ?].
Qed.

Lemma matrix_movements_cells_witness :
  ∃ g m, graph_of skewed = Ok g ∧
         matrix_movements g zeros = Ok m ∧
         mat_get m 0 1 = (inject_Z 1 / inject_Z 2)%Q ∧
         square 4 m.
Proof.
  destruct (graph_of skewed) as [g|] eqn:Hg; [|by vm_compute in Hg].
  destruct (read_ppr_ready skewed 1 rng0 (init 1) 0 1 false g eq_refl Hg)
    as [Hnd Htargets].
  destruct (matrix_movements_cells g zeros Hnd Htargets)
    as (m & Hm & Hsq & Hcells).
  exists g, m. split; [reflexivity|]. split; [exact Hm|].
  vm_compute in Hg. injection Hg as <-. split.
  - exact (Hcells 0%nat 1%nat "a" "b" eq_refl eq_refl).
  - exact Hsq.
Defined.

(** *** [compute_PPR] *)






(** ** The candidates of the random strategies *)

(** *** The search for a replacement *)

Lemma find_new_pool fuel g keep_dom_ran scope rel original :
  ∀ candidates attempts r found candidates' r',
    find_new fuel g keep_dom_ran scope rel original candidates attempts r
    = Ok (found, candidates', r') →
    ∃ draws : nat,
      r' = advance r draws ∧ (draws ≤ 21 - attempts)%nat ∧
      ((length candidates ≤ 1)%nat →
       draws = 0%nat ∧ found = None ∧ candidates' = candidates) ∧
      ((attempts + draws ≤ 11)%nat → candidates' = candidates) ∧
      (candidates' = candidates ∨
       flat_pool g keep_dom_ran scope rel = Ok candidates') ∧
      (∀ x, found = Some x → x ≠ original ∧ x ∈ candidates') ∧
      ((∀ x, x ∈ candidates → x ≠ original) → (attempts ≤ 10)%nat →
       candidates' = candidates ∧ (draws ≤ 1)%nat).
Proof.
  induction fuel as [|fuel IH]; intros candidates attempts r found candidates' r';
    cbn [find_new]; case_bool_decide as Hguard; try done.
  - intros [= <- <- <-]. exists 0%nat. rewrite advance_0.
    split_and!; try done; try lia;
      first [by left|intros _ _; split; [done|lia]].
  - destruct (if bool_decide (10 < attempts)%nat
              then flat_pool g keep_dom_ran scope rel else Ok candidates)
      as [pool|] eqn:Hpool; [|done].
    cbn [mbind result_bind].
    destruct (sample1 pool r) as [[x r1]|] eqn:Hs; [|done].
    cbn [mbind result_bind fst snd].
    apply sample1_snd in Hs as [-> Hx_in].
    assert (Hpool_small : (attempts ≤ 10)%nat → pool = candidates).
    { intros Ha. rewrite bool_decide_eq_false_2 in Hpool by lia.
      by injection Hpool as <-. }
    assert (Hpool_or : pool = candidates ∨
                       flat_pool g keep_dom_ran scope rel = Ok pool).
    { case_bool_decide; [by right|left; by injection Hpool as <-]. }
    destruct (bool_decide (x ≠ original)) eqn:Hx.
    + apply bool_decide_eq_true in Hx.
      intros [= <- <- <-]. exists 1%nat.
      split_and!; try done; try lia.
      * intros Ha. apply Hpool_small. lia.
      * by intros ? [= <-].
      * intros _ Ha. split; [by apply Hpool_small|lia].
    + intros Hrec.
      apply IH in Hrec as (draws & -> & Hd & _ & Hsame & Hor & Hfound & _).
      exists (S draws). rewrite advance_advance.
      split_and!; try done; try lia.
      * intros Ha. rewrite Hsame by lia. apply Hpool_small. lia.
      * destruct Hor as [->|Hor]; [done|by right].
      * intros Hall Ha. exfalso. apply bool_decide_eq_false in Hx.
        apply Hx, Hall. by rewrite <- Hpool_small.
  - intros [= <- <- <-]. exists 0%nat. rewrite advance_0.
    split_and!; try done; try lia;
      first [by left|intros _ _; split; [done|lia]].
Qed.

(** X15.  The search of [generate_negatives_random] for a replacement of
    a source or a target.  It makes at most 21 draws; with at most one
    candidate it makes none and finds nothing; what it finds differs from
    the original value and is a member of the candidates it ends with; and
    the candidates are the ones it was given as long as at most 11 draws
    were made, and otherwise either those or the replacement pool (the
    domain or range of the relation, or all the entities). *)
Theorem replacement_search_is_bounded g keep_dom_ran scope rel original
    candidates r found candidates' r' :
  find_new 21 g keep_dom_ran scope rel original candidates 0 r
  = Ok (found, candidates', r') →
  ∃ draws : nat,
    r' = advance r draws ∧ (draws ≤ 21)%nat ∧
    ((length candidates ≤ 1)%nat →
     draws = 0%nat ∧ found = None ∧ candidates' = candidates) ∧
    ((draws ≤ 11)%nat → candidates' = candidates) ∧
    (candidates' = candidates ∨
     flat_pool g keep_dom_ran scope rel = Ok candidates') ∧
    (∀ x, found = Some x → x ≠ original ∧ x ∈ candidates').
Proof.
  intros (draws & Hr & Hd & Hone & Hsame & Hor & Hfound & _)%find_new_pool.
  exists draws. split_and!; try done; lia.
Qed.

Lemma replacement_search_is_bounded_witness :
  ∃ found candidates' r',
    find_new 21 (init 1) false ∅ "r" "a" ["a"; "a"; "b"] 0 (tape_with 2)
    = Ok (found, candidates', r') ∧
    found = Some "b" ∧
    ∃ draws : nat, r' = advance (tape_with 2) draws ∧ (draws ≤ 21)%nat.
Proof.
  destruct (find_new 21 (init 1) false ∅ "r" "a" ["a"; "a"; "b"] 0
              (tape_with 2)) as [[[found candidates'] r']|] eqn:Hf;
    [|by vm_compute in Hf].
  exists found, candidates', r'. split; [reflexivity|].
  destruct (replacement_search_is_bounded _ _ _ _ _ _ _ _ _ _ Hf)
    as (draws & Hr & Hd & _).
  split; [|by exists draws].
  vm_compute in Hf. by injection Hf as <- _ _.
Defined.

(** *** The negatives of the random strategies *)

Section random_pools.
Variables (g : generator) (positive : edge).
Variables (keep_dom_ran change_source change_target : bool).
Variables (cs0 ct0 : list entity).

Lemma random_loop_pools :
  ∀ number_negatives candidates_source candidates_target negatives r
    negatives' r',
    random_loop g positive number_negatives keep_dom_ran change_source
      change_target candidates_source candidates_target negatives r
    = Ok (negatives', r') →
    pool_inv g positive keep_dom_ran (domains g) cs0 candidates_source →
    pool_inv g positive keep_dom_ran (ranges g) ct0 candidates_target →
    Forall (from_pools g positive keep_dom_ran change_source
              change_target cs0 ct0) negatives →
    Forall (from_pools g positive keep_dom_ran change_source
              change_target cs0 ct0) negatives' ∧
    (length negatives' ≤ length negatives + number_negatives)%nat ∧
    ∃ draws : nat, r' = advance r draws ∧ (draws ≤ 42 * number_negatives)%nat.
Proof.
  induction number_negatives as [|n IH];
    intros cs ct negatives r negatives' r'; cbn [random_loop].
  - intros [= <- <-] _ _ Hall. split_and!; [done|lia|].
    exists 0%nat. rewrite advance_0. split; [done|lia].
  - destruct (if change_source then _ else _) as [[[source cs'] r1]|] eqn:Hs;
      [|done].
    cbn [mbind result_bind].
    destruct (if change_target then _ else _) as [[[target ct'] r2]|] eqn:Ht;
      [|done].
    cbn [mbind result_bind].
    intros Hloop Hcs Hct Hall.
    assert (Hsrc : pool_inv g positive keep_dom_ran (domains g) cs0 cs' ∧
              (∃ d1 : nat, r1 = advance r d1 ∧ (d1 ≤ 21)%nat) ∧
              ∀ x, source = Some x →
                (if change_source then x ≠ edge_source positive
                 else x = edge_source positive) ∧
                (change_source = true → x ∈ cs')).
    { destruct change_source.
      - apply find_new_pool in Hs
          as (d & -> & Hd & _ & _ & Hor & Hfound & _).
        split_and!.
        + destruct Hor as [->|Hor]; [done|by right].
        + exists d. split; [done|lia].
        + intros x Hx. destruct (Hfound x Hx). done.
      - injection Hs as <- <- <-. split_and!; [done| |].
        + exists 0%nat. rewrite advance_0. split; [done|lia].
        + intros x [= <-]. done. }
    destruct Hsrc as (Hcs' & (d1 & -> & Hd1) & Hsrc).
    assert (Htgt : pool_inv g positive keep_dom_ran (ranges g) ct0 ct' ∧
              (∃ d2 : nat, r2 = advance (advance r d1) d2 ∧ (d2 ≤ 21)%nat) ∧
              ∀ x, target = Some x →
                (if change_target then x ≠ edge_target positive
                 else x = edge_target positive) ∧
                (change_target = true → x ∈ ct')).
    { destruct change_target.
      - apply find_new_pool in Ht
          as (d & -> & Hd & _ & _ & Hor & Hfound & _).
        split_and!.
        + destruct Hor as [->|Hor]; [done|by right].
        + exists d. split; [done|lia].
        + intros x Hx. destruct (Hfound x Hx). done.
      - injection Ht as <- <- <-. split_and!; [done| |].
        + exists 0%nat. rewrite advance_0. split; [done|lia].
        + intros x [= <-]. done. }
    destruct Htgt as (Hct' & (d2 & -> & Hd2) & Htgt).
    apply IH in Hloop as (Hall' & Hlen & d & -> & Hd); [|done|done|].
    + split_and!; [done| |].
      * destruct source, target; rewrite ?length_app in Hlen;
          simpl in Hlen; lia.
      * exists (d1 + (d2 + d))%nat. rewrite !advance_advance.
        split; [done|lia].
    + destruct source as [s|], target as [t|]; try done.
      apply Forall_app. split; [done|]. apply Forall_singleton.
      destruct (Hsrc s eq_refl) as [Hs1 Hs2].
      destruct (Htgt t eq_refl) as [Ht1 Ht2].
      split_and!; [by split_and!| |].
      * intros Hc. specialize (Hs2 Hc). cbn [edge_source fst snd].
        destruct Hcs' as [->|Hpool]; [by left|right; by eexists].
      * intros Hc. specialize (Ht2 Hc). cbn [edge_target fst snd].
        destruct Hct' as [->|Hpool]; [by left|right; by eexists].
Qed.

End random_pools.

Lemma initial_candidates_pool g rel keep_dom_ran equal_probabilities
    component component' scope c0 :
  initial_candidates g rel keep_dom_ran true equal_probabilities component
    component' scope = Ok c0 →
  c0 = initial_pool g rel keep_dom_ran equal_probabilities component
         component' scope.
Proof.
  unfold initial_candidates, initial_pool, edges_of_rel.
  destruct keep_dom_ran.
  - destruct (dict_get rel (grouped_edges g)) as [pairs|]; [|done].
    cbn [lookup_or mbind result_bind default from_option id].
    destruct equal_probabilities; cbn [andb].
    + destruct (scope !! rel); cbn; [by intros [= <-]|done].
    + by intros [= <-].
  - cbn [mbind result_bind]. destruct equal_probabilities; cbn [andb].
    + destruct (scope !! rel); cbn; [by intros [= <-]|done].
    + by intros [= <-].
Qed.

Lemma flat_pool_later g keep_dom_ran scope rel pool :
  flat_pool g keep_dom_ran scope rel = Ok pool →
  pool = later_pool g keep_dom_ran scope rel.
Proof.
  unfold flat_pool, later_pool. destruct keep_dom_ran.
  - destruct (scope !! rel); cbn; [by intros [= <-]|done].
  - by intros [= <-].
Qed.

(** X16.  The negatives of [generate_negatives_random], for every
    combination of its flags.  At most [number_negatives] are returned, after
    at most 42 draws for each one requested.  Every negative keeps the
    relation of the positive; a component that is not changed is the
    positive's, a changed one differs from the positive's and is a member of
    the candidates the search started from (the sources or targets of the
    relation's edges; with the whole graph as scope, component 0 or 1 of the
    edge triples; with equal probabilities, the domain or range) or of the
    pool that replaces them (the domain or range of the relation, or all the
    entities). *)
Theorem random_negatives_come_from_pools g positive number_negatives
    keep_dom_ran change_source change_target equal_probabilities r
    negatives r' :
  generate_negatives_random g positive number_negatives keep_dom_ran
    change_source change_target equal_probabilities r = Ok (negatives, r') →
  (length negatives ≤ number_negatives)%nat ∧
  (∃ draws : nat, r' = advance r draws ∧ (draws ≤ 42 * number_negatives)%nat) ∧
  ∀ e, e ∈ negatives →
    corrupts change_source change_target positive e ∧
    (change_source = true →
     edge_source e ∈ initial_pool g (edge_rel positive) keep_dom_ran
                       equal_probabilities fst edge_rel (domains g) ∨
     edge_source e ∈ later_pool g keep_dom_ran (domains g)
                       (edge_rel positive)) ∧
    (change_target = true →
     edge_target e ∈ initial_pool g (edge_rel positive) keep_dom_ran
                       equal_probabilities snd edge_source (ranges g) ∨
     edge_target e ∈ later_pool g keep_dom_ran (ranges g)
                       (edge_rel positive)).
Proof.
  unfold generate_negatives_random.
  destruct (initial_candidates _ _ _ change_source _ _ _ _) as [cs|] eqn:Hcs;
    [|done].
  cbn [mbind result_bind].
  destruct (initial_candidates _ _ _ change_target _ _ _ _) as [ct|] eqn:Hct;
    [|done].
  cbn [mbind result_bind]. intros Hloop.
  apply (random_loop_pools g positive keep_dom_ran change_source change_target
           cs ct) in Hloop as (Hall & Hlen & Hdraws);
    [|by left|by left|constructor].
  split_and!; [done|done|]. intros e He.
  rewrite list.Forall_forall in Hall. destruct (Hall e He) as (Hc & Hs & Ht).
  split_and!; [done| |].
  - intros ->. destruct (Hs eq_refl) as [Hin|(pool & Hpool & Hin)].
    + left. by rewrite <- (initial_candidates_pool _ _ _ _ _ _ _ _ Hcs).
    + right. by rewrite <- (flat_pool_later _ _ _ _ _ Hpool).
  - intros ->. destruct (Ht eq_refl) as [Hin|(pool & Hpool & Hin)].
    + left. by rewrite <- (initial_candidates_pool _ _ _ _ _ _ _ _ Hct).
    + right. by rewrite <- (flat_pool_later _ _ _ _ _ Hpool).
Qed.

Lemma random_negatives_come_from_pools_witness :
  ∃ g negatives r',
    graph_of skewed = Ok g ∧
    generate_negatives_random g ("r", "a", "b") 2 true true false false rng0
    = Ok (negatives, r') ∧
    (length negatives ≤ 2)%nat.
Proof.
  destruct (graph_of skewed) as [g|] eqn:Hg; [|by vm_compute in Hg].
  destruct (generate_negatives_random g ("r", "a", "b") 2 true true false
              false rng0) as [[negatives r']|] eqn:Hn.
  - exists g, negatives, r'. split; [reflexivity|]. split; [exact Hn|].
    by destruct (random_negatives_come_from_pools _ _ _ _ _ _ _ _ _ _ Hn)
      as [? _].
  - vm_compute in Hg. injection Hg as <-. by vm_compute in Hn.
Defined.

Section random_first_draw.
Variables (g : generator) (positive : edge).
Variables (keep_dom_ran change_source change_target : bool).
Variables (cs0 ct0 : list entity).

Lemma random_loop_first_draw :
  ∀ number_negatives candidates_source candidates_target negatives r
    negatives' r',
    random_loop g positive number_negatives keep_dom_ran change_source
      change_target candidates_source candidates_target negatives r
    = Ok (negatives', r') →
    (all_new change_source cs0 (edge_source positive) →
     candidates_source = cs0) →
    (all_new change_target ct0 (edge_target positive) →
     candidates_target = ct0) →
    Forall (fun e =>
              (all_new change_source cs0 (edge_source positive) →
               edge_source e ∈ cs0) ∧
              (all_new change_target ct0 (edge_target positive) →
               edge_target e ∈ ct0)) negatives →
    Forall (fun e =>
              (all_new change_source cs0 (edge_source positive) →
               edge_source e ∈ cs0) ∧
              (all_new change_target ct0 (edge_target positive) →
               edge_target e ∈ ct0)) negatives'.
Proof.
  induction number_negatives as [|n IH];
    intros cs ct negatives r negatives' r'; cbn [random_loop].
  - by intros [= <- <-].
  - destruct (if change_source then _ else _) as [[[source cs'] r1]|] eqn:Hs;
      [|done].
    cbn [mbind result_bind].
    destruct (if change_target then _ else _) as [[[target ct'] r2]|] eqn:Ht;
      [|done].
    cbn [mbind result_bind].
    intros Hloop Hcs Hct Hall.
    assert (Hsrc : all_new change_source cs0 (edge_source positive) →
              cs' = cs0 ∧ ∀ x, source = Some x → x ∈ cs0).
    { intros [Hc Hnew]. specialize (Hcs (conj Hc Hnew)). subst cs.
      rewrite Hc in Hs.
      apply find_new_pool in Hs as (d & _ & _ & _ & _ & _ & Hfound & Hfirst).
      destruct Hfirst as [-> _]; [done|lia|]. split; [done|].
      intros x Hx. by destruct (Hfound x Hx). }
    assert (Htgt : all_new change_target ct0 (edge_target positive) →
              ct' = ct0 ∧ ∀ x, target = Some x → x ∈ ct0).
    { intros [Hc Hnew]. specialize (Hct (conj Hc Hnew)). subst ct.
      rewrite Hc in Ht.
      apply find_new_pool in Ht as (d & _ & _ & _ & _ & _ & Hfound & Hfirst).
      destruct Hfirst as [-> _]; [done|lia|]. split; [done|].
      intros x Hx. by destruct (Hfound x Hx). }
    apply IH in Hloop; [done|by intros [? _]%Hsrc|by intros [? _]%Htgt|].
    destruct source as [s|], target as [t|]; try done.
    apply Forall_app. split; [done|]. apply Forall_singleton.
    cbn [edge_source edge_target fst snd]. split.
    + intros [_ Hx]%Hsrc. by apply Hx.
    + intros [_ Hx]%Htgt. by apply Hx.
Qed.


End random_first_draw.

(** X17.  With the whole graph as scope (the [_random] strategies), the
    replacement of a source is drawn from component 0 of the edge triples,
    which is the relation name, and the replacement of a target from
    component 1, which is the source.  When no relation is named like the
    positive's source, the first draw always succeeds, so every negative
    returned has the name of a relation as its source; when no edge leaves
    the positive's target, every negative has the source of some edge as its
    target. *)
Theorem whole_graph_scope_draws_relation_names g positive number_negatives
    change_source change_target r negatives r' :
  generate_negatives_random g positive number_negatives false change_source
    change_target false r = Ok (negatives, r') →
  (change_source = true →
   (∀ e, e ∈ edges g → edge_rel e ≠ edge_source positive) →
   ∀ e, e ∈ negatives → edge_source e ∈ edge_rel <$> edges g) ∧
  (change_target = true →
   (∀ e, e ∈ edges g → edge_source e ≠ edge_target positive) →
   ∀ e, e ∈ negatives → edge_target e ∈ edge_source <$> edges g).
Proof.
  unfold generate_negatives_random.
  destruct (initial_candidates _ _ _ change_source _ _ _ _) as [cs|] eqn:Hcs;
    [|done].
  cbn [mbind result_bind].
  destruct (initial_candidates _ _ _ change_target _ _ _ _) as [ct|] eqn:Hct;
    [|done].
  cbn [mbind result_bind]. intros Hloop.
  apply (random_loop_first_draw g positive false change_source change_target
           cs ct) in Hloop; [|done|done|constructor].
  rewrite list.Forall_forall in Hloop. split.
  - intros -> Hnew e He. apply initial_candidates_pool in Hcs.
    cbn in Hcs. subst cs. apply (Hloop e He). split; [done|].
    intros x (e' & -> & He')%list_elem_of_fmap. by apply Hnew.
  - intros -> Hnew e He. apply initial_candidates_pool in Hct.
    cbn in Hct. subst ct. apply (Hloop e He). split; [done|].
    intros x (e' & -> & He')%list_elem_of_fmap. by apply Hnew.
Qed.

Lemma whole_graph_scope_draws_relation_names_witness :
  ∃ g r',
    graph_of skewed = Ok g ∧
    generate_negatives_random g ("r", "a", "b") 1 false true false false rng0
    = Ok ([("r", "r", "b")], r') ∧
    ∀ e, e ∈ [("r", "r", "b")] → edge_source e ∈ edge_rel <$> edges g.
Proof.
  destruct (graph_of skewed) as [g|] eqn:Hg; [|by vm_compute in Hg].
  destruct (generate_negatives_random g ("r", "a", "b") 1 false true false
              false rng0) as [[negatives r']|] eqn:Hn.
  - exists g, r'.
    assert (Hneg : negatives = [("r", "r", "b")]).
    { vm_compute in Hg. injection Hg as <-. vm_compute in Hn.
      by injection Hn as <- _. }
    subst negatives. split; [reflexivity|]. split; [exact Hn|].
    destruct (whole_graph_scope_draws_relation_names _ _ _ _ _ _ _ _ Hn)
      as [Hs _].
    apply Hs; [reflexivity|].
    vm_compute in Hg. injection Hg as <-. intros e He.
    repeat (apply elem_of_cons in He as [->|He]; [discriminate|]).
    by apply elem_of_nil in He.
  - vm_compute in Hg. injection Hg as <-. by vm_compute in Hn.
Defined.



(** ** The negatives of the page rank and of a bucket *)

(** *** The PPR strategy *)

Lemma ppr_candidates_spec i2e scope rel row :
  ∀ cands, ppr_candidates i2e scope rel row = Ok cands →
    ∀ c, c ∈ cands →
      (0 < c.2)%Q ∧ ∃ pool, scope !! rel = Some pool ∧ c.1 ∈ pool.
Proof.
  induction row as [|[i rank] row IH]; intros cands; cbn [ppr_candidates].
  - intros [= <-] c []%elem_of_nil.
  - destruct (Qlt_bool 0 rank) eqn:Hrank.
    + destruct (i2e !! i) as [ent|]; [|done].
      cbn [lookup_or mbind result_bind].
      destruct (scope !! rel) as [pool|] eqn:Hpool; [|done].
      cbn [lookup_or mbind result_bind].
      destruct (ppr_candidates i2e scope rel row) as [rest|]; [|done].
      cbn [mbind result_bind]. unfold member.
      case_bool_decide as Hin.
      * intros [= <-] c [->|Hc]%elem_of_cons; [|by apply (IH _ eq_refl)].
        split; [by apply Qlt_bool_iff|]. by exists pool.
      * intros [= <-]. by apply (IH _ eq_refl).
    + cbn [mbind result_bind].
      destruct (ppr_candidates i2e scope rel row) as [rest|]; [|done].
      cbn [mbind result_bind]. intros [= <-]. by apply (IH _ eq_refl).
Qed.

Lemma pick_spec cands :
  ∀ chosen l, pick cands chosen = Ok l →
    length l = length chosen ∧ ∀ x, x ∈ l → ∃ c, c ∈ cands ∧ c.1 = x.
Proof.
  induction chosen as [|i chosen IH]; intros l; cbn [pick].
  - intros [= <-]. split; [done|]. by intros x ?%elem_of_nil.
  - destruct (cands !! i) as [c|] eqn:Hc; [|done].
    cbn [lookup_or mbind result_bind].
    destruct (pick cands chosen) as [rest|]; [|done].
    cbn [mbind result_bind]. intros [= <-].
    destruct (IH rest eq_refl) as [Hlen Hmem]. split; [simpl; lia|].
    intros x [->|Hx]%elem_of_cons; [|by apply Hmem].
    exists c. split; [by eapply list_elem_of_lookup_2|done].
Qed.

Lemma uniform_samples_spec size :
  ∀ r, length (uniform_samples size r).1 = size ∧
       (uniform_samples size r).2 = advance r size.
Proof.
  induction size as [|size IH]; intros r; cbn [uniform_samples].
  - by rewrite advance_0.
  - rewrite random_eq. destruct (IH (advance r 1)) as [Hlen Hr].
    destruct (uniform_samples size (advance r 1)) as [us r''].
    cbn [fst snd length] in *. split; [lia|].
    rewrite Hr, advance_advance. f_equal.
Qed.

Lemma np_choice_spec p size r ids r' :
  np_choice p size r = Ok (ids, r') → length ids = size ∧ r' = advance r size.
Proof.
  unfold np_choice. destruct p as [|x p]; [done|].
  destruct (uniform_samples_spec size r) as [Hlen Hr].
  destruct (uniform_samples size r) as [us r''].
  cbn [fst snd] in *. intros [= <- <-]. by rewrite length_fmap.
Qed.

Lemma generate_negatives_PPR_shape g positive number_negatives r negatives
    r' :
  generate_negatives_PPR g positive number_negatives r = Ok (negatives, r') →
  ∃ new_sources new_targets,
    negatives
    = (fun st : entity * entity => (edge_rel positive, st.1, st.2))
        <$> zip new_sources new_targets ∧
    length new_sources = number_negatives ∧
    length new_targets = number_negatives ∧
    r' = advance r (number_negatives + number_negatives) ∧
    (∀ s, s ∈ new_sources →
          s ∈ default [] (domains g !! edge_rel positive)) ∧
    (∀ t, t ∈ new_targets →
          t ∈ default [] (ranges g !! edge_rel positive)).
Proof.
  unfold generate_negatives_PPR.
  destruct (ranks g) as [rk|]; [|done].
  destruct (etoint g) as [e2i|]; [|done].
  cbn [lookup_or mbind result_bind].
  destruct (e2i !! edge_source positive) as [si|]; [|done].
  cbn [lookup_or mbind result_bind].
  destruct (rk !! si) as [source_ranks|]; [|done].
  cbn [lookup_or mbind result_bind].
  destruct (e2i !! edge_target positive) as [ti|]; [|done].
  cbn [lookup_or mbind result_bind].
  destruct (rk !! ti) as [target_ranks|]; [|done].
  cbn [lookup_or mbind result_bind].
  destruct (inttoe g) as [i2e|]; [|done].
  cbn [lookup_or mbind result_bind].
  destruct (ppr_candidates i2e (domains g) _ _) as [sources|] eqn:Hsources;
    [|done].
  cbn [mbind result_bind].
  destruct (ppr_candidates i2e (ranges g) _ _) as [targets|] eqn:Htargets;
    [|done].
  cbn [mbind result_bind].
  destruct (np_choice (normalise sources) number_negatives r)
    as [[ids_s r1]|] eqn:Hids_s; [|done].
  cbn [mbind result_bind fst snd].
  destruct (np_choice (normalise targets) number_negatives r1)
    as [[ids_t r2]|] eqn:Hids_t; [|done].
  cbn [mbind result_bind fst snd].
  destruct (pick sources ids_s) as [new_sources|] eqn:Hps; [|done].
  cbn [mbind result_bind].
  destruct (pick targets ids_t) as [new_targets|] eqn:Hpt; [|done].
  cbn [mbind result_bind]. intros [= <- <-].
  apply np_choice_spec in Hids_s as [Hls ->].
  apply np_choice_spec in Hids_t as [Hlt ->].
  apply pick_spec in Hps as [Hlps Hps]. apply pick_spec in Hpt as [Hlpt Hpt].
  exists new_sources, new_targets.
  split_and!; [done|lia|lia|by rewrite advance_advance| |].
  - intros s Hs. destruct (Hps s Hs) as (c & Hc & <-).
    destruct (ppr_candidates_spec _ _ _ _ _ Hsources c Hc)
      as (_ & pool & -> & Hin). done.
  - intros t Ht. destruct (Hpt t Ht) as (c & Hc & <-).
    destruct (ppr_candidates_spec _ _ _ _ _ Htargets c Hc)
      as (_ & pool & -> & Hin). done.
Qed.

(** X19.  The negatives of [generate_negatives_PPR].  When the function
    returns, it returns exactly [number_negatives] negatives, after exactly
    two draws for each; every negative has the relation of the positive, a
    source in the domain of the relation and a target in its range.  Nothing
    compares the source or the target with those of the positive. *)
Theorem ppr_negatives_stay_in_domain_and_range g positive number_negatives
    r negatives r' :
  generate_negatives_PPR g positive number_negatives r = Ok (negatives, r') →
  length negatives = number_negatives ∧
  r' = advance r (2 * number_negatives) ∧
  ∀ e, e ∈ negatives →
    edge_rel e = edge_rel positive ∧
    edge_source e ∈ default [] (domains g !! edge_rel positive) ∧
    edge_target e ∈ default [] (ranges g !! edge_rel positive).
Proof.
  intros (new_sources & new_targets & -> & Hls & Hlt & -> & Hs & Ht)
    %generate_negatives_PPR_shape.
  split_and!.
  - rewrite length_fmap, length_zip_with. lia.
  - f_equal. lia.
  - intros e ([s t] & -> & Hst)%list_elem_of_fmap.
    cbn [edge_rel edge_source edge_target fst snd].
    split_and!; [done| |].
    + by apply Hs, (elem_of_zip_l _ _ _ _ Hst).
    + by apply Ht, (elem_of_zip_r _ _ _ _ Hst).
Qed.

Lemma ppr_negatives_stay_in_domain_and_range_witness :
  ∃ g g' negatives r',
    graph_of one_edge = Ok g ∧
    compute_PPR g (Some 5) (2 # 100) zeros = Ok g' ∧
    generate_negatives_PPR g' ("r", "a", "b") 2 rng0 = Ok (negatives, r') ∧
    length negatives = 2%nat ∧ r' = advance rng0 4.
Proof.
  destruct (graph_of one_edge) as [g|] eqn:Hg; [|by vm_compute in Hg].
  destruct (compute_PPR g (Some 5) (2 # 100) zeros) as [g'|] eqn:Hg'.
  - destruct (generate_negatives_PPR g' ("r", "a", "b") 2 rng0)
      as [[negatives r']|] eqn:Hn.
    + exists g, g', negatives, r'.
      destruct (ppr_negatives_stay_in_domain_and_range _ _ _ _ _ _ Hn)
        as (Hlen & Hr & _).
      split_and!; [reflexivity|exact Hg'|exact Hn|exact Hlen|exact Hr].
    + vm_compute in Hg. injection Hg as <-.
      vm_compute in Hg'. injection Hg' as <-. by vm_compute in Hn.
  - vm_compute in Hg. injection Hg as <-. by vm_compute in Hg'.
Defined.

(** *** The loop of [generate_negatives] *)

Lemma count_negatives_le fuel :
  ∀ factor num r n r',
    count_negatives fuel factor num r = Ok (n, r') → (n ≤ num + fuel)%nat.
Proof.
  induction fuel as [|fuel IH]; intros factor num r n r';
    rewrite count_negatives_unfold; destruct (Qlt_bool _ _); try done.
  - intros [= <- _]. lia.
  - intros Hrec%IH. lia.
  - intros [= <- _]. lia.
Qed.

Lemma draw_num_negatives_le negatives_factor r n r' :
  draw_num_negatives negatives_factor r = Ok (n, r') →
  (n ≤ Z.to_nat (Qceiling negatives_factor))%nat.
Proof. unfold draw_num_negatives. intros H%count_negatives_le. lia. Qed.

(** What a recognized strategy returns for a positive: negatives with the
    relation of the positive, and no more than were requested. *)
Lemma dispatch_spec g strategy positive n r m :
  dispatch g strategy positive n r = Some m →
  ∀ negatives r', m = Ok (negatives, r') →
    (length negatives ≤ n)%nat ∧
    ∀ e, e ∈ negatives → edge_rel e = edge_rel positive.
Proof.
  unfold dispatch. intros Hd negatives r' Hm.
  assert (Hrandom : ∀ keep cs ct,
            generate_negatives_random g positive n keep cs ct false r
            = Ok (negatives, r') →
            (length negatives ≤ n)%nat ∧
            ∀ e, e ∈ negatives → edge_rel e = edge_rel positive).
  { intros keep cs ct [Hall Hlen]%generate_negatives_random_corrupts.
    split; [done|]. intros e He. rewrite list.Forall_forall in Hall.
    by destruct (Hall e He) as [? _]. }
  repeat (case_decide; [injection Hd as <-; by eapply Hrandom|]).
  case_decide; [|done]. injection Hd as <-.
  apply generate_negatives_PPR_shape in Hm
    as (new_sources & new_targets & -> & Hls & Hlt & _).
  split; [rewrite length_fmap, length_zip_with; lia|].
  by intros e ([s t] & -> & _)%list_elem_of_fmap.
Qed.

Lemma dispatch_None g strategy positive n r :
  dispatch g strategy positive n r = None → ¬ recognized strategy.
Proof.
  unfold dispatch, recognized. repeat (case_decide; [done|]). intros _ Hin.
  repeat (apply elem_of_cons in Hin as [->|Hin]; [done|]).
  by apply elem_of_nil in Hin.
Qed.

Lemma negatives_loop_ignored g negatives_factor strategy reject :
  ∀ positives negatives ignored new_negatives r negatives' ignored'
    new_negatives' r',
    negatives_loop g negatives_factor strategy reject positives
      (negatives, ignored, new_negatives, r)
    = Ok (negatives', ignored', new_negatives', r') →
    (∀ rel, rel ∈ ignored → rel ∈ ignored') ∧
    (∀ rel, rel ∈ ignored' →
       rel ∈ ignored ∨
       (reject = true ∧ ∃ p, p ∈ positives ∧ edge_rel p = rel)) ∧
    (reject = false → ignored' = ignored).
Proof.
  induction positives as [|positive positives IH];
    intros negatives ignored new_negatives r negatives' ignored'
      new_negatives' r'; cbn [negatives_loop].
  - intros [= <- <- <- <-]. split_and!; try done. by left.
  - assert (Hcons : ∀ ign,
              ((∀ rel, rel ∈ ign → rel ∈ ignored') ∧
               (∀ rel, rel ∈ ignored' →
                  rel ∈ ign ∨
                  (reject = true ∧ ∃ p, p ∈ positives ∧ edge_rel p = rel)) ∧
               (reject = false → ignored' = ign)) →
              ign = ignored ∨
              (reject = true ∧ ign = set_add (edge_rel positive) ignored) →
              (∀ rel, rel ∈ ignored → rel ∈ ignored') ∧
              (∀ rel, rel ∈ ignored' →
                 rel ∈ ignored ∨
                 (reject = true ∧
                  ∃ p, p ∈ positive :: positives ∧ edge_rel p = rel)) ∧
              (reject = false → ignored' = ignored)).
    { intros ign (H1 & H2 & H3) [->|[Hrej ->]].
      - split_and!; [done| |done]. intros rel [?|(? & p & ? & ?)]%H2;
          [by left|right]. split; [done|]. exists p. split; [by right|done].
      - split_and!.
        + intros rel Hrel. apply H1, elem_of_set_add. by right.
        + intros rel [[->|?]%elem_of_set_add|(? & p & ? & ?)]%H2.
          * right. split; [done|]. exists positive. split; [left|done].
          * by left.
          * right. split; [done|]. exists p. split; [by right|done].
        + congruence. }
    case_bool_decide as Hign.
    + intros Hrec%IH. apply (Hcons ignored); [done|by left].
    + destruct (draw_num_negatives negatives_factor r) as [[n r1]|]; [|done].
      cbn [mbind result_bind fst snd].
      destruct (match dispatch _ _ _ _ _ with
                | Some m => _
                | None => _
                end) as [[b1 b2]|]; [|done].
      cbn [mbind result_bind fst snd].
      destruct b1 as [new|]; [|done]. cbn [lookup_or mbind result_bind].
      case_bool_decide.
      * intros Hrec%IH. apply (Hcons ignored); [done|by left].
      * destruct reject eqn:Hrej.
        -- intros Hrec%IH. apply (Hcons _ Hrec). by right.
        -- intros Hrec%IH. apply (Hcons ignored); [done|by left].
Qed.

Lemma negatives_loop_new g negatives_factor strategy reject :
  recognized strategy →
  ∀ positives negatives ignored new_negatives r negatives' ignored'
    new_negatives' r',
    negatives_loop g negatives_factor strategy reject positives
      (negatives, ignored, new_negatives, r)
    = Ok (negatives', ignored', new_negatives', r') →
    ∃ new,
      negatives' = negatives ++ new ∧
      (length new
       ≤ length positives * Z.to_nat (Qceiling negatives_factor))%nat ∧
      ∀ e, e ∈ new →
        ∃ p, p ∈ positives ∧ edge_rel e = edge_rel p ∧
             edge_rel p ∉ ignored.
Proof.
  intros Hrec.
  induction positives as [|positive positives IH];
    intros negatives ignored new_negatives r negatives' ignored'
      new_negatives' r'; cbn [negatives_loop].
  - intros [= <- <- <- <-]. exists []. rewrite app_nil_r.
    split_and!; [done|simpl; lia|]. by intros e ?%elem_of_nil.
  - assert (Hskip : ∀ (ign : list relation) (neg0 new0 : list edge),
              (∀ rel, rel ∈ ignored → rel ∈ ign) →
              (∃ new, negatives' = neg0 ++ new ∧
                 (length new
                  ≤ length positives
                    * Z.to_nat (Qceiling negatives_factor))%nat ∧
                 ∀ e, e ∈ new →
                   ∃ p, p ∈ positives ∧ edge_rel e = edge_rel p ∧
                        edge_rel p ∉ ign) →
              neg0 = negatives ++ new0 →
              (length new0 ≤ Z.to_nat (Qceiling negatives_factor))%nat →
              (∀ e, e ∈ new0 → edge_rel e = edge_rel positive ∧
                               edge_rel positive ∉ ignored) →
              ∃ new, negatives' = negatives ++ new ∧
                (length new
                 ≤ length (positive :: positives)
                   * Z.to_nat (Qceiling negatives_factor))%nat ∧
                ∀ e, e ∈ new →
                  ∃ p, p ∈ positive :: positives ∧ edge_rel e = edge_rel p ∧
                       edge_rel p ∉ ignored).
    { intros ign neg0 new0 Hsub (new & -> & Hlen & Hmem) -> Hlen0 Hmem0.
      exists (new0 ++ new). rewrite app_assoc. split_and!; [done| |].
      - rewrite length_app. cbn [length]. lia.
      - intros e [He|He]%elem_of_app.
        + exists positive. destruct (Hmem0 e He). split_and!; [left|done..].
        + destruct (Hmem e He) as (p & Hp & Hrel & Hnot).
          exists p. split_and!; [by right|done|]. intros Hin. by apply Hnot, Hsub. }
    case_bool_decide as Hign.
    + intros Hloop%IH. apply (Hskip ignored negatives []); try done.
      * by rewrite app_nil_r.
      * simpl. lia.
      * by intros e ?%elem_of_nil.
    + destruct (draw_num_negatives negatives_factor r) as [[n r1]|] eqn:Hn;
        [|done].
      cbn [mbind result_bind fst snd].
      apply draw_num_negatives_le in Hn.
      destruct (dispatch (set_ignored g ignored) strategy positive n r1)
        as [m|] eqn:Hd; [|by apply dispatch_None in Hd].
      destruct m as [[new r2]|] eqn:Hm; [|done].
      cbn [mbind result_bind fst snd lookup_or].
      destruct (dispatch_spec _ _ _ _ _ _ Hd new r2 eq_refl) as [Hlen Hrel].
      case_bool_decide.
      * intros Hloop%IH. apply (Hskip ignored (negatives ++ new) new);
          try done; [lia|]. intros e He. split; [by apply Hrel|done].
      * destruct reject.
        -- intros Hloop%IH.
           apply (Hskip (set_add (edge_rel positive) ignored) negatives []);
             try done.
           ++ intros rel Hin. apply elem_of_set_add. by right.
           ++ by rewrite app_nil_r.
           ++ simpl. lia.
           ++ by intros e ?%elem_of_nil.
        -- intros Hloop%IH. apply (Hskip ignored negatives []); try done.
           ++ by rewrite app_nil_r.
           ++ simpl. lia.
           ++ by intros e ?%elem_of_nil.
Qed.

(** X20.  [generate_negatives] changes one thing in the stored splits: the
    negatives of the bucket it is called for.  The other splits, the other
    bucket of the split and the positives of both buckets are left as they
    were, and so are the relations, the edges, the entities and the
    per-relation tables.  The ignored relations only grow, a relation is
    added only with [reject_rel_after_failure] and only when it is the
    relation of a positive of the bucket, and without
    [reject_rel_after_failure] the set is not changed. *)
Theorem generate_negatives_touches_one_bucket g i tt negatives_factor
    strategy clean_before reject r g' r' :
  generate_negatives g i tt negatives_factor strategy clean_before reject r
  = Ok (g', r') →
  (∀ j, j ≠ i → graphs g' !! j = graphs g !! j) ∧
  (∃ sp sp',
     graphs g !! i = Some sp ∧ graphs g' !! i = Some sp' ∧
     positive (get_bucket sp' tt) = positive (get_bucket sp tt) ∧
     (∀ tt', tt' ≠ tt → get_bucket sp' tt' = get_bucket sp tt') ∧
     (∀ rel, rel ∈ ignored_rels_positives g' →
        rel ∈ ignored_rels_positives g ∨
        (reject = true ∧
         ∃ p, p ∈ positive (get_bucket sp tt) ∧ edge_rel p = rel))) ∧
  (relations g' = relations g ∧ edges g' = edges g ∧
   entities g' = entities g ∧ grouped_edges g' = grouped_edges g ∧
   domains g' = domains g ∧ ranges g' = ranges g ∧ ranks g' = ranks g) ∧
  (∀ rel, rel ∈ ignored_rels_positives g → rel ∈ ignored_rels_positives g') ∧
  (reject = false → ignored_rels_positives g' = ignored_rels_positives g).
Proof.
  rewrite generate_negatives_eq.
  destruct (graphs g !! i) as [sp|] eqn:Hsp; [|done].
  cbn [lookup_or mbind result_bind].
  destruct (negatives_loop _ _ _ _ _ _) as [[[[negs ign] nn] r1]|] eqn:Hloop;
    [|done].
  cbn [mbind result_bind fst snd]. intros [= <- <-].
  apply negatives_loop_ignored in Hloop as (Hmono & Hnew & Hsame).
  cbn [set_graphs set_ignored graphs relations edges entities grouped_edges
       domains ranges ranks ignored_rels_positives].
  split_and!; try done.
  - intros j Hj. by rewrite lookup_insert_ne.
  - eexists sp, _. rewrite lookup_insert_eq. split_and!; [done|done| | |done].
    + by rewrite get_bucket_set_bucket.
    + intros tt' Htt. by destruct tt, tt'.
Qed.

Lemma generate_negatives_touches_one_bucket_witness :
  ∃ g r g' r',
    Main.prepare (run_config 1 (1 # 2) "change_source") scenario_lines zeros
      rng0 = Ok (g, r) ∧
    generate_negatives g 0 Test 1 "change_source" true true r = Ok (g', r') ∧
    relations g' = relations g ∧
    ∀ rel, rel ∈ ignored_rels_positives g → rel ∈ ignored_rels_positives g'.
Proof.
  destruct (Main.prepare (run_config 1 (1 # 2) "change_source") scenario_lines
              zeros rng0) as [[g r]|] eqn:Hprep; [|by vm_compute in Hprep].
  destruct (generate_negatives g 0%nat Test 1 "change_source" true true r)
    as [[g' r']|] eqn:Hrun.
  - exists g, r, g', r'. split; [reflexivity|]. split; [exact Hrun|].
    destruct (generate_negatives_touches_one_bucket _ _ _ _ _ _ _ _ _ _ Hrun)
      as (_ & _ & (Hrel & _) & Hmono & _).
    split; [exact Hrel|exact Hmono].
  - vm_compute in Hprep. injection Hprep as <- <-. by vm_compute in Hrun.
Defined.

(** X21.  With a strategy that [generate_negatives] tests for, the
    negatives stored for a bucket number at most the number of its positives
    times the negatives factor rounded up (none when the factor is not
    positive), and every one of them carries the relation of a positive of
    the bucket whose relation was not ignored when the call was made. *)
Theorem negatives_are_bounded_by_the_factor g i tt negatives_factor strategy
    clean_before reject r g' r' :
  recognized strategy →
  generate_negatives g i tt negatives_factor strategy clean_before reject r
  = Ok (g', r') →
  ∃ sp sp' negatives,
    graphs g !! i = Some sp ∧ graphs g' !! i = Some sp' ∧
    negative (get_bucket sp' tt) = Some negatives ∧
    (length negatives
     ≤ length (positive (get_bucket sp tt))
       * Z.to_nat (Qceiling negatives_factor))%nat ∧
    ∀ e, e ∈ negatives →
      ∃ p, p ∈ positive (get_bucket sp tt) ∧ edge_rel e = edge_rel p ∧
           edge_rel p ∉ ignored_rels_positives g.
Proof.
  intros Hrec. rewrite generate_negatives_eq.
  destruct (graphs g !! i) as [sp|] eqn:Hsp; [|done].
  cbn [lookup_or mbind result_bind].
  destruct (negatives_loop _ _ _ _ _ _) as [[[[negs ign] nn] r1]|] eqn:Hloop;
    [|done].
  cbn [mbind result_bind fst snd]. intros [= <- <-].
  apply negatives_loop_new in Hloop as (new & Hnegs & Hlen & Hmem); [|done].
  cbn [app] in Hnegs. subst negs.
  eexists sp, _, new. cbn [set_graphs graphs]. rewrite lookup_insert_eq.
  split_and!; [done|done| |done|done].
  by rewrite get_bucket_set_bucket.
Qed.

Lemma negatives_are_bounded_by_the_factor_witness :
  recognized "change_source" ∧
  ∃ g r g' r',
    Main.prepare (run_config (5 # 2) (1 # 2) "change_source") scenario_lines
      zeros rng0 = Ok (g, r) ∧
    generate_negatives g 0 Train (5 # 2) "change_source" true false r
    = Ok (g', r') ∧
    ∃ sp' negatives,
      graphs g' !! 0%nat = Some sp' ∧
      negative (train sp') = Some negatives ∧
      (length negatives ≤ 2 * 3)%nat.
Proof.
  assert (Hrec : recognized "change_source").
  { unfold recognized. left. }
  split; [exact Hrec|].
  destruct (Main.prepare (run_config (5 # 2) (1 # 2) "change_source")
              scenario_lines zeros rng0) as [[g r]|] eqn:Hprep;
    [|by vm_compute in Hprep].
  destruct (generate_negatives g 0%nat Train (5 # 2) "change_source" true
              false r) as [[g' r']|] eqn:Hrun.
  - exists g, r, g', r'. split; [reflexivity|]. split; [exact Hrun|].
    destruct (negatives_are_bounded_by_the_factor _ _ _ _ _ _ _ _ _ _ Hrec
                Hrun) as (sp & sp' & negs & Hsp & Hsp' & Hneg & Hlen & _).
    exists sp', negs. split; [exact Hsp'|]. split; [exact Hneg|].
    vm_compute in Hprep. injection Hprep as <- <-.
    vm_compute in Hsp. injection Hsp as <-. exact Hlen.
  - vm_compute in Hprep. injection Hprep as <- <-. by vm_compute in Hrun.
Defined.

(** ** The outcome of the split and of a run *)

(** *** The outcome of [split_graph] *)






(** *** [main] without negatives for the training set *)

Lemma read_number_splits g0 input (min_num_rel : Z) (reach_fraction : Q)
    (remove_inverses : bool) g :
  read g0 input min_num_rel reach_fraction remove_inverses = Ok g →
  number_splits g = number_splits g0.
Proof.
  unfold read, prune.
  destruct (remove_rels _ _) as [g1|] eqn:Hg1; cbn [mbind result_bind];
    [|done].
  destruct (find_inverses g1) as [g2|] eqn:Hg2; cbn [mbind result_bind];
    [|done].
  apply remove_rels_Ok_fields in Hg1 as (_ & _ & _ & _ & _ & _ & _ & Hn1).
  apply find_inverses_Ok_fields in Hg2 as (_ & _ & _ & _ & _ & _ & _ & Hn2).
  destruct (load_fields g0 input) as (_ & _ & _ & _ & Hn).
  destruct remove_inverses.
  - destruct (remove_rels g2 (inverses g2)) as [g3|] eqn:Hg3;
      cbn [mbind result_bind]; [|done].
    apply remove_rels_Ok_fields in Hg3 as (_ & _ & _ & _ & _ & _ & _ & Hn3).
    intros [= <-]. cbn [store_entity_edges number_splits]. congruence.
  - cbn [mbind result_bind]. intros [= <-].
    cbn [store_entity_edges number_splits]. congruence.
Qed.

Lemma compute_PPR_number_splits g steps alpha fresh g' :
  compute_PPR g steps alpha fresh = Ok g' →
  number_splits g' = number_splits g ∧ graphs g' = graphs g.
Proof.
  unfold compute_PPR.
  destruct (matrix_movements g fresh); cbn [mbind result_bind]; [|done].
  destruct steps as [s|]; cbn [mbind result_bind].
  - by intros [= <-].
  - destruct (Qeq_bool alpha 0); cbn [mbind result_bind]; [done|].
    by intros [= <-].
Qed.

(** After the phases of [main] up to the split, split 0 exists and has no
    negatives. *)
Lemma prepare_graphs cfg lines fresh r g r' :
  Main.prepare cfg lines fresh r = Ok (g, r') →
  ∃ sp, graphs g !! 0%nat = Some sp ∧
        negative (train sp) = None ∧ negative (test sp) = None.
Proof.
  unfold Main.prepare.
  destruct (Reader.read lines (Main.GRAPH_FRACTION cfg) r) as [input r1].
  destruct (read _ _ _ _ _) as [g1|] eqn:Hg1; cbn [mbind result_bind];
    [|done].
  apply read_number_splits in Hg1. cbn [init number_splits] in Hg1.
  destruct (if Main.COMPUTE_PPR cfg then _ else _) as [g2|] eqn:Hg2;
    cbn [mbind result_bind]; [|done].
  assert (Hn2 : number_splits g2 = 1%nat).
  { destruct (Main.COMPUTE_PPR cfg).
    - apply compute_PPR_number_splits in Hg2 as [-> _]. done.
    - by injection Hg2 as <-. }
  destruct (split_graph g2 _ ∅) as [g3|] eqn:Hg3; cbn [mbind result_bind];
    [|done].
  intros [= <- <-]. revert Hg3. unfold split_graph. rewrite Hn2.
  cbn [seq split_loop].
  destruct (split_relations _ _ _ _ _ _) as [[tr te]|];
    cbn [mbind result_bind fst snd]; [|done].
  intros [= <-]. cbn [set_graphs graphs]. rewrite lookup_insert_eq.
  by eexists.
Qed.

Lemma generate_negatives_Ok_graphs g i tt negatives_factor strategy
    clean_before reject r g' r' :
  generate_negatives g i tt negatives_factor strategy clean_before reject r
  = Ok (g', r') →
  ∃ sp negatives,
    graphs g !! i = Some sp ∧
    graphs g'
    = <[i := set_bucket sp tt
               {| positive := positive (get_bucket sp tt);
                  negative := Some negatives |}]> (graphs g).
Proof.
  rewrite generate_negatives_eq.
  destruct (graphs g !! i) as [sp|] eqn:Hsp; [|done].
  cbn [lookup_or mbind result_bind].
  destruct (negatives_loop _ _ _ _ _ _) as [[[[negs ign] nn] r1]|];
    cbn [mbind result_bind]; [|done].
  intros [= <- <-]. by exists sp, negs.
Qed.

(** X23.  [main] always ends in an exception when
    [GENERATE_NEGATIVES_TRAINING] is false.  It calls
    [export_files(0, True)] unconditionally, which reads the negatives of
    the training set; when they were not generated the ["negative"] key is
    absent, so once the earlier phases have succeeded the run raises
    [KeyError] while writing [train.txt]. *)
Theorem main_needs_training_negatives cfg lines fresh r :
  Main.GENERATE_NEGATIVES_TRAINING cfg = false →
  ∃ e, Main.main cfg lines fresh r = Raise e ∧
       ∀ p t,
         Main.prepare cfg lines fresh r = Ok p →
         generate_negatives p.1 0 Test (Main.NUMBER_NEGATIVES cfg)
           (Main.NEGATIVES_STRATEGY cfg) true false p.2 = Ok t →
         e = KeyError.
Proof.
  intros Hno. unfold Main.main. rewrite Hno.
  destruct (Main.prepare cfg lines fresh r) as [[g r1]|e] eqn:Hprep;
    cbn [mbind result_bind fst snd]; [|by exists e].
  destruct (generate_negatives g 0%nat Test _ _ true false r1)
    as [[g' r2]|e] eqn:Hneg; cbn [mbind result_bind fst snd].
  2: { exists e. split; [done|]. intros p t [= <-]. cbn [fst snd].
       by rewrite Hneg. }
  apply prepare_graphs in Hprep as (sp & Hsp & Htrain & _).
  apply generate_negatives_Ok_graphs in Hneg as (sp' & negs & Hsp' & Hgr).
  assert (sp' = sp) as -> by congruence.
  unfold Main.export_files. rewrite Hgr, lookup_insert_eq.
  cbn [lookup_or mbind result_bind set_bucket train]. rewrite Htrain.
  cbn [lookup_or mbind result_bind]. exists KeyError. split; [done|].
  intros p t _ _. done.
Qed.

Lemma main_needs_training_negatives_witness :
  Main.main
    {| Main.GRAPH_FRACTION := 1;
       Main.GENERATE_NEGATIVES_TRAINING := false;
       Main.REMOVE_INVERSES := true;
       Main.MIN_NUM_REL := 2;
       Main.REACH_FRACTION := 95 # 100;
       Main.TESTING_FRACTION := 2 # 10;
       Main.NUMBER_NEGATIVES := 1;
       Main.NEGATIVES_STRATEGY := "change_target";
       Main.COMPUTE_PPR := false |} scenario_lines zeros rng0
  = Raise KeyError.
Proof.
  destruct (main_needs_training_negatives
              {| Main.GRAPH_FRACTION := 1;
                 Main.GENERATE_NEGATIVES_TRAINING := false;
                 Main.REMOVE_INVERSES := true;
                 Main.MIN_NUM_REL := 2;
                 Main.REACH_FRACTION := 95 # 100;
                 Main.TESTING_FRACTION := 2 # 10;
                 Main.NUMBER_NEGATIVES := 1;
                 Main.NEGATIVES_STRATEGY := "change_target";
                 Main.COMPUTE_PPR := false |} scenario_lines zeros rng0
              eq_refl) as (e & -> & He).
  f_equal.
  destruct (Main.prepare _ scenario_lines zeros rng0) as [[g r1]|] eqn:Hp;
    [|by vm_compute in Hp].
  destruct (generate_negatives g 0%nat Test 1 "change_target" true false r1)
    as [t|] eqn:Ht.
  - exact (He (g, r1) t eq_refl Ht).
  - vm_compute in Hp. injection Hp as <- <-. by vm_compute in Ht.
Defined.

(** ** Runs that end *)

(** *** The random strategies return *)








(** *** The positives of a split carry relations of the relation set *)






(** *** The phases of [main] up to the split *)

Lemma scope_nonempty proj es rel l :
  foldl (scope_step proj) ∅ es !! rel = Some l → l ≠ [].
Proof.
  intros Hl. assert (is_Some (foldl (scope_step proj) ∅ es !! rel)) as Hs
    by by rewrite Hl.
  apply scope_is_Some in Hs as (e & He & Hrel).
  apply scope_spec in Hl as [_ Hmem].
  assert (proj e ∈ l) as Hin by (apply Hmem; by exists e).
  intros ->. by apply elem_of_nil in Hin.
Qed.

Lemma load_scopes g0 input :
  domains (load g0 input) = foldl (scope_step edge_source) ∅ input.2 ∧
  ranges (load g0 input) = foldl (scope_step edge_target) ∅ input.2.
Proof.
  destruct input as [[ents rels] es]. unfold load.
  match goal with
  | |- context [group_edges ?G] =>
      destruct (group_edges_fields G) as (_ & Hd & Hr & _)
  end.
  by rewrite Hd, Hr.
Qed.

(** [read] on a reader's output makes the generator ready for the random
    strategies and for the split. *)
Lemma read_ready lines prob r (min_num_rel : Z) (reach_fraction : Q)
    (remove_inverses : bool) :
  ∃ g, read (init 1) (Reader.read lines prob r).1 min_num_rel reach_fraction
         remove_inverses = Ok g ∧
       ready g ∧ grouped_ok g ∧ number_splits g = 1%nat.
Proof.
  set (input := (Reader.read lines prob r).1).
  destruct (read_stages (init 1) input min_num_rel reach_fraction
              remove_inverses (reader_output_ok _ _ _) eq_refl)
    as (g1 & g2 & g3 & Hg1 & Hg2 & Hg3 & Hread & _ & Hk3 & _).
  exists (store_entity_edges g3). split; [done|].
  assert (Hn : number_splits (store_entity_edges g3) = 1%nat).
  { by rewrite (read_number_splits _ _ _ _ _ _ Hread). }
  assert (Hscopes : domains g3 = foldl (scope_step edge_source) ∅ input.2 ∧
                    ranges g3 = foldl (scope_step edge_target) ∅ input.2).
  { destruct (load_scopes (init 1) input) as [Hd Hr].
    unfold prune in Hg1.
    apply remove_rels_Ok_fields in Hg1 as (_ & _ & Hd1 & Hr1 & _).
    apply find_inverses_Ok_fields in Hg2 as (_ & _ & Hd2 & Hr2 & _).
    destruct remove_inverses.
    - apply remove_rels_Ok_fields in Hg3 as (_ & _ & Hd3 & Hr3 & _).
      split; congruence.
    - subst g3. split; congruence. }
  destruct Hscopes as [Hdom Hran].
  assert (Hedge : ∀ rel, rel ∈ relations g3 → ∃ s t, (rel, s, t) ∈ input.2).
  { intros rel Hrel.
    destruct (ko_groups _ _ _ Hk3 rel Hrel) as (pairs & _ & _ & Hne & _ & Hm).
    destruct pairs as [|[s t] pairs]; [done|]. exists s, t. apply Hm. left. }
  split_and!; [|by eapply grouped_ok_frame;
                  [..|exact (kept_ok_grouped_ok _ _ _ Hk3)]|done].
  split; cbn [store_entity_edges relations grouped_edges domains ranges
              entities].
  - intros rel Hrel.
    by destruct (ko_groups _ _ _ Hk3 rel Hrel) as (pairs & -> & _).
  - intros rel Hrel. destruct (Hedge rel Hrel) as (s & t & He).
    rewrite Hdom.
    destruct (proj2 (scope_is_Some edge_source input.2 rel)) as [ds Hds];
      [by exists (rel, s, t)|].
    exists ds. split; [done|]. by eapply scope_nonempty.
  - intros rel Hrel. destruct (Hedge rel Hrel) as (s & t & He).
    rewrite Hran.
    destruct (proj2 (scope_is_Some edge_target input.2 rel)) as [rs Hrs];
      [by exists (rel, s, t)|].
    exists rs. split; [done|]. by eapply scope_nonempty.
  - intros Hne. destruct (relations g3) as [|rel rels] eqn:Hrels; [done|].
    destruct (Hedge rel) as (s & t & He);
      [first [left|rewrite Hrels; left]|].
    rewrite (ko_entities _ _ _ Hk3).
    destruct (reader_endpoints lines prob r) as [_ Hend].
    destruct (Hend _ He) as [Hs _]. intros Hnil. unfold input in Hnil.
    rewrite Hnil in Hs. by apply elem_of_nil in Hs.
Qed.

Lemma compute_PPR_Ok_fields g steps alpha fresh g' :
  compute_PPR g steps alpha fresh = Ok g' →
  relations g' = relations g ∧ edges g' = edges g ∧
  grouped_edges g' = grouped_edges g ∧ domains g' = domains g ∧
  ranges g' = ranges g ∧ entities g' = entities g.
Proof.
  unfold compute_PPR.
  destruct (matrix_movements g fresh); cbn [mbind result_bind]; [|done].
  destruct steps as [s|]; cbn [mbind result_bind].
  - by intros [= <-].
  - destruct (Qeq_bool alpha 0); cbn [mbind result_bind]; [done|].
    by intros [= <-].
Qed.





(** ** Missing ranks and extreme fractions *)

(** *** The PPR strategy without ranks *)




(** *** The buckets of a split *)

Lemma split_buckets g fraction_test fraction_test_relations g' i sp :
  grouped_ok g →
  split_graph g fraction_test fraction_test_relations = Ok g' →
  (i < number_splits g)%nat → graphs g' !! i = Some sp →
  let ftr := fractions g fraction_test fraction_test_relations in
  (∀ e, e ∈ positive (test sp) ↔
        ∃ rel pairs, rel ∈ relations g ∧
          dict_get rel (grouped_edges g) = Some pairs ∧
          window (edges_of rel pairs)
            (offset (length (edges_of rel pairs)) (number_splits g) i)
            (num_test (length (edges_of rel pairs))
               (default 0%Q (ftr !! rel))) e) ∧
  (∀ e, e ∈ positive (train sp) ↔
        ∃ rel pairs, rel ∈ relations g ∧
          dict_get rel (grouped_edges g) = Some pairs ∧
          e ∈ edges_of rel pairs ∧
          ¬ window (edges_of rel pairs)
              (offset (length (edges_of rel pairs)) (number_splits g) i)
              (num_test (length (edges_of rel pairs))
                 (default 0%Q (ftr !! rel))) e).
Proof.
  intros Hcons Hsplit Hi Hsp ftr.
  pose proof (grouped_ok_sets g Hcons) as Hok. revert Hsplit.
  unfold split_graph. fold ftr.
  destruct (split_loop_spec g ftr (seq 0 (number_splits g)) (graphs g) Hok)
    as (gr' & -> & Hgr').
  cbn [mbind result_bind]. intros [= <-]. cbn [set_graphs graphs] in Hsp.
  specialize (Hgr' i). rewrite decide_True in Hgr' by (apply elem_of_seq; lia).
  destruct Hgr' as (tr & te & Hsr & Hlk).
  rewrite Hlk in Hsp. injection Hsp as <-. cbn [positive test train].
  destruct (split_relations_spec g ftr i (relations g) [] [] Hok)
    as (tr' & te' & Hsr' & Hte & Htr & _).
  rewrite Hsr in Hsr'. injection Hsr' as <- <-.
  split.
  - intros e. rewrite Hte. split.
    + intros [[]%elem_of_nil|(rel & r & Hrel & Hr & He)].
      destruct (Hok rel Hrel) as (pairs & Hget & Hnd).
      destruct (split_relation_spec g ftr i rel pairs Hget Hnd)
        as (rte & rtr & Hsr' & Hw & _).
      rewrite Hsr' in Hr. injection Hr as <-. exists rel, pairs.
      split_and!; [done..|]. by apply Hw.
    + intros (rel & pairs & Hrel & Hget & Hw). right.
      destruct (Hok rel Hrel) as (pairs' & Hget' & Hnd).
      assert (pairs' = pairs) as -> by congruence.
      destruct (split_relation_spec g ftr i rel pairs Hget Hnd)
        as (rte & rtr & Hsr' & Hw' & _).
      exists rel, (rte, rtr). split_and!; [done..|]. by apply Hw'.
  - intros e. rewrite Htr. split.
    + intros [[]%elem_of_nil|(rel & r & Hrel & Hr & He)].
      destruct (Hok rel Hrel) as (pairs & Hget & Hnd).
      destruct (split_relation_spec g ftr i rel pairs Hget Hnd)
        as (rte & rtr & Hsr' & _ & Hw).
      rewrite Hsr' in Hr. injection Hr as <-. exists rel, pairs.
      split_and!; [done..| |]; by apply Hw.
    + intros (rel & pairs & Hrel & Hget & Hin & Hw). right.
      destruct (Hok rel Hrel) as (pairs' & Hget' & Hnd).
      assert (pairs' = pairs) as -> by congruence.
      destruct (split_relation_spec g ftr i rel pairs Hget Hnd)
        as (rte & rtr & Hsr' & _ & Hw').
      exists rel, (rte, rtr). split_and!; [done..|]. by apply Hw'.
Qed.

Lemma window_all es off nt e :
  Z.of_nat (length es) ≤ nt → e ∈ es → window es off nt e.
Proof.
  intros Hnt (j & Hj)%list_elem_of_lookup_1.
  pose proof (lookup_lt_Some _ _ _ Hj) as Hlt.
  set (n := Z.of_nat (length es)) in *.
  set (x := (Z.of_nat j - off) `mod` n).
  assert (0 ≤ x < n) as Hx by (apply Z.mod_pos_bound; lia).
  assert (Hjx : (off + x) `mod` n = Z.of_nat j).
  { unfold x. rewrite Zplus_mod_idemp_r.
    replace (off + (Z.of_nat j - off)) with (Z.of_nat j) by lia.
    apply Z.mod_small. lia. }
  exists x. split; [lia|]. fold n. by rewrite Hjx, Nat2Z.id.
Qed.

Lemma window_none es off nt e : nt ≤ 0 → ¬ window es off nt e.
Proof. intros Hnt (x & Hx & _). lia. Qed.

Lemma inject_Z_nat_nonneg n : (0 <= inject_Z (Z.of_nat n))%Q.
Proof. change 0%Q with (inject_Z 0). rewrite <- Zle_Qle. lia. Qed.

Lemma num_test_all n fraction_test :
  (1 <= fraction_test)%Q → Z.of_nat n ≤ num_test n fraction_test.
Proof.
  intros Hf. unfold num_test.
  rewrite <- (Qfloor_Z (Z.of_nat n)) at 1. apply Qfloor_resp_le.
  setoid_replace (inject_Z (Z.of_nat n)) with (1 * inject_Z (Z.of_nat n))%Q
    using relation Qeq at 1 by ring.
  rewrite (Qmult_comm (inject_Z (Z.of_nat n)) fraction_test).
  apply Qmult_le_compat_r; [done|apply inject_Z_nat_nonneg].
Qed.

Lemma num_test_none n fraction_test :
  (fraction_test <= 0)%Q → num_test n fraction_test ≤ 0.
Proof.
  intros Hf. unfold num_test.
  rewrite <- (Qfloor_Z 0). apply Qfloor_resp_le.
  setoid_replace (inject_Z 0) with (0 * inject_Z (Z.of_nat n))%Q
    using relation Qeq by ring.
  rewrite (Qmult_comm (inject_Z (Z.of_nat n)) fraction_test).
  apply Qmult_le_compat_r; [done|apply inject_Z_nat_nonneg].
Qed.

Lemma lookup_constant_map (rels : list relation) (q : Q) (rel : relation) :
  rel ∈ rels →
  (list_to_map ((fun rel => (rel, q)) <$> rels) : gmap relation Q) !! rel
  = Some q.
Proof.
  induction rels as [|x rels IH]; [by intros ?%elem_of_nil|].
  cbn [fmap list_fmap list_to_map foldr].
  destruct (decide (rel = x)) as [->|Hne].
  - intros _. by rewrite lookup_insert_eq.
  - intros [?|Hin]%elem_of_cons; [done|].
    rewrite lookup_insert_ne by done. by apply IH.
Qed.

Lemma fractions_single g fraction_test rel :
  rel ∈ relations g → fractions g fraction_test ∅ !! rel = Some fraction_test.
Proof.
  intros Hrel. unfold fractions. rewrite decide_True by done.
  by apply lookup_constant_map.
Qed.

Lemma no_member_nil {A} (l : list A) : (∀ x, x ∉ l) → l = [].
Proof. destruct l as [|x l]; [done|]. intros H. destruct (H x). left. Qed.

(** X26.  The extreme fractions of [split_graph], with one fraction for
    every relation, on a generator whose grouped edges are the edges of its
    relations and whose edges all carry one of its relations.  With a
    fraction of 1 or more the test set of every split holds every edge and
    the training set is empty; with a fraction of 0 or less the training set
    holds every edge and the test set is empty. *)
Theorem split_fraction_extremes g fraction_test g' i sp :
  grouped_ok g → (∀ e, e ∈ edges g → edge_rel e ∈ relations g) →
  split_graph g fraction_test ∅ = Ok g' →
  (i < number_splits g)%nat → graphs g' !! i = Some sp →
  ((1 <= fraction_test)%Q →
   (∀ e, e ∈ positive (test sp) ↔ e ∈ edges g) ∧ positive (train sp) = []) ∧
  ((fraction_test <= 0)%Q →
   (∀ e, e ∈ positive (train sp) ↔ e ∈ edges g) ∧ positive (test sp) = []).
Proof.
  intros Hcons Hcover Hsplit Hi Hsp.
  destruct (split_buckets g fraction_test ∅ g' i sp Hcons Hsplit Hi Hsp)
    as [Htest Htrain].
  assert (Hes : ∀ rel pairs e, rel ∈ relations g →
            dict_get rel (grouped_edges g) = Some pairs →
            (e ∈ edges_of rel pairs ↔ e ∈ edges g ∧ edge_rel e = rel)).
  { intros rel pairs e Hrel Hget.
    destruct (Hcons rel Hrel) as (pairs' & Hget' & _ & Hmem).
    assert (pairs' = pairs) as -> by congruence.
    rewrite elem_of_edges_of. destruct e as [[r s] t].
    unfold edge_rel, edge_source, edge_target. cbn [fst snd].
    rewrite Hmem. split; [by intros [-> ?]|by intros [? ->]]. }
  assert (Hall : ∀ e, e ∈ edges g ↔
            ∃ rel pairs, rel ∈ relations g ∧
              dict_get rel (grouped_edges g) = Some pairs ∧
              e ∈ edges_of rel pairs).
  { intros e. split.
    - intros He. destruct (Hcons _ (Hcover e He)) as (pairs & Hget & _).
      exists (edge_rel e), pairs. split_and!; [by apply Hcover|done|].
      by apply (Hes _ _ _ (Hcover e He) Hget).
    - intros (rel & pairs & Hrel & Hget & Hin).
      by apply (Hes _ _ _ Hrel Hget) in Hin as [? _]. }
  split.
  - intros Hf. split.
    + intros e. rewrite Htest, Hall. split.
      * intros (rel & pairs & Hrel & Hget & Hw). exists rel, pairs.
        split_and!; [done..|]. by eapply window_elem_of.
      * intros (rel & pairs & Hrel & Hget & Hin). exists rel, pairs.
        split_and!; [done..|]. apply window_all; [|done].
        rewrite fractions_single by done. by apply num_test_all.
    + apply no_member_nil. intros e (rel & pairs & Hrel & Hget & Hin & Hnw)%Htrain.
      apply Hnw, window_all; [|done].
      rewrite fractions_single by done. by apply num_test_all.
  - intros Hf. split.
    + intros e. rewrite Htrain, Hall. split.
      * intros (rel & pairs & Hrel & Hget & Hin & _). by exists rel, pairs.
      * intros (rel & pairs & Hrel & Hget & Hin). exists rel, pairs.
        split_and!; [done..|]. apply window_none.
        rewrite fractions_single by done. by apply num_test_none.
    + apply no_member_nil. intros e (rel & pairs & Hrel & Hget & Hw)%Htest.
      revert Hw. apply window_none.
      rewrite fractions_single by done. by apply num_test_none.
Qed.

Lemma split_fraction_extremes_witness :
  ∃ g g' sp,
    graph_of scenario_lines = Ok g ∧
    split_graph g (3 # 2) ∅ = Ok g' ∧
    graphs g' !! 0%nat = Some sp ∧
    positive (train sp) = [] ∧
    ∀ e, e ∈ positive (test sp) ↔ e ∈ edges g.
Proof.
  destruct (read_ready scenario_lines 1 rng0 0 1 false)
    as (g & Hg & _ & Hok & Hn).
  destruct (split_graph_total g (3 # 2) ∅ Hok) as [g' Hg'].
  destruct (graphs g' !! 0%nat) as [sp|] eqn:Hsp.
  - exists g, g', sp.
    assert (Hcover : ∀ e, e ∈ edges g → edge_rel e ∈ relations g).
    { vm_compute in Hg. injection Hg as <-. intros e He.
      repeat (apply elem_of_cons in He as [->|He];
              [apply (bool_decide_unpack _); vm_compute; exact I|]).
      by apply elem_of_nil in He. }
    destruct (split_fraction_extremes g (3 # 2) g' 0%nat sp Hok Hcover Hg')
      as [Hone _]; [rewrite Hn; lia|exact Hsp|].
    destruct Hone as [Htest Htrain]; [discriminate|].
    split_and!; [exact Hg|exact Hg'|exact Hsp|exact Htrain|exact Htest].
  - vm_compute in Hg. injection Hg as <-.
    vm_compute in Hg'. injection Hg' as <-. by vm_compute in Hsp.
Defined.

(** ** The files of a run *)

(** *** The files that [main] writes *)

Lemma split_positives_edges g fraction_test fraction_test_relations g' i sp :
  grouped_ok g →
  split_graph g fraction_test fraction_test_relations = Ok g' →
  (i < number_splits g)%nat → graphs g' !! i = Some sp →
  ∀ p, p ∈ positive (train sp) ∨ p ∈ positive (test sp) → p ∈ edges g.
Proof.
  intros Hcons Hsplit Hi Hsp p Hp.
  destruct (split_buckets g fraction_test fraction_test_relations g' i sp
              Hcons Hsplit Hi Hsp) as [Htest Htrain].
  assert (Hin : ∃ rel pairs, rel ∈ relations g ∧
                  dict_get rel (grouped_edges g) = Some pairs ∧
                  p ∈ edges_of rel pairs).
  { destruct Hp as [Hp|Hp].
    - apply Htrain in Hp as (rel & pairs & ? & ? & ? & _). by exists rel, pairs.
    - apply Htest in Hp as (rel & pairs & ? & ? & Hw). exists rel, pairs.
      split_and!; [done..|]. by eapply window_elem_of. }
  destruct Hin as (rel & pairs & Hrel & Hget & Hin).
  destruct (Hcons rel Hrel) as (pairs' & Hget' & _ & Hmem).
  assert (pairs' = pairs) as -> by congruence.
  apply elem_of_edges_of in Hin as [<- Hin]. apply Hmem in Hin.
  by destruct p as [[? ?] ?].
Qed.

Lemma prepare_positives cfg lines fresh r g r' sp :
  Main.prepare cfg lines fresh r = Ok (g, r') →
  graphs g !! 0%nat = Some sp →
  ∀ p, p ∈ positive (train sp) ∨ p ∈ positive (test sp) →
       (edge_source p, edge_rel p, edge_target p) ∈ lines.
Proof.
  intros Hprep Hsp p Hp.
  destruct (read_ready lines (Main.GRAPH_FRACTION cfg) r (Main.MIN_NUM_REL cfg)
              (Main.REACH_FRACTION cfg) (Main.REMOVE_INVERSES cfg))
    as (g1 & Hread & _ & Hok1 & Hn1).
  destruct (read_Ok_fields _ _ _ _ _ _ Hread) as [_ Hes].
  revert Hprep. unfold Main.prepare.
  rewrite (surjective_pairing (Reader.read lines (Main.GRAPH_FRACTION cfg) r)).
  rewrite Hread. cbn [mbind result_bind].
  destruct (if Main.COMPUTE_PPR cfg then _ else _) as [g2|] eqn:Hg2;
    cbn [mbind result_bind]; [|done].
  assert (Hg12 : relations g2 = relations g1 ∧ edges g2 = edges g1 ∧
                 grouped_edges g2 = grouped_edges g1 ∧
                 number_splits g2 = number_splits g1).
  { destruct (Main.COMPUTE_PPR cfg); [|by injection Hg2 as <-].
    destruct (compute_PPR_Ok_fields _ _ _ _ _ Hg2) as (? & ? & ? & _).
    by destruct (compute_PPR_number_splits _ _ _ _ _ Hg2) as [? _]. }
  destruct Hg12 as (Hr & He & Hge & Hn).
  assert (Hok2 : grouped_ok g2) by by eapply grouped_ok_frame.
  destruct (split_graph g2 _ _) as [g3|] eqn:Hg3; cbn [mbind result_bind];
    [|done].
  intros [= <- <-].
  assert (Hin : p ∈ edges g2).
  { eapply (split_positives_edges g2 _ _ g3 0%nat sp); try done.
    rewrite Hn, Hn1. lia. }
  rewrite He in Hin. apply Hes in Hin.
  rewrite read_kept in Hin. cbn [fst snd] in Hin.
  destruct p as [[rel s] t].
  apply (proj1 (proj2 (read_all_edges _) rel s t)) in Hin.
  unfold edge_source, edge_rel, edge_target. cbn [fst snd].
  eapply elem_of_sublist; [done|]. apply kept_lines_sublist.
Qed.

Lemma generate_negatives_Ok_relations g i tt negatives_factor strategy
    clean_before reject r g' r' :
  recognized strategy →
  generate_negatives g i tt negatives_factor strategy clean_before reject r
  = Ok (g', r') →
  ∃ sp negatives,
    graphs g !! i = Some sp ∧
    graphs g'
    = <[i := set_bucket sp tt
               {| positive := positive (get_bucket sp tt);
                  negative := Some negatives |}]> (graphs g) ∧
    ∀ e, e ∈ negatives →
      ∃ p, p ∈ positive (get_bucket sp tt) ∧ edge_rel e = edge_rel p.
Proof.
  intros Hrec. rewrite generate_negatives_eq.
  destruct (graphs g !! i) as [sp|] eqn:Hsp; [|done].
  cbn [lookup_or mbind result_bind].
  destruct (negatives_loop _ _ _ _ _ _) as [[[[negs ign] nn] r1]|] eqn:Hloop;
    [|done].
  cbn [mbind result_bind fst snd]. intros [= <- <-].
  apply negatives_loop_new in Hloop as (new & Hnegs & _ & Hmem); [|done].
  cbn [app] in Hnegs. subst negs.
  exists sp, new. cbn [set_graphs graphs]. split_and!; [done..|].
  intros e (p & ? & ? & _)%Hmem. by exists p.
Qed.

(** X27.  The two files of a run of [main] that ends, with a strategy that
    [generate_negatives] tests for.  Every line of [train.txt] and of
    [test.txt] carries the label 1 or -1.  A line with the label 1 is a
    triple of the input, and a line with the label -1 carries the relation
    of a line of the same file that has the label 1. *)
Theorem main_files_come_from_the_input cfg lines fresh r g train_records
    test_records :
  recognized (Main.NEGATIVES_STRATEGY cfg) →
  Main.main cfg lines fresh r = Ok (g, (train_records, test_records)) →
  ∀ file, file = train_records ∨ file = test_records →
    ∀ s rel t label, (s, rel, t, label) ∈ file →
      (label = 1 ∧ (s, rel, t) ∈ lines) ∨
      (label = -1 ∧ ∃ s' t', (s', rel, t', 1) ∈ file ∧ (s', rel, t') ∈ lines).
Proof.
  intros Hrec. unfold Main.main.
  destruct (Main.prepare cfg lines fresh r) as [[g0 r0]|] eqn:Hprep;
    cbn [mbind result_bind fst snd]; [|done].
  destruct (generate_negatives g0 0%nat Test _ _ true false r0)
    as [[g1 r1]|] eqn:Hneg1; cbn [mbind result_bind fst snd]; [|done].
  destruct (prepare_graphs _ _ _ _ _ _ Hprep) as (sp & Hsp & Htrain & _).
  pose proof (prepare_positives _ _ _ _ _ _ _ Hprep Hsp) as Hpos.
  destruct (generate_negatives_Ok_relations _ _ _ _ _ _ _ _ _ _ Hrec Hneg1)
    as (sp0 & negs1 & Hsp0 & Hgr1 & Hnegs1).
  assert (sp0 = sp) as -> by congruence.
  assert (Hfile : ∀ (positives negatives : list edge) s rel t label,
            (∀ p, p ∈ positives →
                  (edge_source p, edge_rel p, edge_target p) ∈ lines) →
            (∀ e, e ∈ negatives →
                  ∃ p, p ∈ positives ∧ edge_rel e = edge_rel p) →
            (s, rel, t, label)
            ∈ (Main.labelled 1 <$> positives)
              ++ (Main.labelled (-1) <$> negatives) →
            (label = 1 ∧ (s, rel, t) ∈ lines) ∨
            (label = -1 ∧
             ∃ s' t', (s', rel, t', 1)
                      ∈ (Main.labelled 1 <$> positives)
                        ++ (Main.labelled (-1) <$> negatives) ∧
                      (s', rel, t') ∈ lines)).
  { intros positives negatives s rel t label Hp Hn
      [(p & [= -> -> -> ->] & Hin)%list_elem_of_fmap
      |(e & [= -> -> -> ->] & Hin)%list_elem_of_fmap]%elem_of_app.
    - left. split; [done|]. by apply Hp.
    - right. split; [done|]. destruct (Hn e Hin) as (p & Hpin & ->).
      exists (edge_source p), (edge_target p). split; [|by apply Hp].
      apply elem_of_app. left. apply list_elem_of_fmap. by exists p. }
  destruct (Main.GENERATE_NEGATIVES_TRAINING cfg).
  - destruct (generate_negatives g1 0%nat Train _ _ true false r1)
      as [[g2 r2]|] eqn:Hneg2; cbn [mbind result_bind fst snd]; [|done].
    destruct (generate_negatives_Ok_relations _ _ _ _ _ _ _ _ _ _ Hrec Hneg2)
      as (sp1 & negs2 & Hsp1 & Hgr2 & Hnegs2).
    rewrite Hgr1, lookup_insert_eq in Hsp1. injection Hsp1 as <-.
    unfold Main.export_files. rewrite Hgr2, lookup_insert_eq.
    cbn [lookup_or mbind result_bind set_bucket get_bucket train test negative
         positive] in *.
    intros [= <- <- <-] file [->| ->] s rel t label Hin.
    + eapply Hfile; [|exact Hnegs2|exact Hin]. intros p Hp. apply Hpos.
      by left.
    + eapply Hfile; [|exact Hnegs1|exact Hin]. intros p Hp. apply Hpos.
      by right.
  - cbn [mbind result_bind fst snd]. unfold Main.export_files.
    rewrite Hgr1, lookup_insert_eq.
    cbn [lookup_or mbind result_bind set_bucket train]. rewrite Htrain.
    done.
Qed.

Lemma main_files_come_from_the_input_witness :
  recognized "change_target" ∧
  ∃ g train_records test_records,
    Main.main Main.default_config scenario_lines zeros rng0
    = Ok (g, (train_records, test_records)) ∧
    ∀ s rel t label, (s, rel, t, label) ∈ train_records →
      (label = 1 ∧ (s, rel, t) ∈ scenario_lines) ∨
      (label = -1 ∧ ∃ s' t', (s', rel, t', 1) ∈ train_records ∧
                             (s', rel, t') ∈ scenario_lines).
Proof.
  assert (Hrec : recognized "change_target").
  { apply (bool_decide_unpack _). vm_compute. exact I. }
  split; [exact Hrec|].
  destruct (Main.main Main.default_config scenario_lines zeros rng0)
    as [[g [train_records test_records]]|] eqn:Hmain;
    [|by vm_compute in Hmain].
  exists g, train_records, test_records. split; [reflexivity|].
  apply (main_files_come_from_the_input Main.default_config scenario_lines
           zeros rng0 g train_records test_records Hrec Hmain).
  by left.
Defined.
